(** * simplejson: the JSON value model and recursive-descent parser of json.hpp

    A shallow embedding of [namespace simplejson] (src/json.hpp): the
    [JsonValue] variant, the exceptions the code can raise, the cursor
    primitives of [class Parser], the lexical and structural parsing
    functions, and the two [get] navigation helpers; followed by the
    properties of the parser that the specification states. *)

From Stdlib Require Import String Ascii List Bool Arith NArith ZArith Lia.
From Stdlib Require Import Sorted.
From Stdlib Require Import SpecFloat.
Import ListNotations.

Module simplejson.

Open Scope string_scope.
Open Scope nat_scope.

(** ** Exceptions and outcomes *)

(** What a call can throw: [ParseError] (a [std::runtime_error] carrying its
    message), [std::out_of_range] (from [std::stod] or [string_view::substr])
    and [std::bad_variant_access] (from [std::get] on the wrong alternative). *)
Inductive exception : Type :=
| ParseError (message : string)
| out_of_range
| bad_variant_access.

(** A call returns a value, throws, or (for the loops and recursive calls,
    which the embedding bounds by a counter) exhausts its counter. *)
Inductive outcome (A : Type) : Type :=
| Ok (a : A)
| Throw (e : exception)
| OutOfFuel.

Arguments Ok {A} a.
Arguments Throw {A} e.
Arguments OutOfFuel {A}.

(** A member function of [Parser]: it reads and updates the cursor [pos_]. *)
Definition M (A : Type) : Type := nat -> outcome (A * nat).

Definition ret {A : Type} (a : A) : M A := fun pos => Ok (a, pos).

Definition bind {A B : Type} (m : M A) (k : A -> M B) : M B :=
  fun pos =>
    match m pos with
    | Ok (a, pos') => k a pos'
    | Throw e => Throw e
    | OutOfFuel => OutOfFuel
    end.

Definition throw {A : Type} (e : exception) : M A := fun _ => Throw e.

Definition out_of_fuel {A : Type} : M A := fun _ => OutOfFuel.

Definition get_pos : M nat := fun pos => Ok (pos, pos).

Notation "x <- m ;; k" := (bind m (fun x => k))
  (at level 61, m at next level, right associativity).
Notation "m ;;; k" := (bind m (fun _ => k))
  (at level 61, right associativity).

(** ** Characters *)

(** The characters the code names that a literal here cannot spell. *)
Definition dquote : ascii := "034"%char.
Definition backslash : ascii := "092"%char.
Definition backspace : ascii := "008"%char.
Definition formfeed : ascii := "012"%char.
Definition newline : ascii := "010"%char.
Definition carriage_return : ascii := "013"%char.
Definition tab : ascii := "009"%char.
Definition vtab : ascii := "011"%char.
Definition space : ascii := "032"%char.

(** [static_cast<unsigned char>(ch)] as a number. *)
Definition code (ch : ascii) : N := N_of_ascii ch.

(** [std::isspace] of <cctype> in the default "C" locale (the program never
    calls setlocale): space, and the five characters from horizontal tab
    (9) to carriage return (13), which include vertical tab and form feed. *)
Definition isspace (ch : ascii) : bool :=
  ((code ch =? 32) || ((9 <=? code ch) && (code ch <=? 13)))%N.

(** [std::isdigit]: the ten decimal digits. *)
Definition isdigit (ch : ascii) : bool :=
  ((48 <=? code ch) && (code ch <=? 57))%N.

(** [result.push_back(ch)]. *)
Definition push_back (s : string) (ch : ascii) : string :=
  s ++ String ch EmptyString.

(** Writes a JSON text with ['] standing for the double quote. *)
Fixpoint json_text (s : string) : string :=
  match s with
  | EmptyString => EmptyString
  | String c s' =>
      String (if Ascii.eqb c "'"%char then dquote else c) (json_text s')
  end.

(** ** The value model *)

Section Value.

(** The C++ [double]; its conversion from text is [std::stod]. *)
Context {double : Type}.

(** [JsonValue::Variant]. A [JsonObject] is a [std::map<std::string,
    JsonValue>]: its pairs in iteration order. *)
#[local] Set Warnings "-register-all".
Inductive JsonValue : Type :=
| JNull
| JBool (b : bool)
| JNumber (d : double)
| JString (s : string)
| JArray (array : list JsonValue)
| JObject (object : list (string * JsonValue)).

Definition JsonArray : Type := list JsonValue.
Definition JsonObject : Type := list (string * JsonValue).

Definition is_null (v : JsonValue) : bool :=
  match v with JNull => true | _ => false end.
Definition is_bool (v : JsonValue) : bool :=
  match v with JBool _ => true | _ => false end.
Definition is_number (v : JsonValue) : bool :=
  match v with JNumber _ => true | _ => false end.
Definition is_string (v : JsonValue) : bool :=
  match v with JString _ => true | _ => false end.
Definition is_array (v : JsonValue) : bool :=
  match v with JArray _ => true | _ => false end.
Definition is_object (v : JsonValue) : bool :=
  match v with JObject _ => true | _ => false end.

(** The accessors are [std::get<T>(value_)], which throws
    [std::bad_variant_access] when the variant holds another alternative. *)
Definition as_string (v : JsonValue) : outcome string :=
  match v with JString s => Ok s | _ => Throw bad_variant_access end.
Definition as_number (v : JsonValue) : outcome double :=
  match v with JNumber d => Ok d | _ => Throw bad_variant_access end.
Definition as_bool (v : JsonValue) : outcome bool :=
  match v with JBool b => Ok b | _ => Throw bad_variant_access end.
Definition as_array (v : JsonValue) : outcome JsonArray :=
  match v with JArray a => Ok a | _ => Throw bad_variant_access end.
Definition as_object (v : JsonValue) : outcome JsonObject :=
  match v with JObject o => Ok o | _ => Throw bad_variant_access end.

(** [std::map::find]: the search follows the key order ([std::less] on
    [std::string], which compares bytes as unsigned, then lengths). *)
Fixpoint map_find (object : JsonObject) (key : string) : option JsonValue :=
  match object with
  | [] => None
  | (k, v) :: rest =>
      match String.compare k key with
      | Lt => map_find rest key
      | Eq => Some v
      | Gt => None
      end
  end.

(** [std::map::emplace]: inserts at the key's place in the order, and
    inserts nothing when the key is already there. *)
Fixpoint map_emplace (key : string) (value : JsonValue) (object : JsonObject)
  : JsonObject :=
  match object with
  | [] => [(key, value)]
  | (k, v) :: rest =>
      match String.compare k key with
      | Lt => (k, v) :: map_emplace key value rest
      | Eq => (k, v) :: rest
      | Gt => (key, value) :: (k, v) :: rest
      end
  end.

(** [get(const JsonObject &, const std::string &)]; [None] is [nullptr]. *)
Definition get_object (object : JsonObject) (key : string)
  : option JsonValue :=
  map_find object key.

(** [get(const JsonArray &, size_t)]; [None] is [nullptr]. *)
Definition get_array (array : JsonArray) (index : nat) : option JsonValue :=
  if List.length array <=? index then None else nth_error array index.

End Value.

Arguments JsonValue : clear implicits.
Arguments JsonArray : clear implicits.
Arguments JsonObject : clear implicits.

(** ** The parser *)

Section Parser.

Context {double : Type}.

(** [std::stod] on a matched number; [None] when it throws
    [std::out_of_range]. *)
Variable stod : string -> option double.

(** The view [input_] the parser borrows; it never changes. *)
Variable input_ : string.

Definition size : nat := String.length input_.

(** [input_[i]], for [i] inside the view. *)
Definition char_at (i : nat) : ascii :=
  match String.get i input_ with
  | Some ch => ch
  | None => zero
  end.

(** [string_view::substr]: it throws when [pos] is past the end and
    otherwise stops at the end of the view. *)
Definition substr (pos n : nat) : outcome string :=
  if size <? pos then Throw out_of_range else Ok (substring pos n input_).

Definition lift {A : Type} (o : outcome A) : M A :=
  fun pos =>
    match o with
    | Ok a => Ok (a, pos)
    | Throw e => Throw e
    | OutOfFuel => OutOfFuel
    end.

Definition eof : M bool := fun pos => Ok (size <=? pos, pos).

Definition peek : M ascii :=
  e <- eof ;;
  if e then throw (ParseError "Unexpected end of input")
  else pos <- get_pos ;; ret (char_at pos).

Definition advance : M ascii :=
  e <- eof ;;
  if e then throw (ParseError "Unexpected end of input")
  else fun pos => Ok (char_at pos, S pos).

(** [match(text)] *)
Definition match_ (text : string) : M bool :=
  pos <- get_pos ;;
  s <- lift (substr pos (String.length text)) ;;
  if String.eqb s text then fun pos => Ok (true, pos + String.length text)
  else ret false.

(** [expect(std::string_view)] *)
Definition expect (text : string) : M unit :=
  b <- match_ text ;;
  if b then ret tt else throw (ParseError ("Expected '" ++ text ++ "'")).

(** [expect(char)] *)
Definition expect_char (expected : ascii) : M unit :=
  e <- eof ;;
  if e then throw (ParseError (push_back "Expected '" expected ++ "'"))
  else
    ch <- advance ;;
    if negb (Ascii.eqb ch expected)
    then throw (ParseError (push_back "Expected '" expected ++ "'"))
    else ret tt.

(** The condition [!eof() && p(static_cast<unsigned char>(peek()))]. *)
Definition not_eof_and (p : ascii -> bool) : M bool :=
  e <- eof ;;
  if e then ret false else ch <- peek ;; ret (p ch).

(** [while (!eof() && p(peek())) advance();], at most [n] rounds. *)
Fixpoint while_advance (p : ascii -> bool) (n : nat) : M unit :=
  b <- not_eof_and p ;;
  if b then
    match n with
    | 0 => out_of_fuel
    | S n' => advance ;;; while_advance p n'
    end
  else ret tt.

Definition skip_whitespace : M unit := while_advance isspace size.

Definition parse_null : M (JsonValue double) :=
  expect "null" ;;; ret JNull.

Definition parse_bool : M (JsonValue double) :=
  t <- match_ "true" ;;
  if t then ret (JBool true)
  else
    f <- match_ "false" ;;
    if f then ret (JBool false)
    else throw (ParseError "Invalid boolean value").

Definition parse_number : M (JsonValue double) :=
  start <- get_pos ;;
  ch <- peek ;;
  (if Ascii.eqb ch "-" then advance ;;; ret tt else ret tt) ;;;
  e <- eof ;;
  if e then throw (ParseError "Unexpected end of input in number")
  else
    ch <- peek ;;
    (if Ascii.eqb ch "0" then advance ;;; ret tt
     else if isdigit ch then while_advance isdigit size
     else throw (ParseError "Invalid number")) ;;;
    dot <- not_eof_and (fun ch => Ascii.eqb ch ".") ;;
    (if dot then
       advance ;;;
       d <- not_eof_and isdigit ;;
       if negb d then throw (ParseError "Invalid number fraction")
       else while_advance isdigit size
     else ret tt) ;;;
    ex <- not_eof_and (fun ch => Ascii.eqb ch "e" || Ascii.eqb ch "E") ;;
    (if ex then
       advance ;;;
       sign <- not_eof_and (fun ch => Ascii.eqb ch "+" || Ascii.eqb ch "-") ;;
       (if sign then advance ;;; ret tt else ret tt) ;;;
       d <- not_eof_and isdigit ;;
       if negb d then throw (ParseError "Invalid number exponent")
       else while_advance isdigit size
     else ret tt) ;;;
    pos <- get_pos ;;
    lexeme <- lift (substr start (pos - start)) ;;
    match stod lexeme with
    | Some value => ret (JNumber value)
    | None => throw out_of_range
    end.

(** A [uint32_t] result. *)
Definition u32 (z : Z) : Z := z mod 2 ^ 32.

(** The [for] loop of [parse_unicode_escape], with [i] rounds to go. *)
Fixpoint unicode_digits (i : nat) (value : Z) : M Z :=
  match i with
  | 0 => ret value
  | S i' =>
      e <- eof ;;
      if e then throw (ParseError "Unexpected end of input in unicode escape")
      else
        ch <- advance ;;
        let value := u32 (Z.shiftl value 4) in
        let c := Z.of_N (code ch) in
        if ((48 <=? c) && (c <=? 57))%Z
        then unicode_digits i' (u32 (value + u32 (c - 48)))%Z
        else if ((97 <=? c) && (c <=? 102))%Z
        then unicode_digits i' (u32 (value + u32 (10 + c - 97)))%Z
        else if ((65 <=? c) && (c <=? 70))%Z
        then unicode_digits i' (u32 (value + u32 (10 + c - 65)))%Z
        else throw (ParseError "Invalid unicode escape")
  end.

Definition parse_unicode_escape : M ascii :=
  value <- unicode_digits 4 0 ;;
  if (value <=? 127)%Z then ret (ascii_of_N (Z.to_N value))
  else ret "?"%char.

(** The [while (!eof())] loop of [parse_string], at most [n] rounds, and
    the throw that follows it. *)
Fixpoint parse_string_loop (n : nat) (result : string)
  : M (JsonValue double) :=
  e <- eof ;;
  if e then throw (ParseError "Unterminated string")
  else
    match n with
    | 0 => out_of_fuel
    | S n' =>
        ch <- advance ;;
        if Ascii.eqb ch dquote then ret (JString result)
        else if Ascii.eqb ch backslash then
          e <- eof ;;
          if e then throw (ParseError "Unterminated escape sequence")
          else
            escaped <- advance ;;
            result <-
              (if Ascii.eqb escaped dquote then ret (push_back result dquote)
               else if Ascii.eqb escaped backslash
               then ret (push_back result backslash)
               else if Ascii.eqb escaped "/" then ret (push_back result "/")
               else if Ascii.eqb escaped "b"
               then ret (push_back result backspace)
               else if Ascii.eqb escaped "f"
               then ret (push_back result formfeed)
               else if Ascii.eqb escaped "n"
               then ret (push_back result newline)
               else if Ascii.eqb escaped "r"
               then ret (push_back result carriage_return)
               else if Ascii.eqb escaped "t" then ret (push_back result tab)
               else if Ascii.eqb escaped "u" then
                 u <- parse_unicode_escape ;; ret (push_back result u)
               else throw (ParseError "Invalid escape sequence")) ;;
            parse_string_loop n' result
        else if (code ch <? 32)%N
        then throw (ParseError "Invalid control character in string")
        else parse_string_loop n' (push_back result ch)
    end.

Definition parse_string : M (JsonValue double) :=
  expect_char dquote ;;; parse_string_loop size "".

(** The [while (true)] loop of [parse_array], at most [n] rounds;
    [parse_value] is the recursive call. *)
Fixpoint parse_array_loop (parse_value : M (JsonValue double)) (n : nat)
  (array : JsonArray double) : M (JsonValue double) :=
  match n with
  | 0 => out_of_fuel
  | S n' =>
      value <- parse_value ;;
      let array := (array ++ [value])%list in
      skip_whitespace ;;;
      ch <- peek ;;
      if Ascii.eqb ch "," then
        advance ;;; skip_whitespace ;;; parse_array_loop parse_value n' array
      else
        ch <- peek ;;
        if Ascii.eqb ch "]" then advance ;;; ret (JArray array)
        else throw (ParseError "Expected ',' or ']' in array")
  end.

Definition parse_array (parse_value : M (JsonValue double)) (n : nat)
  : M (JsonValue double) :=
  expect_char "[" ;;;
  skip_whitespace ;;;
  ch <- peek ;;
  if Ascii.eqb ch "]" then advance ;;; ret (JArray [])
  else parse_array_loop parse_value n [].

(** The [while (true)] loop of [parse_object], at most [n] rounds. *)
Fixpoint parse_object_loop (parse_value : M (JsonValue double)) (n : nat)
  (object : JsonObject double) : M (JsonValue double) :=
  match n with
  | 0 => out_of_fuel
  | S n' =>
      ch <- peek ;;
      if negb (Ascii.eqb ch dquote)
      then throw (ParseError "Expected string key in object")
      else
        s <- parse_string ;;
        key <- lift (as_string s) ;;
        skip_whitespace ;;;
        expect_char ":" ;;;
        skip_whitespace ;;;
        value <- parse_value ;;
        let object := map_emplace key value object in
        skip_whitespace ;;;
        ch <- peek ;;
        if Ascii.eqb ch "," then
          advance ;;; skip_whitespace ;;;
          parse_object_loop parse_value n' object
        else
          ch <- peek ;;
          if Ascii.eqb ch "}" then advance ;;; ret (JObject object)
          else throw (ParseError "Expected ',' or '}' in object")
  end.

Definition parse_object (parse_value : M (JsonValue double)) (n : nat)
  : M (JsonValue double) :=
  expect_char "{" ;;;
  skip_whitespace ;;;
  ch <- peek ;;
  if Ascii.eqb ch "}" then advance ;;; ret (JObject [])
  else parse_object_loop parse_value n [].

(** [parse_value], with [fuel] bounding the depth of its recursion through
    [parse_array] and [parse_object] and the rounds of their loops. *)
Fixpoint parse_value (fuel : nat) : M (JsonValue double) :=
  match fuel with
  | 0 => out_of_fuel
  | S fuel' =>
      e <- eof ;;
      if e then throw (ParseError "Unexpected end of input")
      else
        ch <- peek ;;
        if Ascii.eqb ch "n" then parse_null
        else if Ascii.eqb ch "t" || Ascii.eqb ch "f" then parse_bool
        else if Ascii.eqb ch dquote then parse_string
        else if Ascii.eqb ch "[" then parse_array (parse_value fuel') fuel'
        else if Ascii.eqb ch "{" then parse_object (parse_value fuel') fuel'
        else if Ascii.eqb ch "-" || isdigit ch then parse_number
        else throw (ParseError "Invalid JSON value")
  end.

(** [Parser::parse] *)
Definition Parser_parse (fuel : nat) : M (JsonValue double) :=
  skip_whitespace ;;;
  value <- parse_value fuel ;;
  skip_whitespace ;;;
  e <- eof ;;
  if e then ret value
  else throw (ParseError "Unexpected characters after JSON value").

End Parser.

(** [parse(std::string_view)]: a parser over [input] with the cursor at 0,
    run with [fuel]. *)
Definition parse_with {double : Type} (stod : string -> option double)
  (fuel : nat) (input : string) : outcome (JsonValue double) :=
  match Parser_parse stod input fuel 0 with
  | Ok (value, _) => Ok value
  | Throw e => Throw e
  | OutOfFuel => OutOfFuel
  end.

(** The fuel [parse] runs with: one more than the length of the input
    (every nested call and every round consumes a character first). *)
Definition parse {double : Type} (stod : string -> option double)
  (input : string) : outcome (JsonValue double) :=
  parse_with stod (S (String.length input)) input.

(** A conversion to exercise the parser with: it keeps the matched text
    as the number, and never throws. *)
Definition stod_text (lexeme : string) : option string := Some lexeme.

(** ** Vocabulary of the properties *)

(** Byte-wise lexicographic order on keys: a proper prefix comes first, and
    otherwise the first differing byte decides, compared as unsigned. *)
Inductive lex_lt : string -> string -> Prop :=
| lex_lt_prefix (c : ascii) (s : string) : lex_lt EmptyString (String c s)
| lex_lt_head (c1 c2 : ascii) (s1 s2 : string) :
    (code c1 < code c2)%N -> lex_lt (String c1 s1) (String c2 s2)
| lex_lt_tail (c : ascii) (s1 s2 : string) :
    lex_lt s1 s2 -> lex_lt (String c s1) (String c s2).

Section Vocabulary.

Context {double : Type}.

(** The keys of an object, in iteration order, strictly ascend. *)
Definition keys_ascending (object : JsonObject double) : Prop :=
  StronglySorted lex_lt (map fst object).

(** Every object of a value tree, at any depth, has ascending keys. *)
Fixpoint objects_ordered (v : JsonValue double) : Prop :=
  match v with
  | JArray array =>
      (fix all (l : list (JsonValue double)) : Prop :=
         match l with
         | [] => True
         | x :: l' => objects_ordered x /\ all l'
         end) array
  | JObject object =>
      keys_ascending object /\
      (fix all (l : list (string * JsonValue double)) : Prop :=
         match l with
         | [] => True
         | (_, x) :: l' => objects_ordered x /\ all l'
         end) object
  | _ => True
  end.

(** The value of the first pair with [key] in a sequence of pairs. *)
Fixpoint first_binding (members : list (string * JsonValue double))
  (key : string) : option (JsonValue double) :=
  match members with
  | [] => None
  | (k, v) :: rest =>
      if String.eqb k key then Some v else first_binding rest key
  end.

(** The object [std::map::emplace] builds from pairs taken in order. *)
Definition emplace_all (members : list (string * JsonValue double))
  (object : JsonObject double) : JsonObject double :=
  fold_left (fun o kv => map_emplace (fst kv) (snd kv) o) members object.

Variable input_ : string.

(** From [pos] the input reads a key, a colon and a value (parsed by
    [parse_value]), with optional whitespace, up to [pos']. *)
Definition member_at (parse_value : M (JsonValue double)) (pos : nat)
  (key : string) (value : JsonValue double) (pos' : nat) : Prop :=
  exists p1 p2 p3 p4 p5,
    @parse_string double input_ pos = Ok (JString key, p1) /\
    skip_whitespace input_ p1 = Ok (tt, p2) /\
    expect_char input_ ":" p2 = Ok (tt, p3) /\
    skip_whitespace input_ p3 = Ok (tt, p4) /\
    parse_value p4 = Ok (value, p5) /\
    skip_whitespace input_ p5 = Ok (tt, pos').

(** From [pos] the input reads the pairs [members], in this order,
    separated by commas and closed by a brace just before [pos']. *)
Inductive object_members (parse_value : M (JsonValue double))
  : nat -> list (string * JsonValue double) -> nat -> Prop :=
| members_last (pos : nat) (key : string) (value : JsonValue double)
    (p : nat) :
    member_at parse_value pos key value p ->
    peek input_ p = Ok ("}"%char, p) ->
    object_members parse_value pos [(key, value)] (S p)
| members_more (pos : nat) (key : string) (value : JsonValue double)
    (p p' pos' : nat) (rest : list (string * JsonValue double)) :
    member_at parse_value pos key value p ->
    peek input_ p = Ok (","%char, p) ->
    skip_whitespace input_ (S p) = Ok (tt, p') ->
    object_members parse_value p' rest pos' ->
    object_members parse_value pos ((key, value) :: rest) pos'.

(** From [pos] the input reads an object literal with the pairs [members]
    up to [pos']. *)
Definition object_literal (parse_value : M (JsonValue double)) (pos : nat)
  (members : list (string * JsonValue double)) (pos' : nat) : Prop :=
  exists p,
    expect_char input_ "{" pos = Ok (tt, S pos) /\
    skip_whitespace input_ (S pos) = Ok (tt, p) /\
    ((peek input_ p = Ok ("}"%char, p) /\ members = [] /\ pos' = S p) \/
     ((forall ch, peek input_ p = Ok (ch, p) -> ch <> "}"%char) /\
      object_members parse_value p members pos')).

(** The outcome is no exhausted counter, and a returned cursor is at least
    [lo] and inside the input. *)
Definition lands {A : Type} (lo : nat) (r : outcome (A * nat)) : Prop :=
  match r with
  | Ok (_, pos') => lo <= pos' /\ pos' <= size input_
  | Throw _ => True
  | OutOfFuel => False
  end.

(** The outcome of a call made at [pos] is no exhausted counter, and a
    returned cursor is at least [k] further and inside the input. *)
Definition progresses {A : Type} (k pos : nat) (r : outcome (A * nat))
  : Prop :=
  lands (pos + k) r.

End Vocabulary.

(** An outcome without its value. *)
Definition void {A : Type} (r : outcome A) : outcome unit :=
  match r with
  | Ok _ => Ok tt
  | Throw e => Throw e
  | OutOfFuel => OutOfFuel
  end.

(** [m'] does what [m] does wherever [m] does not end in the failure [k]
    (an exhausted counter, or a given exception). *)
Definition refines {A : Type} (k : outcome unit) (m m' : M A) : Prop :=
  forall pos, void (m pos) <> k -> m' pos = m pos.

(** Every value [m] returns satisfies [P]. *)
Definition yields {A : Type} (P : A -> Prop) (m : M A) : Prop :=
  forall pos a pos', m pos = Ok (a, pos') -> P a.

(** The value of one hexadecimal digit, read off the two digit strings. *)
Definition hex_digit_value (ch : ascii) : option Z :=
  match index 0 (String ch EmptyString) "0123456789abcdef" with
  | Some i => Some (Z.of_nat i)
  | None =>
      match index 0 (String ch EmptyString) "0123456789ABCDEF" with
      | Some i => Some (Z.of_nat i)
      | None => None
      end
  end.

(** A byte a string literal holds unescaped without an error: not the
    quote, not the backslash, and not below 0x20. *)
Definition raw_byte (ch : ascii) : Prop :=
  ch <> dquote /\ ch <> backslash /\ (32 <= code ch)%N.

(** Every byte of [s] satisfies [P]. *)
Fixpoint all_bytes (P : ascii -> Prop) (s : string) : Prop :=
  match s with
  | EmptyString => True
  | String ch s' => P ch /\ all_bytes P s'
  end.

(** What [peek] and [advance] throw at the end of the input. *)
Definition end_of_input : exception := ParseError "Unexpected end of input".

(** The six characters of [std::isspace] in the "C" locale. *)
Definition c_locale_space (ch : ascii) : Prop :=
  In ch [space; tab; newline; vtab; formfeed; carriage_return].

(** The four characters JSON calls whitespace. *)
Definition json_whitespace (ch : ascii) : Prop :=
  In ch [space; tab; newline; carriage_return].

(** ** Vocabulary of further properties *)

(** A text of one or more decimal digits. *)
Definition digits (s : string) : Prop :=
  s <> EmptyString /\ all_bytes (fun ch => isdigit ch = true) s.

(** The JSON number production: an optional minus, an integer part that is
    a single 0 or digits not starting with 0, an optional fraction and an
    optional exponent. *)
Definition json_number (lexeme : string) : Prop :=
  exists sign int frac exp,
    lexeme = sign ++ int ++ frac ++ exp /\
    (sign = "" \/ sign = "-") /\
    (int = "0" \/ digits int /\ String.get 0 int <> Some "0"%char) /\
    (frac = "" \/ exists d, digits d /\ frac = "." ++ d) /\
    (exp = "" \/
     exists e sg d,
       (e = "e" \/ e = "E") /\ (sg = "" \/ sg = "+" \/ sg = "-") /\
       digits d /\ exp = e ++ sg ++ d).

(** The character a one-letter escape stands for. *)
Definition simple_escape (escaped : ascii) : option ascii :=
  if Ascii.eqb escaped dquote then Some dquote
  else if Ascii.eqb escaped backslash then Some backslash
  else if Ascii.eqb escaped "/" then Some "/"%char
  else if Ascii.eqb escaped "b" then Some backspace
  else if Ascii.eqb escaped "f" then Some formfeed
  else if Ascii.eqb escaped "n" then Some newline
  else if Ascii.eqb escaped "r" then Some carriage_return
  else if Ascii.eqb escaped "t" then Some tab
  else None.

(** An outcome that, when it is an exception, is one that satisfies [P]. *)
Definition raises {A : Type} (P : exception -> Prop) (r : outcome A)
  : Prop :=
  match r with
  | Throw e => P e
  | _ => True
  end.

Section MoreVocabulary.

Context {double : Type}.

(** The exceptions of the parser: a [ParseError], or the [std::out_of_range]
    of a [std::stod] that rejects some text. *)
Definition parser_exception (stod : string -> option double)
  (e : exception) : Prop :=
  (exists message, e = ParseError message) \/
  (e = out_of_range /\ exists lexeme, stod lexeme = None).

(** The size of a value tree: its nodes plus the bytes of its strings and
    keys. *)
Fixpoint weight (v : JsonValue double) : nat :=
  match v with
  | JString s => S (String.length s)
  | JArray array =>
      S ((fix sum (l : list (JsonValue double)) : nat :=
            match l with
            | [] => 0
            | x :: l' => weight x + sum l'
            end) array)
  | JObject object =>
      S ((fix sum (l : list (string * JsonValue double)) : nat :=
            match l with
            | [] => 0
            | (k, x) :: l' => String.length k + weight x + sum l'
            end) object)
  | _ => 1
  end.

Variable input_ : string.

(** From [pos] the input reads the values [elements], in this order,
    separated by commas and closed by a bracket just before [pos']. *)
Inductive array_elements (parse_value : M (JsonValue double))
  : nat -> list (JsonValue double) -> nat -> Prop :=
| elements_last (pos : nat) (value : JsonValue double) (p1 p : nat) :
    parse_value pos = Ok (value, p1) ->
    skip_whitespace input_ p1 = Ok (tt, p) ->
    peek input_ p = Ok ("]"%char, p) ->
    array_elements parse_value pos [value] (S p)
| elements_more (pos : nat) (value : JsonValue double) (p1 p p' pos' : nat)
    (rest : list (JsonValue double)) :
    parse_value pos = Ok (value, p1) ->
    skip_whitespace input_ p1 = Ok (tt, p) ->
    peek input_ p = Ok (","%char, p) ->
    skip_whitespace input_ (S p) = Ok (tt, p') ->
    array_elements parse_value p' rest pos' ->
    array_elements parse_value pos (value :: rest) pos'.

(** From [pos] the input reads the values [elements], each followed by a
    comma, and [pos'] is where the next value is to start. *)
Inductive array_commas (parse_value : M (JsonValue double))
  : nat -> list (JsonValue double) -> nat -> Prop :=
| commas_none (pos : nat) : array_commas parse_value pos [] pos
| commas_more (pos : nat) (value : JsonValue double) (p1 p p' pos' : nat)
    (rest : list (JsonValue double)) :
    parse_value pos = Ok (value, p1) ->
    skip_whitespace input_ p1 = Ok (tt, p) ->
    peek input_ p = Ok (","%char, p) ->
    skip_whitespace input_ (S p) = Ok (tt, p') ->
    array_commas parse_value p' rest pos' ->
    array_commas parse_value pos (value :: rest) pos'.

(** From [pos] the input reads an array literal with the values
    [elements] up to [pos']. *)
Definition array_literal (parse_value : M (JsonValue double)) (pos : nat)
  (elements : list (JsonValue double)) (pos' : nat) : Prop :=
  exists p,
    expect_char input_ "[" pos = Ok (tt, S pos) /\
    skip_whitespace input_ (S pos) = Ok (tt, p) /\
    ((peek input_ p = Ok ("]"%char, p) /\ elements = [] /\ pos' = S p) \/
     ((exists ch, peek input_ p = Ok (ch, p) /\ ch <> "]"%char) /\
      array_elements parse_value p elements pos')).

End MoreVocabulary.

(** ** The JSON grammar *)

(** One of the twenty-two hexadecimal digits. *)
Definition hex_digit (ch : ascii) : Prop := hex_digit_value ch <> None.

(** The characters between the quotes of a string literal: bytes that
    stand for themselves, one-letter escapes, and [\u] with four
    hexadecimal digits. *)
Inductive json_chars : string -> Prop :=
| chars_end : json_chars ""
| chars_raw (ch : ascii) (rest : string) :
    raw_byte ch -> json_chars rest -> json_chars (String ch rest)
| chars_escape (escaped : ascii) (rest : string) :
    simple_escape escaped <> None -> json_chars rest ->
    json_chars (String backslash (String escaped rest))
| chars_unicode (h1 h2 h3 h4 : ascii) (rest : string) :
    hex_digit h1 -> hex_digit h2 -> hex_digit h3 -> hex_digit h4 ->
    json_chars rest ->
    json_chars
      (String backslash
         (String "u" (String h1 (String h2 (String h3 (String h4 rest)))))).

(** A string literal. *)
Definition json_string (s : string) : Prop :=
  exists body, json_chars body /\ s = String dquote (body ++ String dquote "").

(** A run of whitespace, the empty one included; [ws] says which
    characters are whitespace. *)
Definition blank (ws : ascii -> Prop) (s : string) : Prop :=
  all_bytes ws s.

(** The three kinds of text the grammar of values is made of: a value,
    the elements of an array and the members of an object (both without
    the whitespace before the first). *)
Inductive part : Type :=
| a_value
| some_elements
| some_members.

(** The grammar of JSON values, with [ws] for the whitespace
    characters. [number] is a further condition on the number literals
    (that the conversion accepts them). *)
Inductive json_part (ws : ascii -> Prop) (number : string -> Prop)
  : part -> string -> Prop :=
| part_null : json_part ws number a_value "null"
| part_true : json_part ws number a_value "true"
| part_false : json_part ws number a_value "false"
| part_number (s : string) :
    json_number s -> number s -> json_part ws number a_value s
| part_string (s : string) :
    json_string s -> json_part ws number a_value s
| part_empty_array (w : string) :
    blank ws w -> json_part ws number a_value ("[" ++ w ++ "]")
| part_array (w elements : string) :
    blank ws w -> json_part ws number some_elements elements ->
    json_part ws number a_value ("[" ++ w ++ elements ++ "]")
| part_empty_object (w : string) :
    blank ws w -> json_part ws number a_value ("{" ++ w ++ "}")
| part_object (w members : string) :
    blank ws w -> json_part ws number some_members members ->
    json_part ws number a_value ("{" ++ w ++ members ++ "}")
| part_element (v w : string) :
    json_part ws number a_value v -> blank ws w ->
    json_part ws number some_elements (v ++ w)
| part_elements (v w1 w2 rest : string) :
    json_part ws number a_value v -> blank ws w1 -> blank ws w2 ->
    json_part ws number some_elements rest ->
    json_part ws number some_elements (v ++ w1 ++ "," ++ w2 ++ rest)
| part_member (key w1 w2 v w3 : string) :
    json_string key -> blank ws w1 -> blank ws w2 ->
    json_part ws number a_value v -> blank ws w3 ->
    json_part ws number some_members (key ++ w1 ++ ":" ++ w2 ++ v ++ w3)
| part_members (key w1 w2 v w3 w4 rest : string) :
    json_string key -> blank ws w1 -> blank ws w2 ->
    json_part ws number a_value v -> blank ws w3 -> blank ws w4 ->
    json_part ws number some_members rest ->
    json_part ws number some_members
      (key ++ w1 ++ ":" ++ w2 ++ v ++ w3 ++ "," ++ w4 ++ rest).

(** A JSON text: one value, with whitespace allowed around it. *)
Definition well_formed (ws : ascii -> Prop) (number : string -> Prop)
  (input : string) : Prop :=
  exists w1 v w2,
    blank ws w1 /\ json_part ws number a_value v /\ blank ws w2 /\
    input = w1 ++ v ++ w2.

(** From [pos] on the input reads [text]. *)
Fixpoint reads (input : string) (pos : nat) (text : string) : Prop :=
  match text with
  | EmptyString => pos <= String.length input
  | String ch text' =>
      String.get pos input = Some ch /\ reads input (S pos) text'
  end.

(** At [pos] the input ends, or has a character that fails [p]. *)
Definition stops (p : ascii -> bool) (input : string) (pos : nat) : Prop :=
  forall ch, String.get pos input = Some ch -> p ch = false.

(** The characters that can follow a value: whitespace, a comma, and the
    two closers. *)
Definition delimiter (ch : ascii) : bool :=
  isspace ch || Ascii.eqb ch "," || Ascii.eqb ch "]" || Ascii.eqb ch "}".

(** At [pos] the input ends, or has a delimiter. *)
Definition follows (input : string) (pos : nat) : Prop :=
  stops (fun ch => negb (delimiter ch)) input pos.

(** The characters a value can start with. *)
Definition value_start (ch : ascii) : bool :=
  Ascii.eqb ch "n" || Ascii.eqb ch "t" || Ascii.eqb ch "f" ||
  Ascii.eqb ch dquote || Ascii.eqb ch "[" || Ascii.eqb ch "{" ||
  Ascii.eqb ch "-" || isdigit ch.

(** * main.cpp: the pipeline around the parser *)

Module pipeline.

(** What the pipeline can throw: an exception of the parser or of the value
    model, or a [std::runtime_error] of its own. *)
Inductive failure : Type :=
| json (e : exception)
| runtime_error (message : string).

(** A call returns, throws, or (only where [parse] would exhaust its
    counter) diverges. *)
Inductive result (A : Type) : Type :=
| Return (a : A)
| Raise (e : failure)
| Diverge.

Arguments Return {A} a.
Arguments Raise {A} e.
Arguments Diverge {A}.

Definition from_json {A : Type} (o : outcome A) : result A :=
  match o with
  | Ok a => Return a
  | Throw e => Raise (json e)
  | OutOfFuel => Diverge
  end.

Definition rbind {A B : Type} (r : result A) (k : A -> result B)
  : result B :=
  match r with
  | Return a => k a
  | Raise e => Raise e
  | Diverge => Diverge
  end.

Notation "x <~ r ;; k" := (rbind r (fun x => k))
  (at level 61, r at next level, right associativity).

(** *** escape_csv *)

(** Whether [ch] is one of [chars]. *)
Fixpoint one_of (chars : string) (ch : ascii) : bool :=
  match chars with
  | EmptyString => false
  | String c chars' => Ascii.eqb ch c || one_of chars' ch
  end.

(** [value.find_first_of(chars)]; [None] is [npos]. *)
Fixpoint find_first_of (value chars : string) : option nat :=
  match value with
  | EmptyString => None
  | String ch value' =>
      if one_of chars ch then Some 0
      else match find_first_of value' chars with
           | Some i => Some (S i)
           | None => None
           end
  end.

(** The [for] loop of [escape_csv] over the rest of [value]. *)
Fixpoint escape_csv_loop (value escaped : string) : string :=
  match value with
  | EmptyString => escaped
  | String ch value' =>
      let escaped :=
        if Ascii.eqb ch dquote then push_back escaped dquote else escaped in
      escape_csv_loop value' (push_back escaped ch)
  end.

Definition escape_csv (value : string) : string :=
  let needs_quotes :=
    match find_first_of value (String "," (String dquote (String newline "")))
    with
    | Some _ => true
    | None => false
    end in
  if negb needs_quotes then value
  else
    let escaped := String dquote "" in
    let escaped := escape_csv_loop value escaped in
    push_back escaped dquote.

(** *** Field extraction and parse_records *)

Section Records.

Context {double : Type}.

(** [std::stod] of the parser. *)
Variable stod : string -> option double.

(** [static_cast<int64_t>] of a double. *)
Variable to_int64 : double -> Z.

(** The UTC text [gmtime_r], [std::put_time] and the millisecond suffix
    give for a count of milliseconds; [None] where [gmtime_r] fails. *)
Variable utc_text : Z -> option string.

Record Record_ : Type := {
  time_iso : string;
  magnitude : option double;
  place : string;
  longitude : option double;
  latitude : option double;
  depth_km : option double
}.

Definition iso8601_from_millis (millis_since_epoch : Z) : result string :=
  match utc_text millis_since_epoch with
  | Some text => Return text
  | None => Raise (runtime_error "Failed to convert timestamp to UTC")
  end.

(** [to_number]; the argument is a pointer, [None] when null. *)
Definition to_number (value : option (JsonValue double))
  : result (option double) :=
  match value with
  | None => Return None
  | Some v =>
      if is_null v then Return None
      else if is_number v then
        d <~ from_json (as_number v) ;; Return (Some d)
      else Return None
  end.

(** [to_string] *)
Definition to_string (value : option (JsonValue double))
  : result (option string) :=
  match value with
  | None => Return None
  | Some v =>
      if is_null v then Return None
      else if is_string v then
        s <~ from_json (as_string v) ;; Return (Some s)
      else Return None
  end.

(** [std::optional::value_or] *)
Definition value_or {A : Type} (o : option A) (default : A) : A :=
  match o with
  | Some a => a
  | None => default
  end.

(** The [for] loop of [parse_records] over the rest of [features]; each
    [continue] goes on with the rest and the records so far. *)
Fixpoint parse_records_loop (features : list (JsonValue double))
  (records : list Record_) : result (list Record_) :=
  match features with
  | [] => Return records
  | feature_value :: rest =>
      if negb (is_object feature_value) then parse_records_loop rest records
      else
        feature_obj <~ from_json (as_object feature_value) ;;
        let properties_value := get_object feature_obj "properties" in
        let geometry_value := get_object feature_obj "geometry" in
        match properties_value with
        | None => parse_records_loop rest records
        | Some properties_v =>
        if negb (is_object properties_v)
        then parse_records_loop rest records
        else
        match geometry_value with
        | None => parse_records_loop rest records
        | Some geometry_v =>
        if negb (is_object geometry_v) then parse_records_loop rest records
        else
          properties <~ from_json (as_object properties_v) ;;
          geometry <~ from_json (as_object geometry_v) ;;
          match get_object properties "time" with
          | None => parse_records_loop rest records
          | Some time_value =>
          if negb (is_number time_value)
          then parse_records_loop rest records
          else
            t <~ from_json (as_number time_value) ;;
            let millis := to_int64 t in
            time <~ iso8601_from_millis millis ;;
            mag <~ to_number (get_object properties "mag") ;;
            pl <~ to_string (get_object properties "place") ;;
            coordinates <~
              match get_object geometry "coordinates" with
              | None => Return (None, None, None)
              | Some coordinates_value =>
                  if is_array coordinates_value then
                    coordinates <~ from_json (as_array coordinates_value) ;;
                    lon <~ to_number (get_array coordinates 0) ;;
                    lat <~ to_number (get_array coordinates 1) ;;
                    dep <~ to_number (get_array coordinates 2) ;;
                    Return (lon, lat, dep)
                  else Return (None, None, None)
              end ;;
            let record :=
              {| time_iso := time;
                 magnitude := mag;
                 place := value_or pl "";
                 longitude := fst (fst coordinates);
                 latitude := snd (fst coordinates);
                 depth_km := snd coordinates |} in
            parse_records_loop rest (records ++ [record])
          end
        end
        end
  end.

Definition parse_records (payload : string) : result (list Record_) :=
  root <~ from_json (parse stod payload) ;;
  if negb (is_object root)
  then Raise (runtime_error "Unexpected JSON root type")
  else
    root_obj <~ from_json (as_object root) ;;
    match get_object root_obj "features" with
    | None => Raise (runtime_error "Missing features array")
    | Some features_value =>
        if negb (is_array features_value)
        then Raise (runtime_error "Missing features array")
        else
          features <~ from_json (as_array features_value) ;;
          parse_records_loop features []
    end.

End Records.

Arguments Record_ : clear implicits.

(** *** append_records_to_csv *)

Section Csv.

Context {double : Type}.

(** [out << d] for a double, with the formatting of the stream. *)
Variable show : double -> string.

(** [if (field) { out << *field; }] *)
Definition put_optional (out : string) (field : option double) : string :=
  match field with
  | Some d => out ++ show d
  | None => out
  end.

Definition csv_header : string :=
  "time_iso,magnitude,place,longitude,latitude,depth_km"
  ++ String newline "".

(** One turn of the [for] loop of [append_records_to_csv]; [out] is the
    text written so far. *)
Definition put_record (out : string) (record : Record_ double) : string :=
  let out := out ++ time_iso record ++ "," in
  let out := put_optional out (magnitude record) in
  let out := out ++ "," ++ escape_csv (place record) ++ "," in
  let out := put_optional out (longitude record) in
  let out := out ++ "," in
  let out := put_optional out (latitude record) in
  let out := out ++ "," in
  let out := put_optional out (depth_km record) in
  out ++ String newline "".

(** [append_records_to_csv]: the text it appends to the file, given
    whether the file existed before and whether the stream opened. *)
Definition append_records_to_csv (records : list (Record_ double))
  (file_exists opened : bool) : result string :=
  if negb opened
  then Raise (runtime_error "Failed to open earthquakes.csv for writing")
  else
    let out := "" in
    let out := if negb file_exists then out ++ csv_header else out in
    Return (fold_left put_record records out).

End Csv.

(** *** The magnitude buckets of write_report *)

(** A C++ [double] as an IEEE 754 binary64 value. *)
Definition double64 : Type := spec_float.

(** [x >= y] and [x < y] on doubles: false when either is a NaN. *)
Definition double_ge (x y : double64) : bool := SFleb y x.
Definition double_lt (x y : double64) : bool := SFltb x y.

(** The double of a positive integer literal such as [1.0]. *)
Definition double_of_pos (n : positive) : double64 :=
  binary_normalize 53 1024 (Zpos n) 0 false.

(** [std::numeric_limits<double>::lowest()] and [infinity()]. *)
Definition lowest : double64 := S754_finite true (2 ^ 53 - 1) 971.
Definition infinity : double64 := S754_infinity false.

Record Bucket : Type := {
  min_inclusive : double64;
  max_exclusive : double64;
  label : string
}.

Definition make_buckets : list Bucket :=
  [ {| min_inclusive := lowest; max_exclusive := double_of_pos 1;
       label := "<1.0" |};
    {| min_inclusive := double_of_pos 1; max_exclusive := double_of_pos 2;
       label := "1.0-1.9" |};
    {| min_inclusive := double_of_pos 2; max_exclusive := double_of_pos 3;
       label := "2.0-2.9" |};
    {| min_inclusive := double_of_pos 3; max_exclusive := double_of_pos 4;
       label := "3.0-3.9" |};
    {| min_inclusive := double_of_pos 4; max_exclusive := double_of_pos 5;
       label := "4.0-4.9" |};
    {| min_inclusive := double_of_pos 5; max_exclusive := double_of_pos 6;
       label := "5.0-5.9" |};
    {| min_inclusive := double_of_pos 6; max_exclusive := double_of_pos 7;
       label := "6.0-6.9" |};
    {| min_inclusive := double_of_pos 7; max_exclusive := double_of_pos 8;
       label := "7.0-7.9" |};
    {| min_inclusive := double_of_pos 8; max_exclusive := infinity;
       label := ">=8.0" |} ].

(** The test of the inner loop of [write_report]. *)
Definition in_bucket (mag : double64) (bucket : Bucket) : bool :=
  double_ge mag (min_inclusive bucket) && double_lt mag (max_exclusive bucket).

(** The inner [for] loop of [write_report] from index [i] on: [counts]
    holds the counts of the buckets from [i], and the first bucket that
    holds [mag] is counted before the [break]. *)
Fixpoint count_magnitude (buckets : list Bucket) (counts : list nat)
  (mag : double64) : list nat :=
  match buckets, counts with
  | bucket :: buckets', count :: counts' =>
      if in_bucket mag bucket then (count + 1) :: counts'
      else count :: count_magnitude buckets' counts' mag
  | _, _ => counts
  end.

(** The counting loop of [write_report] over the rest of [records]. *)
Fixpoint count_records (buckets : list Bucket)
  (records : list (Record_ double64)) (counts : list nat) : list nat :=
  match records with
  | [] => counts
  | record :: records' =>
      match magnitude record with
      | None => count_records buckets records' counts
      | Some mag =>
          count_records buckets records'
            (count_magnitude buckets counts mag)
      end
  end.

(** The counts [write_report] writes, one per bucket. *)
Definition report_counts (records : list (Record_ double64)) : list nat :=
  let buckets := make_buckets in
  let counts := repeat 0 (List.length buckets) in
  count_records buckets records counts.

(** The rows [write_report] writes after the header: label and count. *)
Definition report_rows (records : list (Record_ double64))
  : list (string * nat) :=
  combine (map label make_buckets) (report_counts records).

(** *** Vocabulary of the pipeline's properties *)

(** [value] with every double quote written twice. *)
Fixpoint doubled (value : string) : string :=
  match value with
  | EmptyString => EmptyString
  | String ch rest =>
      if Ascii.eqb ch dquote
      then String dquote (String dquote (doubled rest))
      else String ch (doubled rest)
  end.

(** A text without comma, quote and newline. *)
Definition plain (field : string) : Prop :=
  find_first_of field (String "," (String dquote (String newline "")))
  = None.

(** Where a CSV reader is: at the start of a field, in an unquoted field,
    inside quotes, or just after a quote met inside quotes. *)
Inductive csv_mode : Type :=
| at_start
| in_plain
| in_quoted
| after_quote.

(** A CSV reader: rows end at a newline and fields at a comma, both
    outside quotes; a field that starts with a quote runs to its closing
    quote, a doubled quote inside standing for one. [field] and [row]
    are the field and the row (last field first) read so far. *)
Fixpoint read_csv_from (text : string) (mode : csv_mode) (field : string)
  (row : list string) : list (list string) :=
  match text with
  | EmptyString =>
      match mode, row with
      | at_start, [] => []
      | _, _ => [rev (field :: row)]
      end
  | String ch text' =>
      match mode with
      | in_quoted =>
          if Ascii.eqb ch dquote
          then read_csv_from text' after_quote field row
          else read_csv_from text' in_quoted (push_back field ch) row
      | _ =>
          if Ascii.eqb ch ","
          then read_csv_from text' at_start "" (field :: row)
          else if Ascii.eqb ch newline
          then rev (field :: row) :: read_csv_from text' at_start "" []
          else if Ascii.eqb ch dquote then
            match mode with
            | at_start => read_csv_from text' in_quoted "" row
            | after_quote =>
                read_csv_from text' in_quoted (push_back field dquote) row
            | _ => read_csv_from text' in_plain (push_back field ch) row
            end
          else read_csv_from text' in_plain (push_back field ch) row
      end
  end.

Definition read_csv (text : string) : list (list string) :=
  read_csv_from text at_start "" [].

(** The six fields of a record as texts, an absent number as the empty
    text. *)
Definition record_fields {double : Type} (show : double -> string)
  (record : Record_ double) : list string :=
  let shown (field : option double) :=
    match field with
    | Some d => show d
    | None => ""
    end in
  [time_iso record; shown (magnitude record); place record;
   shown (longitude record); shown (latitude record);
   shown (depth_km record)].

(** A feature [parse_records] makes a record of: an object whose
    "properties" and "geometry" are objects and whose "time" property is
    a number. *)
Definition usable_feature {double : Type} (feature : JsonValue double)
  : bool :=
  match feature with
  | JObject feature_obj =>
      match get_object feature_obj "properties",
            get_object feature_obj "geometry" with
      | Some (JObject properties), Some (JObject _) =>
          match get_object properties "time" with
          | Some (JNumber _) => true
          | _ => false
          end
      | _, _ => false
      end
  | _ => false
  end.

(** The records whose magnitude is in the range of [bucket]. *)
Definition in_range (bucket : Bucket) (record : Record_ double64) : bool :=
  match magnitude record with
  | Some mag => in_bucket mag bucket
  | None => false
  end.

(** The records whose magnitude is from [lowest] up and below [infinity]:
    a magnitude, and neither a NaN nor an infinity. *)
Definition has_finite_magnitude (record : Record_ double64) : bool :=
  match magnitude record with
  | Some mag => double_ge mag lowest && double_lt mag infinity
  | None => false
  end.

(** No value is in two of the buckets. *)
Definition exclusive (buckets : list Bucket) : Prop :=
  ForallOrdPairs
    (fun b1 b2 => forall mag, in_bucket mag b1 = true ->
                              in_bucket mag b2 = false)
    buckets.

End pipeline.

(** * Properties *)

(** ** Strings and the key order *)

Lemma get_some_lt (s : string) (n : nat) (ch : ascii) :
  String.get n s = Some ch -> n < String.length s.
Proof.
  revert n; induction s as [|c s IH]; intros [|n] H; simpl in *;
    try discriminate; try lia.
  apply IH in H; lia.
Qed.

Lemma get_append_at (pre : string) (ch : ascii) (post : string) :
  String.get (String.length pre) (pre ++ String ch post) = Some ch.
Proof. induction pre as [|c pre IH]; simpl; auto. Qed.

Lemma length_append (s1 s2 : string) :
  String.length (s1 ++ s2) = String.length s1 + String.length s2.
Proof. induction s1 as [|c s1 IH]; simpl; auto. Qed.

Lemma append_assoc (s1 s2 s3 : string) : (s1 ++ s2) ++ s3 = s1 ++ s2 ++ s3.
Proof. induction s1 as [|c s1 IH]; simpl; congruence. Qed.

Lemma append_nil_r (s : string) : s ++ EmptyString = s.
Proof. induction s as [|c s IH]; simpl; congruence. Qed.

Lemma substring_length_le (s : string) (n m : nat) :
  n <= String.length s ->
  String.length (substring n m s) = m -> n + m <= String.length s.
Proof.
  revert n m; induction s as [|c s IH]; intros n m Hn H.
  - destruct n, m; simpl in *; try discriminate; lia.
  - destruct n as [|n].
    + destruct m as [|m]; simpl in *; [lia|].
      specialize (IH 0 m). lia.
    + simpl in *. specialize (IH n m). lia.
Qed.

Lemma code_inj (c1 c2 : ascii) : code c1 = code c2 -> c1 = c2.
Proof.
  unfold code; intros H.
  rewrite <- (ascii_N_embedding c1), <- (ascii_N_embedding c2).
  now rewrite H.
Qed.

Lemma compare_lt_lex (s1 s2 : string) :
  String.compare s1 s2 = Lt <-> lex_lt s1 s2.
Proof.
  split.
  - revert s2; induction s1 as [|c1 s1 IH]; intros [|c2 s2] H; simpl in H;
      try discriminate.
    + constructor.
    + unfold Ascii.compare in H.
      destruct (N.compare_spec (N_of_ascii c1) (N_of_ascii c2)) as [E|L|G];
        try discriminate.
      * apply code_inj in E; subst c2. apply lex_lt_tail; auto.
      * now apply lex_lt_head.
  - induction 1 as [c s|c1 c2 s1 s2 L|c s1 s2 L IH]; simpl; auto.
    + unfold Ascii.compare, code in *.
      now apply N.compare_lt_iff in L as ->.
    + unfold Ascii.compare. now rewrite N.compare_refl.
Qed.

Lemma compare_gt_lex (s1 s2 : string) :
  String.compare s1 s2 = Gt <-> lex_lt s2 s1.
Proof.
  rewrite <- compare_lt_lex, (String.compare_antisym s2 s1).
  destruct (String.compare s1 s2); simpl; split; congruence.
Qed.

Lemma compare_refl (s : string) : String.compare s s = Eq.
Proof.
  induction s as [|c s IH]; simpl; auto.
  unfold Ascii.compare; now rewrite N.compare_refl.
Qed.

Lemma lex_lt_irrefl (s : string) : ~ lex_lt s s.
Proof.
  intros H; apply compare_lt_lex in H.
  rewrite compare_refl in H; discriminate.
Qed.

Lemma lex_lt_trans (s1 s2 s3 : string) :
  lex_lt s1 s2 -> lex_lt s2 s3 -> lex_lt s1 s3.
Proof.
  intros H; revert s3.
  induction H as [c s|c1 c2 s1 s2 L|c s1 s2 L IH]; intros s3 H3;
    inversion H3; subst.
  - constructor.
  - constructor.
  - apply lex_lt_head; lia.
  - now apply lex_lt_head.
  - now apply lex_lt_head.
  - apply lex_lt_tail; auto.
Qed.

(** ** The ordered map *)

Section MapFacts.

Context {double : Type}.

Implicit Types (object : JsonObject double) (value v : JsonValue double).

Lemma compare_cases (k key : string) :
  (String.compare k key = Lt /\ lex_lt k key) \/
  (String.compare k key = Eq /\ k = key) \/
  (String.compare k key = Gt /\ lex_lt key k).
Proof.
  destruct (String.compare k key) eqn:E.
  - right; left; split; auto. now apply String.compare_eq_iff.
  - left; split; auto. now apply compare_lt_lex.
  - right; right; split; auto. now apply compare_gt_lex.
Qed.

Lemma keys_ascending_cons (k : string) v object :
  keys_ascending ((k, v) :: object) <->
  keys_ascending object /\ Forall (lex_lt k) (map fst object).
Proof.
  unfold keys_ascending; simpl; split.
  - intros H; now apply StronglySorted_inv in H.
  - intros [H1 H2]; now constructor.
Qed.

Lemma map_find_in object (key : string) v :
  keys_ascending object ->
  (map_find object key = Some v <-> In (key, v) object).
Proof.
  induction object as [|[k x] object IH]; simpl; intros S.
  - split; [discriminate | tauto].
  - apply keys_ascending_cons in S as [S F].
    rewrite Forall_forall in F.
    destruct (compare_cases k key) as [[E L]|[[E ->]|[E L]]]; rewrite E.
    + rewrite (IH S). split; auto.
      intros [H|H]; auto. injection H as -> ->.
      now apply lex_lt_irrefl in L.
    + split.
      * intros H; injection H as ->; auto.
      * intros [H|H]; [congruence|].
        apply (in_map fst) in H; apply F in H.
        now apply lex_lt_irrefl in H.
    + split; [discriminate|].
      intros [H|H].
      * injection H as -> ->. now apply lex_lt_irrefl in L.
      * apply (in_map fst) in H; apply F in H; simpl in H.
        exfalso; exact (lex_lt_irrefl _ (lex_lt_trans _ _ _ L H)).
Qed.

Lemma map_find_none object (key : string) :
  keys_ascending object ->
  (map_find object key = None <-> ~ In key (map fst object)).
Proof.
  intros S; split.
  - intros H I. apply in_map_iff in I as [[k v] [E I]]; simpl in E; subst k.
    apply (map_find_in _ _ _ S) in I. congruence.
  - intros H. destruct (map_find object key) as [v|] eqn:E; auto.
    apply (map_find_in _ _ _ S) in E.
    exfalso; apply H. now apply (in_map fst) in E.
Qed.

Lemma map_emplace_keys (key : string) value object (k : string) :
  In k (map fst (map_emplace key value object)) <->
  k = key \/ In k (map fst object).
Proof.
  induction object as [|[k0 x] object IH]; simpl.
  - intuition.
  - destruct (compare_cases k0 key) as [[E L]|[[E ->]|[E L]]]; rewrite E;
      simpl; rewrite ?IH; intuition.
Qed.

Lemma map_emplace_ascending (key : string) value object :
  keys_ascending object -> keys_ascending (map_emplace key value object).
Proof.
  induction object as [|[k x] object IH]; simpl; intros S.
  - repeat constructor.
  - destruct (compare_cases k key) as [[E L]|[[E ->]|[E L]]]; rewrite E;
      auto.
    + apply keys_ascending_cons in S as [S F].
      apply keys_ascending_cons; split; auto.
      rewrite Forall_forall in *; intros k' I.
      apply map_emplace_keys in I as [->|I]; auto.
    + apply keys_ascending_cons; split; auto.
      apply keys_ascending_cons in S as [S F].
      constructor; auto.
      rewrite Forall_forall in *; intros k' I.
      eapply lex_lt_trans; eauto.
Qed.

Lemma map_emplace_present (key : string) value object v :
  map_find object key = Some v -> map_emplace key value object = object.
Proof.
  induction object as [|[k x] object IH]; simpl; [discriminate|].
  destruct (String.compare k key); auto; [|discriminate].
  intros H; now rewrite IH.
Qed.

Lemma map_find_emplace_same (key : string) value object :
  map_find object key = None ->
  map_find (map_emplace key value object) key = Some value.
Proof.
  induction object as [|[k x] object IH]; simpl.
  - now rewrite compare_refl.
  - destruct (String.compare k key) eqn:E; try discriminate; simpl.
    + rewrite E; auto.
    + now rewrite compare_refl.
Qed.

Lemma map_find_emplace_other (key : string) value object (k : string) :
  k <> key -> map_find (map_emplace key value object) k = map_find object k.
Proof.
  intros N; induction object as [|[k0 x] object IH]; simpl.
  - destruct (compare_cases key k) as [[E L]|[[E ->]|[E L]]]; rewrite E;
      congruence.
  - destruct (compare_cases k0 key) as [[E L]|[[E ->]|[E L]]]; rewrite E;
      simpl; auto.
    + now rewrite IH.
    + destruct (compare_cases key k) as [[E1 L1]|[[E1 ->]|[E1 L1]]];
        rewrite E1; try congruence.
      apply (lex_lt_trans _ _ _ L1), compare_gt_lex in L. now rewrite L.
Qed.

Lemma map_find_emplace_all (members : list (string * JsonValue double))
  object (key : string) :
  map_find (emplace_all members object) key =
  match map_find object key with
  | Some v => Some v
  | None => first_binding members key
  end.
Proof.
  revert object; induction members as [|[k x] members IH]; intros object;
    simpl.
  - now destruct (map_find object key).
  - unfold emplace_all in *; simpl. rewrite IH.
    destruct (String.eqb_spec k key) as [->|N].
    + destruct (map_find object key) as [v|] eqn:E.
      * now rewrite (map_emplace_present _ _ _ _ E), E.
      * now rewrite map_find_emplace_same.
    + rewrite map_find_emplace_other by congruence.
      reflexivity.
Qed.

End MapFacts.

(** ** Running the cursor primitives *)

Lemma bind_ret {A B : Type} (a : A) (f : A -> M B) (pos : nat) :
  bind (ret a) f pos = f a pos.
Proof. reflexivity. Qed.

Lemma bind_throw {A B : Type} (e : exception) (f : A -> M B) (pos : nat) :
  bind (throw e) f pos = Throw e.
Proof. reflexivity. Qed.

Lemma bind_get_pos {B : Type} (f : nat -> M B) (pos : nat) :
  bind get_pos f pos = f pos pos.
Proof. reflexivity. Qed.

Lemma bind_lift_ok {A B : Type} (a : A) (f : A -> M B) (pos : nat) :
  bind (lift (Ok a)) f pos = f a pos.
Proof. reflexivity. Qed.

Lemma bind_bind {A B C : Type} (m : M A) (f : A -> M B) (g : B -> M C)
  (pos : nat) :
  bind (bind m f) g pos = bind m (fun a => bind (f a) g) pos.
Proof. unfold bind; destruct (m pos) as [[a p]|e|]; reflexivity. Qed.

Lemma bind_ok {A B : Type} (m : M A) (f : A -> M B) (pos : nat) (a : A)
  (pos' : nat) :
  m pos = Ok (a, pos') -> bind m f pos = f a pos'.
Proof. unfold bind; now intros ->. Qed.

Lemma bind_ok_inv {A B : Type} (m : M A) (f : A -> M B) (pos : nat) (b : B)
  (pos'' : nat) :
  bind m f pos = Ok (b, pos'') ->
  exists a pos', m pos = Ok (a, pos') /\ f a pos' = Ok (b, pos'').
Proof.
  unfold bind; destruct (m pos) as [[a p]|e|]; try discriminate.
  intros H; now exists a, p.
Qed.

Section Cursor.

Variable input_ : string.

#[local] Abbreviation size := (size input_).
#[local] Abbreviation char_at := (char_at input_).
#[local] Abbreviation eof := (eof input_).
#[local] Abbreviation peek := (peek input_).
#[local] Abbreviation advance := (advance input_).
#[local] Abbreviation expect_char := (expect_char input_).
#[local] Abbreviation not_eof_and := (not_eof_and input_).
#[local] Abbreviation while_advance := (while_advance input_).
#[local] Abbreviation skip_whitespace := (skip_whitespace input_).
#[local] Abbreviation match_ := (match_ input_).
#[local] Abbreviation expect := (expect input_).
#[local] Abbreviation lands := (lands input_).

Lemma bind_eof {B : Type} (f : bool -> M B) (pos : nat) :
  bind eof f pos = f (size <=? pos) pos.
Proof. reflexivity. Qed.

Lemma peek_eq (pos : nat) :
  peek pos =
  if size <=? pos then Throw end_of_input else Ok (char_at pos, pos).
Proof. unfold simplejson.peek; rewrite bind_eof; now destruct (size <=? pos). Qed.

Lemma advance_eq (pos : nat) :
  advance pos =
  if size <=? pos then Throw end_of_input else Ok (char_at pos, S pos).
Proof.
  unfold simplejson.advance; rewrite bind_eof; now destruct (size <=? pos).
Qed.

Lemma bind_peek {B : Type} (f : ascii -> M B) (pos : nat) :
  bind peek f pos =
  if size <=? pos then Throw end_of_input else f (char_at pos) pos.
Proof. unfold bind at 1; rewrite peek_eq; now destruct (size <=? pos). Qed.

Lemma bind_advance {B : Type} (f : ascii -> M B) (pos : nat) :
  bind advance f pos =
  if size <=? pos then Throw end_of_input else f (char_at pos) (S pos).
Proof. unfold bind at 1; rewrite advance_eq; now destruct (size <=? pos). Qed.

Lemma expect_char_eq (expected : ascii) (pos : nat) :
  expect_char expected pos =
  if (size <=? pos) || negb (Ascii.eqb (char_at pos) expected)
  then Throw (ParseError (push_back "Expected '" expected ++ "'"))
  else Ok (tt, S pos).
Proof.
  unfold simplejson.expect_char; rewrite bind_eof.
  destruct (size <=? pos) eqn:E; simpl; auto.
  rewrite bind_advance, E. now destruct (Ascii.eqb (char_at pos) expected).
Qed.

Lemma not_eof_and_eq (p : ascii -> bool) (pos : nat) :
  not_eof_and p pos = Ok (negb (size <=? pos) && p (char_at pos), pos).
Proof.
  unfold simplejson.not_eof_and; rewrite bind_eof.
  destruct (size <=? pos) eqn:E; simpl; auto.
  now rewrite bind_peek, E.
Qed.

Lemma bind_not_eof_and {B : Type} (p : ascii -> bool) (f : bool -> M B)
  (pos : nat) :
  bind (not_eof_and p) f pos
  = f (negb (size <=? pos) && p (char_at pos)) pos.
Proof. unfold bind at 1; now rewrite not_eof_and_eq. Qed.

Lemma while_advance_eq (p : ascii -> bool) (n : nat) (pos : nat) :
  while_advance p n pos =
  if negb (size <=? pos) && p (char_at pos) then
    match n with
    | 0 => OutOfFuel
    | S n' => while_advance p n' (S pos)
    end
  else Ok (tt, pos).
Proof.
  destruct n; simpl; rewrite bind_not_eof_and;
    destruct (size <=? pos) eqn:E; simpl; auto;
    destruct (p (char_at pos)); auto.
  now rewrite bind_advance, E.
Qed.

(** The loop stops at the first position that is the end of the input or
    fails the test, whatever counter at least the remaining length it is
    given. *)
Lemma while_advance_spec (p : ascii -> bool) (n : nat) (pos : nat) :
  pos <= size -> size - pos <= n ->
  exists pos',
    while_advance p n pos = Ok (tt, pos') /\
    pos <= pos' /\ pos' <= size /\
    (forall i, pos <= i -> i < pos' -> p (char_at i) = true) /\
    (pos' < size -> p (char_at pos') = false).
Proof.
  revert pos; induction n as [|n IH]; intros pos Hp Hn;
    rewrite while_advance_eq.
  - replace (size <=? pos) with true by (symmetry; apply Nat.leb_le; lia).
    simpl. exists pos; repeat split; auto; lia.
  - destruct (size <=? pos) eqn:E; simpl.
    + apply Nat.leb_le in E. exists pos; repeat split; auto; lia.
    + apply Nat.leb_gt in E.
      destruct (p (char_at pos)) eqn:P.
      * destruct (IH (S pos)) as (pos' & H & L1 & L2 & A & Z); try lia.
        exists pos'; repeat split; auto; try lia.
        intros i Hi Hi'. destruct (Nat.eq_dec i pos) as [->|]; auto.
        apply A; lia.
      * exists pos; repeat split; auto; lia.
Qed.

Lemma lands_weaken {A : Type} (lo lo' : nat) (r : outcome (A * nat)) :
  lo' <= lo -> lands lo r -> lands lo' r.
Proof. destruct r as [[a p]|e|]; simpl; auto; lia. Qed.

Lemma lands_bind {A B : Type} (lo1 lo : nat) (m : M A) (f : A -> M B)
  (pos : nat) :
  lands lo1 (m pos) ->
  (forall a pos', m pos = Ok (a, pos') -> lo1 <= pos' -> pos' <= size ->
                  lands lo (f a pos')) ->
  lands lo (bind m f pos).
Proof.
  unfold bind; destruct (m pos) as [[a p]|e|]; simpl; auto.
  intros [H1 H2] H; now apply H.
Qed.

Lemma lands_while_advance (p : ascii -> bool) (pos : nat) :
  pos <= size -> lands pos (while_advance p size pos).
Proof.
  intros H. destruct (while_advance_spec p size pos) as (pos' & -> & ?);
    simpl; lia.
Qed.

Lemma lands_skip_whitespace (pos : nat) :
  pos <= size -> lands pos (skip_whitespace pos).
Proof. apply lands_while_advance. Qed.

Lemma skip_whitespace_ok (pos : nat) :
  pos <= size ->
  exists pos', skip_whitespace pos = Ok (tt, pos') /\
               pos <= pos' /\ pos' <= size.
Proof.
  intros H.
  destruct (while_advance_spec isspace size pos) as (pos' & E & ? & ? & _);
    try lia.
  now exists pos'.
Qed.

Lemma lands_match (text : string) (pos : nat) :
  pos <= size -> lands pos (match_ text pos).
Proof.
  intros H. unfold simplejson.match_, substr, lift.
  rewrite bind_get_pos.
  replace (simplejson.size input_ <? pos) with false
    by (symmetry; apply Nat.ltb_ge; lia).
  rewrite bind_ok with (a := substring pos (String.length text) input_)
                       (pos' := pos) by reflexivity.
  destruct (String.eqb_spec (substring pos (String.length text) input_) text)
    as [E|N]; simpl; [|lia].
  apply (f_equal String.length) in E.
  apply substring_length_le in E; auto. split; [lia|exact E].
Qed.

Lemma match_true (text : string) (pos pos' : nat) :
  pos <= size -> match_ text pos = Ok (true, pos') ->
  pos' = pos + String.length text /\ pos' <= size.
Proof.
  intros H. pose proof (lands_match text pos H) as L.
  unfold simplejson.match_, substr, lift in *.
  rewrite bind_get_pos in *.
  replace (simplejson.size input_ <? pos) with false in *
    by (symmetry; apply Nat.ltb_ge; lia).
  rewrite bind_ok with (a := substring pos (String.length text) input_)
                       (pos' := pos) in * by reflexivity.
  destruct (String.eqb (substring pos (String.length text) input_) text);
    simpl in *; intros E; inversion E; subst; lia.
Qed.

Lemma match_false (text : string) (pos pos' : nat) :
  match_ text pos = Ok (false, pos') -> pos' = pos.
Proof.
  unfold simplejson.match_, substr, lift. rewrite bind_get_pos.
  unfold bind. destruct (simplejson.size input_ <? pos); [discriminate|].
  destruct (String.eqb _ text); intros E; inversion E; auto.
Qed.

(** ** The lexical functions advance and stay inside the input *)

Section Lexical.

Context {double : Type}.
Variable stod : string -> option double.

#[local] Abbreviation parse_string := (@simplejson.parse_string double input_).
#[local] Abbreviation parse_string_loop :=
  (@simplejson.parse_string_loop double input_).
#[local] Abbreviation parse_number := (parse_number stod input_).

Lemma lands_unicode_digits (i : nat) (value : Z) (pos : nat) :
  pos <= size -> lands (pos + i) (unicode_digits input_ i value pos).
Proof.
  revert value pos; induction i as [|i IH]; intros value pos H; simpl.
  - lia.
  - rewrite bind_eof. destruct (size <=? pos) eqn:E; simpl; auto.
    apply Nat.leb_gt in E. rewrite bind_advance.
    replace (size <=? pos) with false by (symmetry; apply Nat.leb_gt; lia).
    repeat match goal with
           | |- context [if ?b then _ else _] => destruct b
           end; simpl; auto;
      (eapply lands_weaken; [|apply IH]; lia).
Qed.

Lemma lands_parse_unicode_escape (pos : nat) :
  pos <= size -> lands (pos + 4) (parse_unicode_escape input_ pos).
Proof.
  intros H. unfold parse_unicode_escape.
  eapply lands_bind; [apply lands_unicode_digits; auto|].
  intros v p _ L1 L2. destruct (v <=? 127)%Z; simpl; lia.
Qed.

Lemma lands_parse_string_loop (n : nat) (result : string) (pos : nat) :
  pos <= size -> size - pos <= n ->
  lands (pos + 1) (parse_string_loop n result pos).
Proof.
  revert result pos; induction n as [|n IH]; intros result pos H Hn; simpl;
    rewrite bind_eof; destruct (size <=? pos) eqn:E; simpl; auto.
  - apply Nat.leb_gt in E; lia.
  - rewrite bind_advance, E. apply Nat.leb_gt in E.
    destruct (Ascii.eqb (char_at pos) dquote); [simpl; lia|].
    destruct (Ascii.eqb (char_at pos) backslash).
    + rewrite bind_eof. destruct (size <=? S pos) eqn:E1; simpl; auto.
      rewrite bind_advance, E1. apply Nat.leb_gt in E1.
      apply lands_bind with (lo1 := S (S pos)).
      * repeat match goal with
               | |- context [if ?b then _ else _] => destruct b
               end; simpl; auto; try lia.
        eapply lands_bind.
        -- apply lands_parse_unicode_escape; lia.
        -- intros; simpl; lia.
      * intros r p _ L1 L2.
        eapply lands_weaken; [|apply IH]; lia.
    + destruct (code (char_at pos) <? 32)%N; simpl; auto.
      eapply lands_weaken; [|apply IH]; lia.
Qed.

Lemma lands_parse_string (pos : nat) :
  pos <= size -> lands (pos + 1) (parse_string pos).
Proof.
  intros H. unfold simplejson.parse_string.
  unfold bind at 1. rewrite expect_char_eq.
  destruct (size <=? pos) eqn:E; simpl; auto.
  destruct (Ascii.eqb (char_at pos) dquote); simpl; auto.
  apply Nat.leb_gt in E.
  eapply lands_weaken; [|apply lands_parse_string_loop]; lia.
Qed.

Lemma parse_string_returns_string (n : nat) (result : string) (pos : nat)
  (v : JsonValue double) (pos' : nat) :
  parse_string_loop n result pos = Ok (v, pos') -> exists s, v = JString s.
Proof.
  revert result pos; induction n as [|n IH]; intros result pos; simpl;
    rewrite bind_eof; destruct (size <=? pos) eqn:E; simpl;
    try discriminate.
  rewrite bind_advance, E.
  destruct (Ascii.eqb (char_at pos) dquote).
  { intros H; inversion H; eauto. }
  destruct (Ascii.eqb (char_at pos) backslash).
  - rewrite bind_eof. destruct (size <=? S pos) eqn:E1; simpl;
      try discriminate.
    rewrite bind_advance, E1.
    intros H; apply bind_ok_inv in H as (r & p & _ & H). eauto.
  - destruct (code (char_at pos) <? 32)%N; simpl; try discriminate.
    apply IH.
Qed.

Lemma lands_parse_null (pos : nat) :
  pos <= size -> lands (pos + 1) (@parse_null double input_ pos).
Proof.
  intros H. unfold parse_null, simplejson.expect. rewrite bind_bind.
  eapply lands_bind; [apply lands_match; auto|].
  intros [|] p E L1 L2; simpl; auto.
  apply match_true in E; auto. simpl in E; lia.
Qed.

Lemma lands_parse_bool (pos : nat) :
  pos <= size -> lands (pos + 1) (@parse_bool double input_ pos).
Proof.
  intros H. unfold parse_bool.
  eapply lands_bind; [apply lands_match; auto|].
  intros [|] p E L1 L2; simpl.
  - apply match_true in E; auto. simpl in E; lia.
  - apply match_false in E; subst p.
    eapply lands_bind; [apply lands_match; auto|].
    intros [|] p E L3 L4; simpl; auto.
    apply match_true in E; auto. simpl in E; lia.
Qed.

Lemma lands_advance_unit (pos : nat) :
  pos < size -> lands (pos + 1) ((advance ;;; ret tt) pos).
Proof.
  intros H. rewrite bind_advance.
  replace (size <=? pos) with false by (symmetry; apply Nat.leb_gt; lia).
  simpl; lia.
Qed.

Lemma lands_digits (pos : nat) :
  pos <= size -> lands pos (while_advance isdigit size pos).
Proof. apply lands_while_advance. Qed.

Lemma lands_digits_after (pos : nat) :
  pos <= size ->
  lands pos
    ((d <- not_eof_and isdigit ;;
      if negb d then throw (ParseError "Invalid number fraction")
      else while_advance isdigit size) pos).
Proof.
  intros H. rewrite bind_not_eof_and.
  destruct (negb (size <=? pos) && isdigit (char_at pos)); simpl; auto.
  now apply lands_digits.
Qed.

Lemma lands_parse_number (pos : nat) :
  pos <= size -> lands (pos + 1) (parse_number pos).
Proof.
  intros H. unfold simplejson.parse_number.
  rewrite bind_get_pos, bind_peek.
  destruct (size <=? pos) eqn:E; simpl; auto. apply Nat.leb_gt in E.
  apply lands_bind with (lo1 := pos).
  { destruct (Ascii.eqb (char_at pos) "-").
    - eapply lands_weaken; [|apply lands_advance_unit]; lia.
    - simpl; lia. }
  intros _ p1 _ L1 L2. rewrite bind_eof.
  destruct (size <=? p1) eqn:E1; simpl; auto.
  rewrite bind_peek, E1. apply Nat.leb_gt in E1.
  apply lands_bind with (lo1 := p1 + 1).
  { destruct (Ascii.eqb (char_at p1) "0").
    - now apply lands_advance_unit.
    - destruct (isdigit (char_at p1)) eqn:D; simpl; auto.
      destruct (while_advance_spec isdigit size p1)
        as (p & -> & G1 & G2 & _ & G3); try lia.
      simpl. split; auto.
      destruct (Nat.eq_dec p p1) as [->|]; [|lia].
      rewrite G3 in D by lia. discriminate. }
  intros _ p2 _ L3 L4. rewrite bind_not_eof_and.
  apply lands_bind with (lo1 := p2).
  { destruct (size <=? p2) eqn:E2; simpl; [lia|].
    apply Nat.leb_gt in E2.
    destruct (Ascii.eqb (char_at p2) "."); simpl; [|lia].
    rewrite bind_advance.
    replace (size <=? p2) with false by (symmetry; apply Nat.leb_gt; lia).
    rewrite bind_not_eof_and.
    destruct (negb (size <=? S p2) && isdigit (char_at (S p2))); simpl;
      auto.
    eapply lands_weaken; [|apply lands_digits]; lia. }
  intros _ p3 _ L5 L6. rewrite bind_not_eof_and.
  apply lands_bind with (lo1 := p3).
  { destruct (size <=? p3) eqn:E3; simpl; [lia|].
    apply Nat.leb_gt in E3.
    destruct (Ascii.eqb (char_at p3) "e" || Ascii.eqb (char_at p3) "E");
      simpl; [|lia].
    rewrite bind_advance.
    replace (size <=? p3) with false by (symmetry; apply Nat.leb_gt; lia).
    rewrite bind_not_eof_and.
    apply lands_bind with (lo1 := p3).
    { destruct (negb (size <=? S p3) && _) eqn:C; simpl; [|lia].
      apply andb_prop in C as [C _]. apply negb_true_iff, Nat.leb_gt in C.
      eapply lands_weaken; [|apply lands_advance_unit]; lia. }
    intros _ p4 _ L7 L8. rewrite bind_not_eof_and.
    destruct (negb (size <=? p4) && isdigit (char_at p4)); simpl; auto.
    eapply lands_weaken; [|apply lands_digits]; lia. }
  intros _ p4 _ L7 L8. rewrite bind_get_pos.
  unfold substr, lift, bind at 1.
  replace (size <? pos) with false by (symmetry; apply Nat.ltb_ge; lia).
  destruct (stod _); simpl; auto. lia.
Qed.

End Lexical.

(** ** The recursive functions advance and stay inside the input *)

Section Structural.

Context {double : Type}.
Variable stod : string -> option double.

#[local] Abbreviation parse_array_loop :=
  (@simplejson.parse_array_loop double input_).
#[local] Abbreviation parse_array := (@simplejson.parse_array double input_).
#[local] Abbreviation parse_object_loop :=
  (@simplejson.parse_object_loop double input_).
#[local] Abbreviation parse_object :=
  (@simplejson.parse_object double input_).
#[local] Abbreviation parse_value := (parse_value stod input_).

Lemma lands_separator {A : Type} (lo pos : nat) (close : ascii)
  (again : M A) (done : A) (e : exception) :
  pos <= size -> lo <= pos ->
  (forall p, pos + 1 <= p -> p <= size -> lands lo (again p)) ->
  lands lo
    ((skip_whitespace ;;;
      ch <- peek ;;
      if Ascii.eqb ch ","
      then advance ;;; skip_whitespace ;;; again
      else ch <- peek ;;
           if Ascii.eqb ch close then advance ;;; ret done
           else throw e) pos).
Proof.
  intros H Hlo Hagain.
  eapply lands_bind; [apply lands_skip_whitespace; auto|].
  intros _ p1 _ L1 L2. rewrite bind_peek.
  destruct (size <=? p1) eqn:E; simpl; auto.
  destruct (Ascii.eqb (char_at p1) ",").
  - rewrite bind_advance, E. apply Nat.leb_gt in E.
    eapply lands_bind; [apply lands_skip_whitespace; lia|].
    intros _ p2 _ L3 L4. apply Hagain; lia.
  - rewrite bind_peek, E.
    destruct (Ascii.eqb (char_at p1) close); simpl; auto.
    rewrite bind_advance, E. apply Nat.leb_gt in E. simpl; lia.
Qed.

Lemma lands_parse_array_loop (pv : M (JsonValue double)) (n : nat) :
  forall (array : JsonArray double) (pos : nat),
    pos <= size -> size - pos < n ->
    (forall p, pos <= p -> p <= size -> lands (p + 1) (pv p)) ->
    lands (pos + 1) (parse_array_loop pv n array pos).
Proof.
  induction n as [|n IH]; intros array pos H Hn Hpv; [lia|]. simpl.
  eapply lands_bind; [apply Hpv; auto|].
  intros v p1 _ L1 L2.
  apply lands_separator; try lia.
  intros p L3 L4. eapply lands_weaken; [|apply IH]; try lia.
  intros q Q1 Q2. apply Hpv; lia.
Qed.

Lemma lands_parse_array (pv : M (JsonValue double)) (n : nat) (pos : nat) :
  pos <= size -> size - pos <= n ->
  (forall p, pos < p -> p <= size -> lands (p + 1) (pv p)) ->
  lands (pos + 1) (parse_array pv n pos).
Proof.
  intros H Hn Hpv. unfold simplejson.parse_array.
  unfold bind at 1. rewrite expect_char_eq.
  destruct (size <=? pos) eqn:E; simpl; auto. apply Nat.leb_gt in E.
  destruct (Ascii.eqb (char_at pos) "["); simpl; auto.
  eapply lands_bind; [apply lands_skip_whitespace; lia|].
  intros _ p1 _ L1 L2. rewrite bind_peek.
  destruct (size <=? p1) eqn:E1; simpl; auto.
  destruct (Ascii.eqb (char_at p1) "]").
  - rewrite bind_advance, E1. apply Nat.leb_gt in E1. simpl; lia.
  - eapply lands_weaken; [|apply lands_parse_array_loop]; try lia.
    intros q Q1 Q2. apply Hpv; lia.
Qed.

Lemma lands_parse_object_loop (pv : M (JsonValue double)) (n : nat) :
  forall (object : JsonObject double) (pos : nat),
    pos <= size -> size - pos < n ->
    (forall p, pos <= p -> p <= size -> lands (p + 1) (pv p)) ->
    lands (pos + 1) (parse_object_loop pv n object pos).
Proof.
  induction n as [|n IH]; intros object pos H Hn Hpv; [lia|]. simpl.
  rewrite bind_peek. destruct (size <=? pos) eqn:E; simpl; auto.
  destruct (negb (Ascii.eqb (char_at pos) dquote)); simpl; auto.
  eapply lands_bind; [apply lands_parse_string; auto|].
  intros s p1 _ L1 L2.
  eapply lands_bind with (lo1 := p1).
  { destruct s; simpl; auto; lia. }
  intros key p1' Ekey _ _.
  assert (p1' = p1) as ->.
  { unfold lift in Ekey. destruct (as_string s); now inversion Ekey. }
  eapply lands_bind; [apply lands_skip_whitespace; auto|].
  intros _ p2 _ L3 L4.
  unfold bind at 1. rewrite expect_char_eq.
  destruct (size <=? p2) eqn:E2; simpl; auto. apply Nat.leb_gt in E2.
  destruct (Ascii.eqb (char_at p2) ":"); simpl; auto.
  eapply lands_bind; [apply lands_skip_whitespace; lia|].
  intros _ p3 _ L5 L6.
  eapply lands_bind; [apply Hpv; lia|].
  intros v p4 _ L7 L8.
  apply lands_separator; try lia.
  intros p L9 L10. eapply lands_weaken; [|apply IH]; try lia.
  intros q Q1 Q2. apply Hpv; lia.
Qed.

Lemma lands_parse_object (pv : M (JsonValue double)) (n : nat) (pos : nat) :
  pos <= size -> size - pos <= n ->
  (forall p, pos < p -> p <= size -> lands (p + 1) (pv p)) ->
  lands (pos + 1) (parse_object pv n pos).
Proof.
  intros H Hn Hpv. unfold simplejson.parse_object.
  unfold bind at 1. rewrite expect_char_eq.
  destruct (size <=? pos) eqn:E; simpl; auto. apply Nat.leb_gt in E.
  destruct (Ascii.eqb (char_at pos) "{"); simpl; auto.
  eapply lands_bind; [apply lands_skip_whitespace; lia|].
  intros _ p1 _ L1 L2. rewrite bind_peek.
  destruct (size <=? p1) eqn:E1; simpl; auto.
  destruct (Ascii.eqb (char_at p1) "}").
  - rewrite bind_advance, E1. apply Nat.leb_gt in E1. simpl; lia.
  - eapply lands_weaken; [|apply lands_parse_object_loop]; try lia.
    intros q Q1 Q2. apply Hpv; lia.
Qed.

Lemma lands_parse_value (fuel : nat) :
  forall pos, pos <= size -> size - pos < fuel ->
              lands (pos + 1) (parse_value fuel pos).
Proof.
  induction fuel as [|fuel IH]; intros pos H Hf; [lia|]. simpl.
  rewrite bind_eof. destruct (size <=? pos) eqn:E; simpl; auto.
  rewrite bind_peek, E. apply Nat.leb_gt in E.
  destruct (Ascii.eqb (char_at pos) "n"); [now apply lands_parse_null|].
  destruct (_ || _); [now apply lands_parse_bool|].
  destruct (Ascii.eqb (char_at pos) dquote); [now apply lands_parse_string|].
  destruct (Ascii.eqb (char_at pos) "[").
  { apply lands_parse_array; auto; try lia. intros; apply IH; lia. }
  destruct (Ascii.eqb (char_at pos) "{").
  { apply lands_parse_object; auto; try lia. intros; apply IH; lia. }
  destruct (_ || _); [now apply lands_parse_number|].
  simpl; auto.
Qed.

(** ** Independence of the counter and of unused conversions *)

Section Refinement.

Variable k : outcome unit.
Hypothesis k_failure : k <> Ok tt.

Lemma refines_refl {A : Type} (m : M A) : refines k m m.
Proof. now intros pos _. Qed.

Lemma refines_bind {A B : Type} (m m' : M A) (f f' : A -> M B) :
  refines k m m' -> (forall a, refines k (f a) (f' a)) ->
  refines k (bind m f) (bind m' f').
Proof.
  intros Hm Hf pos H. unfold bind in *.
  rewrite Hm by (destruct (m pos) as [[a p]|e|]; simpl; auto).
  destruct (m pos) as [[a p]|e|]; auto. now apply Hf.
Qed.

Lemma refines_counter {A : Type} (m : M A) (n n' : nat) :
  (n < n' -> k = OutOfFuel) -> n <= n' ->
  n = 0 -> refines k out_of_fuel m \/ n' = 0.
Proof.
  intros Hk Hn ->. destruct n' as [|n']; auto.
  left; intros pos H. exfalso; apply H. rewrite Hk by lia. reflexivity.
Qed.

Lemma refines_separator {A : Type} (close : ascii) (again again' : M A)
  (done : A) (e : exception) :
  refines k again again' ->
  refines k
    (skip_whitespace ;;;
     ch <- peek ;;
     if Ascii.eqb ch ","
     then advance ;;; skip_whitespace ;;; again
     else ch <- peek ;;
          if Ascii.eqb ch close then advance ;;; ret done
          else throw e)
    (skip_whitespace ;;;
     ch <- peek ;;
     if Ascii.eqb ch ","
     then advance ;;; skip_whitespace ;;; again'
     else ch <- peek ;;
          if Ascii.eqb ch close then advance ;;; ret done
          else throw e).
Proof.
  intros H.
  apply refines_bind; [apply refines_refl|]; intros _.
  apply refines_bind; [apply refines_refl|]; intros ch.
  destruct (Ascii.eqb ch ","); [|apply refines_refl].
  apply refines_bind; [apply refines_refl|]; intros _.
  apply refines_bind; [apply refines_refl|]; intros _.
  exact H.
Qed.

Lemma refines_parse_array_loop (pv pv' : M (JsonValue double)) (n : nat) :
  refines k pv pv' ->
  forall n' array, n <= n' -> (n < n' -> k = OutOfFuel) ->
    refines k (parse_array_loop pv n array) (parse_array_loop pv' n' array).
Proof.
  intros Hpv; induction n as [|n IH]; intros n' array Hn Hk.
  - destruct (refines_counter (parse_array_loop pv' n' array) 0 n')
      as [H| ->]; auto. apply refines_refl.
  - destruct n' as [|n']; [lia|]. simpl.
    apply refines_bind; auto; intros v.
    apply refines_separator, IH; try lia. intros; apply Hk; lia.
Qed.

Lemma refines_parse_object_loop (pv pv' : M (JsonValue double)) (n : nat) :
  refines k pv pv' ->
  forall n' object, n <= n' -> (n < n' -> k = OutOfFuel) ->
    refines k (parse_object_loop pv n object)
              (parse_object_loop pv' n' object).
Proof.
  intros Hpv; induction n as [|n IH]; intros n' object Hn Hk.
  - destruct (refines_counter (parse_object_loop pv' n' object) 0 n')
      as [H| ->]; auto. apply refines_refl.
  - destruct n' as [|n']; [lia|]. simpl.
    apply refines_bind; [apply refines_refl|]; intros ch.
    destruct (negb _); [apply refines_refl|].
    apply refines_bind; [apply refines_refl|]; intros s.
    apply refines_bind; [apply refines_refl|]; intros key.
    apply refines_bind; [apply refines_refl|]; intros _.
    apply refines_bind; [apply refines_refl|]; intros _.
    apply refines_bind; [apply refines_refl|]; intros _.
    apply refines_bind; auto; intros v.
    apply refines_separator, IH; try lia. intros; apply Hk; lia.
Qed.

Variable stod' : string -> option double.

Hypothesis refines_number :
  refines k (parse_number stod input_) (simplejson.parse_number stod' input_).

Lemma refines_parse_value (fuel : nat) :
  forall fuel', fuel <= fuel' -> (fuel < fuel' -> k = OutOfFuel) ->
    refines k (parse_value fuel) (simplejson.parse_value stod' input_ fuel').
Proof.
  induction fuel as [|fuel IH]; intros fuel' Hf Hk.
  - destruct (refines_counter
                (simplejson.parse_value stod' input_ fuel') 0 fuel')
      as [H| ->]; auto. apply refines_refl.
  - destruct fuel' as [|fuel']; [lia|]. simpl.
    assert (fuel < fuel' -> k = OutOfFuel) as Hk' by (intros; apply Hk; lia).
    apply refines_bind; [apply refines_refl|]; intros e.
    destruct e; [apply refines_refl|].
    apply refines_bind; [apply refines_refl|]; intros ch.
    destruct (Ascii.eqb ch "n"); [apply refines_refl|].
    destruct (_ || _); [apply refines_refl|].
    destruct (Ascii.eqb ch dquote); [apply refines_refl|].
    destruct (Ascii.eqb ch "[").
    { unfold simplejson.parse_array.
      apply refines_bind; [apply refines_refl|]; intros _.
      apply refines_bind; [apply refines_refl|]; intros _.
      apply refines_bind; [apply refines_refl|]; intros c.
      destruct (Ascii.eqb c "]"); [apply refines_refl|].
      apply refines_parse_array_loop; auto; try lia. apply IH; auto; lia. }
    destruct (Ascii.eqb ch "{").
    { unfold simplejson.parse_object.
      apply refines_bind; [apply refines_refl|]; intros _.
      apply refines_bind; [apply refines_refl|]; intros _.
      apply refines_bind; [apply refines_refl|]; intros c.
      destruct (Ascii.eqb c "}"); [apply refines_refl|].
      apply refines_parse_object_loop; auto; try lia. apply IH; auto; lia. }
    destruct (_ || _); [apply refines_number | apply refines_refl].
Qed.

Lemma refines_Parser_parse (fuel fuel' : nat) :
  fuel <= fuel' -> (fuel < fuel' -> k = OutOfFuel) ->
  refines k (Parser_parse stod input_ fuel)
            (Parser_parse stod' input_ fuel').
Proof.
  intros Hf Hk. unfold Parser_parse.
  apply refines_bind; [apply refines_refl|]; intros _.
  apply refines_bind; [now apply refines_parse_value|]; intros v.
  apply refines_refl.
Qed.

End Refinement.

(** ** Every object the parser builds has ascending keys *)

Lemma yields_bind {A B : Type} (Q : A -> Prop) (P : B -> Prop) (m : M A)
  (f : A -> M B) :
  yields Q m -> (forall a, Q a -> yields P (f a)) -> yields P (bind m f).
Proof.
  intros Hm Hf pos b pos' H.
  apply bind_ok_inv in H as (a & p & H1 & H2).
  eapply Hf; eauto.
Qed.

Lemma yields_any {A B : Type} (P : B -> Prop) (m : M A) (f : A -> M B) :
  (forall a, yields P (f a)) -> yields P (bind m f).
Proof.
  intros Hf. apply yields_bind with (Q := fun _ => True); auto.
  now intros pos a pos' _.
Qed.

Lemma yields_ret {A : Type} (P : A -> Prop) (a : A) :
  P a -> yields P (ret a).
Proof. intros H pos b pos' E; inversion E; now subst. Qed.

Lemma yields_throw {A : Type} (P : A -> Prop) (e : exception) :
  yields P (throw e).
Proof. intros pos b pos' E; discriminate. Qed.

Lemma yields_out_of_fuel {A : Type} (P : A -> Prop) :
  yields P out_of_fuel.
Proof. intros pos b pos' E; discriminate. Qed.

Lemma objects_ordered_array (array : JsonArray double) :
  objects_ordered (JArray array) <-> Forall objects_ordered array.
Proof.
  induction array as [|x array IH]; simpl.
  - split; auto.
  - simpl in IH. rewrite IH. split.
    + intros [H1 H2]; now constructor.
    + intros H; inversion H; auto.
Qed.

Lemma objects_ordered_object (object : JsonObject double) :
  objects_ordered (JObject object) <->
  keys_ascending object /\
  Forall (fun kv => objects_ordered (snd kv)) object.
Proof.
  simpl. apply and_iff_compat_l.
  induction object as [|[k x] object IH]; simpl.
  - split; auto.
  - rewrite IH. split.
    + intros [H1 H2]; now constructor.
    + intros H; inversion H; auto.
Qed.

Lemma map_emplace_forall (Q : string * JsonValue double -> Prop)
  (key : string) (value : JsonValue double) (object : JsonObject double) :
  Q (key, value) -> Forall Q object ->
  Forall Q (map_emplace key value object).
Proof.
  intros Hq; induction object as [|[k x] object IH]; simpl; intros H.
  - now constructor.
  - inversion H; subst. destruct (String.compare k key); auto.
Qed.

Lemma yields_separator {A : Type} (P : A -> Prop) (close : ascii)
  (again : M A) (done : A) (e : exception) :
  yields P again -> P done ->
  yields P
    (skip_whitespace ;;;
     ch <- peek ;;
     if Ascii.eqb ch ","
     then advance ;;; skip_whitespace ;;; again
     else ch <- peek ;;
          if Ascii.eqb ch close then advance ;;; ret done
          else throw e).
Proof.
  intros H1 H2.
  apply yields_any; intros _. apply yields_any; intros ch.
  destruct (Ascii.eqb ch ",").
  - apply yields_any; intros _. now apply yields_any.
  - apply yields_any; intros c. destruct (Ascii.eqb c close).
    + apply yields_any; intros _. now apply yields_ret.
    + apply yields_throw.
Qed.

Lemma ordered_parse_array_loop (pv : M (JsonValue double)) (n : nat) :
  yields objects_ordered pv ->
  forall array, Forall objects_ordered array ->
                yields objects_ordered (parse_array_loop pv n array).
Proof.
  intros Hpv; induction n as [|n IH]; intros array Ha;
    [apply yields_out_of_fuel|]. simpl.
  eapply yields_bind; [exact Hpv|]. intros v Hv.
  assert (Forall objects_ordered (array ++ [v])%list) as Ha'.
  { apply Forall_app; split; auto. }
  apply yields_separator; auto.
  now apply objects_ordered_array.
Qed.

Lemma ordered_parse_object_loop (pv : M (JsonValue double)) (n : nat) :
  yields objects_ordered pv ->
  forall object, objects_ordered (JObject object) ->
                 yields objects_ordered (parse_object_loop pv n object).
Proof.
  intros Hpv; induction n as [|n IH]; intros object Ho;
    [apply yields_out_of_fuel|]. simpl.
  apply yields_any; intros ch.
  destruct (negb _); [apply yields_throw|].
  apply yields_any; intros s. apply yields_any; intros key.
  apply yields_any; intros _. apply yields_any; intros _.
  apply yields_any; intros _.
  eapply yields_bind; [exact Hpv|]. intros v Hv.
  assert (objects_ordered (JObject (map_emplace key v object))) as Ho'.
  { apply objects_ordered_object in Ho as [S F].
    apply objects_ordered_object; split.
    - now apply map_emplace_ascending.
    - now apply map_emplace_forall. }
  apply yields_separator; auto.
Qed.

Lemma ordered_parse_string :
  yields objects_ordered (@parse_string double input_).
Proof.
  unfold simplejson.parse_string. apply yields_any; intros _.
  intros pos v pos' H.
  apply parse_string_returns_string in H as [s ->]. exact I.
Qed.

Lemma ordered_parse_number : yields objects_ordered (parse_number stod input_).
Proof.
  unfold simplejson.parse_number.
  apply yields_any; intros start. apply yields_any; intros ch.
  apply yields_any; intros _. apply yields_any; intros e.
  destruct e; [apply yields_throw|].
  do 8 (apply yields_any; intros ?).
  destruct (stod _); [now apply yields_ret | apply yields_throw].
Qed.

Lemma ordered_parse_value (fuel : nat) :
  yields objects_ordered (parse_value fuel).
Proof.
  induction fuel as [|fuel IH]; [apply yields_out_of_fuel|]. simpl.
  apply yields_any; intros e. destruct e; [apply yields_throw|].
  apply yields_any; intros ch.
  destruct (Ascii.eqb ch "n").
  { unfold parse_null. apply yields_any; intros _. now apply yields_ret. }
  destruct (_ || _).
  { unfold parse_bool. apply yields_any; intros [|];
      [now apply yields_ret|].
    apply yields_any; intros [|]; [now apply yields_ret|].
    apply yields_throw. }
  destruct (Ascii.eqb ch dquote); [apply ordered_parse_string|].
  destruct (Ascii.eqb ch "[").
  { unfold simplejson.parse_array.
    apply yields_any; intros _. apply yields_any; intros _.
    apply yields_any; intros c. destruct (Ascii.eqb c "]").
    - apply yields_any; intros _. now apply yields_ret.
    - now apply ordered_parse_array_loop. }
  destruct (Ascii.eqb ch "{").
  { unfold simplejson.parse_object.
    apply yields_any; intros _. apply yields_any; intros _.
    apply yields_any; intros c. destruct (Ascii.eqb c "}").
    - apply yields_any; intros _. apply yields_ret.
      apply objects_ordered_object; split; constructor.
    - apply ordered_parse_object_loop; auto.
      apply objects_ordered_object; split; constructor. }
  destruct (_ || _); [apply ordered_parse_number | apply yields_throw].
Qed.

(** ** The pairs an object literal is built from *)

#[local] Abbreviation member_at := (@simplejson.member_at double input_).
#[local] Abbreviation object_members :=
  (@simplejson.object_members double input_).
#[local] Abbreviation object_literal :=
  (@simplejson.object_literal double input_).

Lemma peek_ok (pos : nat) (ch : ascii) (pos' : nat) :
  peek pos = Ok (ch, pos') <->
  pos < size /\ ch = char_at pos /\ pos' = pos.
Proof.
  rewrite peek_eq. destruct (size <=? pos) eqn:E.
  - apply Nat.leb_le in E. split; [discriminate|lia].
  - apply Nat.leb_gt in E. split.
    + intros H; inversion H; subst; auto.
    + intros (_ & -> & ->); auto.
Qed.

Lemma lift_as_string_ok (v : JsonValue double) (pos : nat) (key : string)
  (pos' : nat) :
  lift (as_string v) pos = Ok (key, pos') <-> v = JString key /\ pos' = pos.
Proof.
  destruct v; simpl; split; try discriminate; try (intros [H _]; discriminate).
  - intros H; inversion H; auto.
  - intros [H ->]; now inversion H.
Qed.

Lemma parse_object_loop_members (pv : M (JsonValue double)) (n : nat) :
  forall (object : JsonObject double) (pos : nat) (v : JsonValue double)
         (pos' : nat),
    parse_object_loop pv n object pos = Ok (v, pos') ->
    exists members,
      object_members pv pos members pos' /\
      v = JObject (emplace_all members object).
Proof.
  induction n as [|n IH]; intros object pos v pos' H; [discriminate|].
  simpl in H. rewrite bind_peek in H.
  destruct (size <=? pos) eqn:E; [discriminate|].
  destruct (negb _); [discriminate|].
  apply bind_ok_inv in H as (s & p1 & H1 & H).
  apply bind_ok_inv in H as (key & p1' & Hk & H).
  apply lift_as_string_ok in Hk as [-> ->].
  apply bind_ok_inv in H as ([] & p2 & H2 & H).
  apply bind_ok_inv in H as ([] & p3 & H3 & H).
  apply bind_ok_inv in H as ([] & p4 & H4 & H).
  apply bind_ok_inv in H as (value & p5 & H5 & H).
  apply bind_ok_inv in H as ([] & p6 & H6 & H).
  assert (member_at pv pos key value p6) as Hm
      by (exists p1, p2, p3, p4, p5; auto 10).
  rewrite bind_peek in H. destruct (size <=? p6) eqn:E6; [discriminate|].
  apply Nat.leb_gt in E6.
  destruct (Ascii.eqb_spec (char_at p6) ",") as [C|C].
  - rewrite bind_advance in H.
    replace (size <=? p6) with false in H
      by (symmetry; apply Nat.leb_gt; lia).
    apply bind_ok_inv in H as ([] & p7 & H7 & H).
    apply IH in H as (members & Hms & ->).
    exists ((key, value) :: members); split; auto.
    eapply members_more; eauto. apply peek_ok; auto.
  - rewrite bind_peek in H.
    replace (size <=? p6) with false in H
      by (symmetry; apply Nat.leb_gt; lia).
    destruct (Ascii.eqb_spec (char_at p6) "}") as [C'|C'];
      [|discriminate].
    rewrite bind_advance in H.
    replace (size <=? p6) with false in H
      by (symmetry; apply Nat.leb_gt; lia).
    inversion H; subst.
    exists [(key, value)]; split; auto.
    apply members_last; auto. apply peek_ok; auto.
Qed.

Lemma parse_string_at_quote (pos : nat) (v : JsonValue double)
  (pos' : nat) :
  @parse_string double input_ pos = Ok (v, pos') ->
  pos < size /\ char_at pos = dquote.
Proof.
  unfold simplejson.parse_string, bind. rewrite expect_char_eq.
  destruct (size <=? pos) eqn:E; [discriminate|]. simpl.
  destruct (Ascii.eqb_spec (char_at pos) dquote); [|discriminate].
  apply Nat.leb_gt in E. auto.
Qed.

Lemma object_members_parse (pv : M (JsonValue double)) (pos : nat)
  (members : list (string * JsonValue double)) (pos' : nat) :
  object_members pv pos members pos' ->
  forall n object, List.length members <= n ->
    parse_object_loop pv n object pos =
    Ok (JObject (emplace_all members object), pos').
Proof.
  induction 1 as [pos key value p Hm Hp|pos key value p p' pos' rest
                    Hm Hp Hw Hrest IH];
    intros n object Hn; (destruct n as [|n]; [simpl in Hn; lia|]);
    destruct Hm as (p1 & p2 & p3 & p4 & p5 & H1 & H2 & H3 & H4 & H5 & H6);
    destruct (parse_string_at_quote _ _ _ H1) as [Q1 Q2];
    apply peek_ok in Hp as (Hp1 & Hp2 & _);
    simpl; rewrite bind_peek;
    (replace (size <=? pos) with false
      by (symmetry; apply Nat.leb_gt; lia));
    rewrite Q2, Ascii.eqb_refl; simpl;
    rewrite (bind_ok _ _ _ _ _ H1); simpl;
    rewrite bind_lift_ok;
    rewrite (bind_ok _ _ _ _ _ H2), (bind_ok _ _ _ _ _ H3),
      (bind_ok _ _ _ _ _ H4), (bind_ok _ _ _ _ _ H5),
      (bind_ok _ _ _ _ _ H6);
    rewrite bind_peek;
    (replace (size <=? p) with false
      by (symmetry; apply Nat.leb_gt; lia));
    rewrite <- Hp2; simpl.
  - rewrite bind_peek.
    replace (size <=? p) with false by (symmetry; apply Nat.leb_gt; lia).
    rewrite <- Hp2; simpl. rewrite bind_advance.
    replace (size <=? p) with false by (symmetry; apply Nat.leb_gt; lia).
    reflexivity.
  - rewrite bind_advance.
    replace (size <=? p) with false by (symmetry; apply Nat.leb_gt; lia).
    rewrite (bind_ok _ _ _ _ _ Hw). apply IH. simpl in Hn; lia.
Qed.

Lemma parse_object_literal (pv : M (JsonValue double)) (n : nat)
  (pos : nat) (v : JsonValue double) (pos' : nat) :
  parse_object pv n pos = Ok (v, pos') ->
  exists members,
    object_literal pv pos members pos' /\
    v = JObject (emplace_all members []).
Proof.
  unfold simplejson.parse_object. intros H.
  apply bind_ok_inv in H as ([] & p0 & H0 & H).
  assert (p0 = S pos) as ->.
  { rewrite expect_char_eq in H0. destruct (_ || _); now inversion H0. }
  apply bind_ok_inv in H as ([] & p & Hw & H).
  rewrite bind_peek in H. destruct (size <=? p) eqn:E; [discriminate|].
  apply Nat.leb_gt in E.
  destruct (Ascii.eqb_spec (char_at p) "}") as [C|C].
  - rewrite bind_advance in H.
    replace (size <=? p) with false in H
      by (symmetry; apply Nat.leb_gt; lia).
    inversion H; subst. exists []; split; auto.
    exists p; repeat split; auto. left; repeat split; auto.
    apply peek_ok; auto.
  - apply parse_object_loop_members in H as (members & Hms & ->).
    exists members; split; auto.
    exists p; repeat split; auto. right; split; auto.
    intros ch Hch. apply peek_ok in Hch as (_ & -> & _). exact C.
Qed.

Lemma object_literal_parse (pv : M (JsonValue double)) (n : nat)
  (pos : nat) (members : list (string * JsonValue double)) (pos' : nat) :
  object_literal pv pos members pos' -> List.length members <= n ->
  parse_object pv n pos = Ok (JObject (emplace_all members []), pos').
Proof.
  intros (p & H0 & Hw & Hcase) Hn. unfold simplejson.parse_object.
  rewrite (bind_ok _ _ _ _ _ H0), (bind_ok _ _ _ _ _ Hw), bind_peek.
  destruct Hcase as [(Hp & -> & ->)|(Hp & Hms)].
  - apply peek_ok in Hp as (Hp1 & Hp2 & _).
    replace (size <=? p) with false by (symmetry; apply Nat.leb_gt; lia).
    rewrite <- Hp2; simpl. rewrite bind_advance.
    replace (size <=? p) with false by (symmetry; apply Nat.leb_gt; lia).
    reflexivity.
  - assert (pos_in : p < size).
    { inversion Hms as [? ? ? ? (p1 & ? & ? & ? & ? & H1 & _) _
                       |? ? ? ? ? ? ? (p1 & ? & ? & ? & ? & H1 & _) _ _ _];
        subst; now apply parse_string_at_quote in H1. }
    replace (size <=? p) with false by (symmetry; apply Nat.leb_gt; lia).
    destruct (Ascii.eqb_spec (char_at p) "}") as [C|C].
    + exfalso. apply (Hp (char_at p)); auto. apply peek_ok; auto.
    + now apply object_members_parse.
Qed.

End Structural.

End Cursor.

(** * The claims of the specification *)

(** ** Value model *)

(** C7. Each of the five [as_<kind>] accessors returns the contained value
    when the value holds that kind, and throws [std::bad_variant_access]
    when it holds any other kind: it never returns a value, a coerced value
    or a default in that case. *)
Theorem accessor_mismatch_throws (double : Type) (v : JsonValue double) :
  (if is_string v then exists s, v = JString s /\ as_string v = Ok s
   else as_string v = Throw bad_variant_access) /\
  (if is_number v then exists d, v = JNumber d /\ as_number v = Ok d
   else as_number v = Throw bad_variant_access) /\
  (if is_bool v then exists b, v = JBool b /\ as_bool v = Ok b
   else as_bool v = Throw bad_variant_access) /\
  (if is_array v then exists a, v = JArray a /\ as_array v = Ok a
   else as_array v = Throw bad_variant_access) /\
  (if is_object v then exists o, v = JObject o /\ as_object v = Ok o
   else as_object v = Throw bad_variant_access).
Proof. destruct v; simpl; repeat split; eauto. Qed.

(** C5. On an object (a [std::map], whose keys ascend), [get] returns the
    value bound to the key exactly when the key is present and [nullptr]
    exactly when it is absent; on an array, [get] returns the element at
    the index exactly when the index is below the length and [nullptr]
    otherwise. Both are total: they have no throwing outcome. *)
Theorem lookup_present_or_absent (double : Type) :
  (forall (object : JsonObject double) (key : string),
      keys_ascending object ->
      (forall v, get_object object key = Some v <-> In (key, v) object) /\
      (get_object object key = None <-> ~ In key (map fst object))) /\
  (forall (array : JsonArray double) (index : nat),
      (index < List.length array ->
       exists v, get_array array index = Some v /\
                 nth_error array index = Some v) /\
      (List.length array <= index -> get_array array index = None)).
Proof.
  split.
  - intros object key S; split.
    + intros v. now apply map_find_in.
    + now apply map_find_none.
  - intros array index; unfold get_array; split; intros H.
    + replace (List.length array <=? index) with false
        by (symmetry; apply Nat.leb_gt; lia).
      destruct (nth_error array index) as [v|] eqn:E; eauto.
      apply nth_error_None in E. lia.
    + now apply Nat.leb_le in H as ->.
Qed.

(** Both lookups of C5 on the object with the keys a and b and on the
    array of two elements. *)
Lemma lookup_present_or_absent_witness :
  (get_object [("a", JNull); ("b", JBool true)] "b"
   = Some (@JBool string true)) /\
  (get_object [("a", @JNull string); ("b", JBool true)] "c" = None) /\
  (get_array [@JNull string; JBool true] 2 = None).
Proof.
  pose proof (lookup_present_or_absent string) as [Hobj Harr].
  assert (keys_ascending [("a", @JNull string); ("b", JBool true)]) as S.
  { repeat constructor. }
  split; [|split].
  - apply (proj1 (Hobj _ "b" S)). simpl; auto.
  - apply (proj2 (Hobj _ "c" S)). simpl. intros [H|[H|[]]]; discriminate.
  - apply (proj2 (Harr _ 2)). simpl; lia.
Defined.

(** ** Whitespace *)

Lemma isspace_c_locale (ch : ascii) : isspace ch = true <-> c_locale_space ch.
Proof.
  unfold c_locale_space; split.
  - destruct ch as [[] [] [] [] [] [] [] []]; vm_compute; intros H;
      try discriminate; tauto.
  - intros H; repeat (destruct H as [<-|H]; [reflexivity|]); destruct H.
Qed.

(** C4, as the code has it. [skip_whitespace] stops at the first position
    that is the end of the input or holds a character outside the six of
    [std::isspace] in the "C" locale: space, tab, newline, vertical tab
    (0x0B), form feed (0x0C) and carriage return; every position it passes
    holds one of these six. *)
Theorem skip_whitespace_skips_isspace :
  (forall ch, isspace ch = true <-> c_locale_space ch) /\
  (forall (input : string) (pos : nat),
      pos <= String.length input ->
      exists pos',
        skip_whitespace input pos = Ok (tt, pos') /\
        pos <= pos' /\ pos' <= String.length input /\
        (forall i, pos <= i -> i < pos' -> c_locale_space (char_at input i)) /\
        (pos' < String.length input ->
         ~ c_locale_space (char_at input pos'))).
Proof.
  split; [exact isspace_c_locale|].
  intros input pos H.
  destruct (while_advance_spec input isspace (size input) pos)
    as (pos' & E & L1 & L2 & A & Z); auto; try lia.
  exists pos'; repeat split; auto.
  - intros i Hi Hi'. apply isspace_c_locale; auto.
  - intros Hlt Hc. apply isspace_c_locale in Hc.
    rewrite (Z Hlt) in Hc. discriminate.
Qed.

(** C4 on a text that starts with a space, a form feed and a tab. *)
Lemma skip_whitespace_skips_isspace_witness :
  exists pos',
    skip_whitespace (String space (String formfeed (String tab "1"))) 0
    = Ok (tt, pos') /\
    0 <= pos' /\ pos' <= 4 /\
    (forall i, 0 <= i -> i < pos' ->
               c_locale_space
                 (char_at (String space (String formfeed (String tab "1")))
                    i)) /\
    (pos' < 4 ->
     ~ c_locale_space
         (char_at (String space (String formfeed (String tab "1"))) pos')).
Proof.
  apply (proj2 skip_whitespace_skips_isspace
           (String space (String formfeed (String tab "1"))) 0).
  simpl; lia.
Defined.

(** C4 as stated fails: a vertical tab, which is none of the four JSON
    whitespace characters, is skipped before a value, and so is a form
    feed. *)
Lemma skip_whitespace_skips_vertical_tab :
  skip_whitespace (String vtab "1") 0 = Ok (tt, 1) /\
  skip_whitespace (String formfeed "1") 0 = Ok (tt, 1) /\
  ~ json_whitespace vtab /\ ~ json_whitespace formfeed /\
  parse stod_text (String vtab "1") = Ok (JNumber "1").
Proof.
  repeat split; try reflexivity;
    intros [H|[H|[H|[H|[]]]]]; discriminate.
Qed.

(** ** String literals *)

Lemma get_char_at (input : string) (pos : nat) (ch : ascii) :
  String.get pos input = Some ch ->
  char_at input pos = ch /\ (size input <=? pos) = false.
Proof.
  intros H; split.
  - unfold char_at; now rewrite H.
  - apply Nat.leb_gt. now apply get_some_lt in H.
Qed.

Lemma hex_digit_value_cases (ch : ascii) (d : Z) :
  hex_digit_value ch = Some d ->
  let c := Z.of_N (code ch) in
  (0 <= d < 16)%Z /\
  (((48 <=? c) && (c <=? 57))%Z = true /\ d = (c - 48)%Z \/
   ((48 <=? c) && (c <=? 57))%Z = false /\
   ((97 <=? c) && (c <=? 102))%Z = true /\ d = (10 + c - 97)%Z \/
   ((48 <=? c) && (c <=? 57))%Z = false /\
   ((97 <=? c) && (c <=? 102))%Z = false /\
   ((65 <=? c) && (c <=? 70))%Z = true /\ d = (10 + c - 65)%Z).
Proof.
  destruct ch as [[] [] [] [] [] [] [] []]; vm_compute; intros H;
    try discriminate; injection H as <-; intuition (try discriminate).
Qed.

Lemma u32_digit (value d : Z) :
  (0 <= value < 2 ^ 28)%Z -> (0 <= d < 16)%Z ->
  u32 (u32 (Z.shiftl value 4) + u32 d) = (value * 16 + d)%Z.
Proof.
  intros Hv Hd. unfold u32. rewrite Z.shiftl_mul_pow2 by lia.
  change (2 ^ 4)%Z with 16%Z. change (2 ^ 28)%Z with 268435456%Z in Hv.
  change (2 ^ 32)%Z with 4294967296%Z.
  rewrite (Z.mod_small (value * 16)) by lia.
  rewrite (Z.mod_small d) by lia.
  apply Z.mod_small; lia.
Qed.

Lemma unicode_digits_eq (input : string) (i : nat) (value : Z) (pos : nat) :
  unicode_digits input (S i) value pos =
  if size input <=? pos
  then Throw (ParseError "Unexpected end of input in unicode escape")
  else
    let value := u32 (Z.shiftl value 4) in
    let c := Z.of_N (code (char_at input pos)) in
    if ((48 <=? c) && (c <=? 57))%Z
    then unicode_digits input i (u32 (value + u32 (c - 48))) (S pos)
    else if ((97 <=? c) && (c <=? 102))%Z
    then unicode_digits input i (u32 (value + u32 (10 + c - 97))) (S pos)
    else if ((65 <=? c) && (c <=? 70))%Z
    then unicode_digits input i (u32 (value + u32 (10 + c - 65))) (S pos)
    else Throw (ParseError "Invalid unicode escape").
Proof.
  cbn [unicode_digits]. rewrite bind_eof.
  destruct (size input <=? pos) eqn:E; [reflexivity|].
  rewrite bind_advance, E. cbv zeta.
  repeat match goal with
         | |- context [if ?b then _ else _] => destruct b
         end; reflexivity.
Qed.

Lemma unicode_digits_step (input : string) (i : nat) (value : Z)
  (pos : nat) (h : ascii) (d : Z) :
  String.get pos input = Some h -> hex_digit_value h = Some d ->
  (0 <= value < 2 ^ 28)%Z ->
  unicode_digits input (S i) value pos =
  unicode_digits input i (value * 16 + d) (S pos).
Proof.
  intros G Hd Hv. apply get_char_at in G as [C E].
  apply hex_digit_value_cases in Hd as [R Hd]. cbv zeta in Hd.
  rewrite unicode_digits_eq, E, C. cbv zeta.
  destruct Hd as [(-> & ->)|[(-> & -> & ->)|(-> & -> & -> & ->)]];
    rewrite u32_digit; auto; lia.
Qed.

(** C2. When the four characters after a backslash and [u] are hexadecimal
    digits, [parse_unicode_escape] returns the ASCII character of their
    value when the value is at most 0x7F and the single character [?]
    otherwise; the string loop appends that one character to its result
    and goes on after the six characters of the escape. In particular the
    text "caf\u00e9" in quotes parses to the string caf?. *)
Theorem unicode_escape_ascii_or_placeholder :
  (forall (input : string) (pos : nat) (h1 h2 h3 h4 : ascii)
          (d1 d2 d3 d4 : Z),
      String.get pos input = Some h1 ->
      String.get (pos + 1) input = Some h2 ->
      String.get (pos + 2) input = Some h3 ->
      String.get (pos + 3) input = Some h4 ->
      hex_digit_value h1 = Some d1 -> hex_digit_value h2 = Some d2 ->
      hex_digit_value h3 = Some d3 -> hex_digit_value h4 = Some d4 ->
      let value := (((d1 * 16 + d2) * 16 + d3) * 16 + d4)%Z in
      parse_unicode_escape input pos =
      Ok (if (value <=? 127)%Z then ascii_of_N (Z.to_N value) else "?"%char,
          pos + 4)) /\
  (forall (double : Type) (input : string) (n : nat) (result : string)
          (pos : nat) (u : ascii) (pos' : nat),
      String.get pos input = Some backslash ->
      String.get (pos + 1) input = Some "u"%char ->
      parse_unicode_escape input (pos + 2) = Ok (u, pos') ->
      @parse_string_loop double input (S n) result pos =
      parse_string_loop input n (push_back result u) pos') /\
  (forall (double : Type) (stod : string -> option double),
      parse stod (json_text "'caf\u00e9'") = Ok (JString "caf?")).
Proof.
  split; [|split].
  - intros input pos h1 h2 h3 h4 d1 d2 d3 d4 G1 G2 G3 G4 H1 H2 H3 H4 value.
    unfold parse_unicode_escape.
    pose proof (hex_digit_value_cases _ _ H1) as [R1 _].
    pose proof (hex_digit_value_cases _ _ H2) as [R2 _].
    pose proof (hex_digit_value_cases _ _ H3) as [R3 _].
    pose proof (hex_digit_value_cases _ _ H4) as [R4 _].
    rewrite !Nat.add_succ_r, ?Nat.add_0_r in *.
    unfold bind.
    rewrite (unicode_digits_step _ _ _ _ _ _ G1 H1) by lia.
    rewrite (unicode_digits_step _ _ _ _ _ _ G2 H2) by lia.
    rewrite (unicode_digits_step _ _ _ _ _ _ G3 H3) by lia.
    rewrite (unicode_digits_step _ _ _ _ _ _ G4 H4) by lia.
    simpl. fold value. now destruct (value <=? 127)%Z.
  - intros double input n result pos u pos' G1 G2 Hu.
    rewrite !Nat.add_succ_r, ?Nat.add_0_r in *.
    apply get_char_at in G1 as [C1 E1]. apply get_char_at in G2 as [C2 E2].
    simpl. rewrite bind_eof, E1, bind_advance, E1, C1. simpl.
    rewrite bind_eof, E2, bind_advance, E2, C2. simpl.
    rewrite bind_bind. now rewrite (bind_ok _ _ _ _ _ Hu).
  - intros double stod. reflexivity.
Qed.

(** C2 on the digits 00e9 (above 0x7F) and 0041 (the letter A). *)
Lemma unicode_escape_ascii_or_placeholder_witness :
  parse_unicode_escape "00e9" 0 = Ok ("?"%char, 4) /\
  parse_unicode_escape "0041" 0 = Ok ("A"%char, 4).
Proof.
  split.
  - exact (proj1 unicode_escape_ascii_or_placeholder "00e9" 0
             "0"%char "0"%char "e"%char "9"%char 0%Z 0%Z 14%Z 9%Z
             eq_refl eq_refl eq_refl eq_refl eq_refl eq_refl eq_refl eq_refl).
  - exact (proj1 unicode_escape_ascii_or_placeholder "0041" 0
             "0"%char "0"%char "4"%char "1"%char 0%Z 0%Z 4%Z 1%Z
             eq_refl eq_refl eq_refl eq_refl eq_refl eq_refl eq_refl eq_refl).
Defined.

Lemma high_byte_raw (ch : ascii) : (128 <= code ch)%N -> raw_byte ch.
Proof.
  intros H; repeat split; try lia; intros ->; vm_compute in H; now apply H.
Qed.

Lemma parse_string_loop_raw (double : Type) (input : string) (n : nat)
  (result : string) (pos : nat) (ch : ascii) :
  String.get pos input = Some ch -> raw_byte ch ->
  @parse_string_loop double input (S n) result pos =
  parse_string_loop input n (push_back result ch) (S pos).
Proof.
  intros G (Q & B & C). apply get_char_at in G as [<- E].
  simpl. rewrite bind_eof, E, bind_advance, E.
  apply Ascii.eqb_neq in Q, B. rewrite Q, B.
  now apply N.ltb_ge in C as ->.
Qed.

Lemma parse_string_loop_body (double : Type) (body : string) :
  forall (pre rest result : string) (n : nat),
    all_bytes raw_byte body -> String.length body < n ->
    @parse_string_loop double (pre ++ body ++ String dquote rest) n result
      (String.length pre) =
    Ok (JString (result ++ body),
        String.length pre + String.length body + 1).
Proof.
  induction body as [|ch body IH]; intros pre rest result n Hraw Hn;
    (destruct n as [|n]; [simpl in Hn; lia|]).
  - pose proof (get_append_at pre dquote rest) as G.
    apply get_char_at in G as [C E].
    simpl. rewrite bind_eof. simpl in E, C |- *. rewrite E, bind_advance, E, C.
    simpl. unfold ret. rewrite append_nil_r. do 2 f_equal. lia.
  - destruct Hraw as [Hch Hraw]. simpl in Hn.
    rewrite (parse_string_loop_raw _ _ _ _ _ ch); auto;
      [|apply get_append_at].
    specialize (IH (pre ++ String ch EmptyString) rest (push_back result ch)
                  n Hraw ltac:(lia)).
    rewrite append_assoc, length_append in IH. simpl in IH.
    replace (String.length pre + 1) with (S (String.length pre)) in IH
      by lia.
    simpl. rewrite IH. unfold push_back. rewrite append_assoc. simpl.
    do 2 f_equal. lia.
Qed.

Lemma parse_value_eq (double : Type) (stod : string -> option double)
  (input : string) (fuel : nat) (pos : nat) :
  parse_value stod input (S fuel) pos =
  if size input <=? pos then Throw end_of_input
  else
    let ch := char_at input pos in
    if Ascii.eqb ch "n" then parse_null input pos
    else if Ascii.eqb ch "t" || Ascii.eqb ch "f" then parse_bool input pos
    else if Ascii.eqb ch dquote then parse_string input pos
    else if Ascii.eqb ch "["
    then parse_array input (parse_value stod input fuel) fuel pos
    else if Ascii.eqb ch "{"
    then parse_object input (parse_value stod input fuel) fuel pos
    else if Ascii.eqb ch "-" || isdigit ch then parse_number stod input pos
    else Throw (ParseError "Invalid JSON value").
Proof.
  cbn [parse_value]. rewrite bind_eof.
  destruct (size input <=? pos) eqn:E; [reflexivity|].
  rewrite bind_peek, E. cbv zeta.
  repeat match goal with
         | |- context [if ?b then _ else _] => destruct b
         end; reflexivity.
Qed.

(** C10. Inside a string literal an unescaped byte that is not below 0x20
    is appended to the result as it is, and the loop goes on at the next
    byte; the control-character error is thrown for an unescaped byte
    below 0x20. Every byte from 0x80 up is such a byte, so a literal whose
    bytes are all unescaped and not below 0x20 (any bytes from 0x80 up
    among them, valid UTF-8 or not) parses to exactly those bytes; the
    two bytes 0xC3 0xA9 are an instance. *)
Theorem raw_bytes_pass_through :
  (forall (double : Type) (input : string) (n : nat) (result : string)
          (pos : nat) (ch : ascii),
      String.get pos input = Some ch -> ch <> dquote -> ch <> backslash ->
      ((32 <= code ch)%N ->
       @parse_string_loop double input (S n) result pos =
       parse_string_loop input n (push_back result ch) (S pos)) /\
      ((code ch < 32)%N ->
       @parse_string_loop double input (S n) result pos =
       Throw (ParseError "Invalid control character in string"))) /\
  (forall ch, (128 <= code ch)%N -> raw_byte ch) /\
  (forall (double : Type) (stod : string -> option double) (body : string),
      all_bytes raw_byte body ->
      parse stod (String dquote (body ++ String dquote EmptyString))
      = Ok (JString body)) /\
  (forall (double : Type) (stod : string -> option double),
      parse stod
        (String dquote (String "195" (String "169" (String dquote ""))))
      = Ok (JString (String "195" (String "169" "")))).
Proof.
  split; [|split; [exact high_byte_raw|split]].
  - intros double input n result pos ch G Q B; split; intros C.
    + apply parse_string_loop_raw; auto. now repeat split.
    + apply get_char_at in G as [<- E].
      simpl. rewrite bind_eof, E, bind_advance, E.
      apply Ascii.eqb_neq in Q, B. rewrite Q, B.
      now apply N.ltb_lt in C as ->.
  - intros double stod body Hraw.
    unfold parse, parse_with, Parser_parse.
    set (input := String dquote (body ++ String dquote "")).
    assert (size input = S (S (String.length body))) as Hsize.
    { unfold size, input. simpl. rewrite length_append. simpl. lia. }
    assert (skip_whitespace input 0 = Ok (tt, 0)) as W0.
    { unfold skip_whitespace. rewrite while_advance_eq, Hsize. reflexivity. }
    rewrite (bind_ok _ _ _ _ _ W0).
    assert (parse_value stod input (S (String.length input)) 0
            = Ok (JString body, size input)) as V.
    { rewrite parse_value_eq, Hsize. cbn [Nat.leb]. cbv zeta.
      change (char_at input 0) with dquote.
      change (Ascii.eqb dquote "n") with false.
      change (Ascii.eqb dquote "t" || Ascii.eqb dquote "f") with false.
      change (Ascii.eqb dquote dquote) with true. cbv iota.
      unfold parse_string, bind at 1.
      rewrite expect_char_eq, Hsize. cbn [Nat.leb orb].
      change (char_at input 0) with dquote.
      change (negb (Ascii.eqb dquote dquote)) with false. cbv iota.
      pose proof (parse_string_loop_body double body (String dquote "") ""
                    "" (size input) Hraw) as L.
      change (String dquote "" ++ body ++ String dquote "") with input in L.
      change (String.length (String dquote "")) with 1 in L.
      rewrite Hsize in L. rewrite L by lia. cbn [append].
      do 2 f_equal. lia. }
    rewrite (bind_ok _ _ _ _ _ V).
    assert (skip_whitespace input (size input) = Ok (tt, size input)) as W1.
    { unfold skip_whitespace. rewrite while_advance_eq.
      now rewrite Nat.leb_refl. }
    rewrite (bind_ok _ _ _ _ _ W1), bind_eof. now rewrite Nat.leb_refl.
  - intros double stod. reflexivity.
Qed.

(** C10 on the two bytes 0xC3 0xA9 between quotes. *)
Lemma raw_bytes_pass_through_witness :
  parse stod_text
    (String dquote (String "195" (String "169" "") ++ String dquote ""))
  = Ok (JString (String "195" (String "169" ""))).
Proof.
  destruct raw_bytes_pass_through as (_ & Hhigh & Hbody & _).
  apply Hbody. simpl.
  repeat split; try (apply Hhigh; vm_compute; discriminate).
Defined.

(** ** The parser consults [std::stod] on matched numbers only *)

(** [stod] converts at least what [stod'] converts, to the same values. *)
Lemma refines_parse_number_stod (double : Type)
  (stod' stod : string -> option double) (input : string) :
  (forall s d, stod' s = Some d -> stod s = Some d) ->
  refines (Throw out_of_range) (parse_number stod' input)
          (parse_number stod input).
Proof.
  intros Hsub. unfold parse_number.
  assert (Throw out_of_range <> Ok tt) as K by discriminate.
  apply refines_bind; auto; [apply refines_refl|]; intros start.
  apply refines_bind; auto; [apply refines_refl|]; intros ch.
  apply refines_bind; auto; [apply refines_refl|]; intros _.
  apply refines_bind; auto; [apply refines_refl|]; intros e.
  destruct e; [apply refines_refl|].
  apply refines_bind; auto; [apply refines_refl|]; intros ch0.
  apply refines_bind; auto; [apply refines_refl|]; intros _.
  apply refines_bind; auto; [apply refines_refl|]; intros dot.
  apply refines_bind; auto; [apply refines_refl|]; intros _.
  apply refines_bind; auto; [apply refines_refl|]; intros ex.
  apply refines_bind; auto; [apply refines_refl|]; intros _.
  apply refines_bind; auto; [apply refines_refl|]; intros pos.
  apply refines_bind; auto; [apply refines_refl|]; intros lexeme.
  intros p H. destruct (stod' lexeme) as [d|] eqn:E.
  - now rewrite (Hsub _ _ E).
  - exfalso; apply H; reflexivity.
Qed.

Lemma parse_extends_stod {double : Type}
  (stod' stod : string -> option double) (input : string)
  (r : outcome (JsonValue double)) :
  (forall s d, stod' s = Some d -> stod s = Some d) ->
  parse stod' input = r -> r <> Throw out_of_range ->
  parse stod input = r.
Proof.
  intros Hsub <- H. unfold parse, parse_with in *.
  assert (Throw out_of_range <> Ok tt) as K by discriminate.
  rewrite (@refines_Parser_parse input double stod' (Throw out_of_range) K
             stod (refines_parse_number_stod _ _ _ _ Hsub)
             (S (String.length input)) (S (String.length input)));
    auto; try lia.
  intros E. apply H.
  destruct (Parser_parse stod' input (S (String.length input)) 0)
    as [[v p]|e|]; simpl in E; congruence.
Qed.

(** ** Objects *)

(** C1. An object literal parses to the object in which every key is bound
    to the value of the first pair, in input order, that has this key;
    the values of later pairs with the same key are dropped. Conversely
    the parser returns this object for every such literal (given a counter
    of at least the number of pairs). In particular the text
    {"a":1,"a":2} parses to the object binding a to the number 1. *)
Theorem first_occurrence_wins :
  (forall (double : Type) (input : string) (pv : M (JsonValue double))
          (n pos : nat) (v : JsonValue double) (pos' : nat),
      parse_object input pv n pos = Ok (v, pos') ->
      exists members object,
        object_literal input pv pos members pos' /\
        v = JObject object /\
        forall key, get_object object key = first_binding members key) /\
  (forall (double : Type) (input : string) (pv : M (JsonValue double))
          (n pos : nat) (members : list (string * JsonValue double))
          (pos' : nat),
      object_literal input pv pos members pos' ->
      List.length members <= n ->
      exists object,
        parse_object input pv n pos = Ok (JObject object, pos') /\
        forall key, get_object object key = first_binding members key) /\
  (forall (double : Type) (stod : string -> option double) (d1 d2 : double),
      stod "1" = Some d1 -> stod "2" = Some d2 ->
      parse stod (json_text "{'a':1,'a':2}")
      = Ok (JObject [("a", JNumber d1)])).
Proof.
  split; [|split].
  - intros double input pv n pos v pos' H.
    apply parse_object_literal in H as (members & L & ->).
    exists members, (emplace_all members []); repeat split; auto.
    intros key. unfold get_object. now rewrite map_find_emplace_all.
  - intros double input pv n pos members pos' L Hn.
    exists (emplace_all members []); split.
    + now apply object_literal_parse.
    + intros key. unfold get_object. now rewrite map_find_emplace_all.
  - intros double stod d1 d2 H1 H2.
    apply (parse_extends_stod
             (fun s => if String.eqb s "1" then Some d1
                       else if String.eqb s "2" then Some d2 else None));
      [|reflexivity|discriminate].
    intros s d. destruct (String.eqb_spec s "1") as [->|_]; [congruence|].
    destruct (String.eqb_spec s "2") as [->|_]; congruence.
Qed.

(** C1 on the text {"a":1,"a":2}, with the conversion that keeps the
    matched text. *)
Lemma first_occurrence_wins_witness :
  parse stod_text (json_text "{'a':1,'a':2}")
  = Ok (JObject [("a", JNumber "1")]).
Proof.
  exact (proj2 (proj2 first_occurrence_wins) string stod_text "1" "2"
           eq_refl eq_refl).
Defined.

(** C6. Where the object loop expects a pair and the next character is
    not a double quote, it throws the "expected string key" error; where
    the key is parsed and, after optional whitespace, the input ends or the
    next character is not a colon, it throws the "expected ':'" error. In
    particular {"a":1,} fails with the "expected string key" error: after
    the comma the loop expects a pair and finds the closing brace. *)
Theorem object_key_and_colon_errors :
  (forall (double : Type) (input : string) (pv : M (JsonValue double))
          (n : nat) (object : JsonObject double) (pos : nat),
      pos < String.length input -> char_at input pos <> dquote ->
      parse_object_loop input pv (S n) object pos
      = Throw (ParseError "Expected string key in object")) /\
  (forall (double : Type) (input : string) (pv : M (JsonValue double))
          (n : nat) (object : JsonObject double) (pos : nat) (key : string)
          (p1 p2 : nat),
      @parse_string double input pos = Ok (JString key, p1) ->
      skip_whitespace input p1 = Ok (tt, p2) ->
      String.length input <= p2 \/ char_at input p2 <> ":"%char ->
      parse_object_loop input pv (S n) object pos
      = Throw (ParseError "Expected ':'")) /\
  (forall (double : Type) (stod : string -> option double) (d : double),
      stod "1" = Some d ->
      parse stod (json_text "{'a':1,}")
      = Throw (ParseError "Expected string key in object")).
Proof.
  split; [|split].
  - intros double input pv n object pos H C. simpl.
    rewrite bind_peek.
    replace (size input <=? pos) with false
      by (symmetry; apply Nat.leb_gt; exact H).
    apply Ascii.eqb_neq in C. now rewrite C.
  - intros double input pv n object pos key p1 p2 Hs Hw Hc. simpl.
    destruct (parse_string_at_quote _ _ _ _ Hs) as [Q1 Q2].
    rewrite bind_peek.
    replace (size input <=? pos) with false
      by (symmetry; apply Nat.leb_gt; exact Q1).
    rewrite Q2, Ascii.eqb_refl. simpl.
    rewrite (bind_ok _ _ _ _ _ Hs). simpl. rewrite bind_lift_ok.
    rewrite (bind_ok _ _ _ _ _ Hw). unfold bind at 1.
    rewrite expect_char_eq.
    destruct Hc as [Hc|Hc].
    + fold (size input) in Hc. now apply Nat.leb_le in Hc as ->.
    + apply Ascii.eqb_neq in Hc. rewrite Hc.
      now destruct (size input <=? p2).
  - intros double stod d H.
    apply (parse_extends_stod
             (fun s => if String.eqb s "1" then Some d else None));
      [|reflexivity|discriminate].
    intros s d'. destruct (String.eqb_spec s "1") as [->|_]; congruence.
Qed.

(** C6 on the texts {x and {"a" 1} and {"a":1,}. *)
Lemma object_key_and_colon_errors_witness :
  parse_object_loop "{x" (parse_value stod_text "{x" 2) 1 [] 1
  = Throw (ParseError "Expected string key in object") /\
  parse_object_loop (json_text "{'a' 1}")
    (parse_value stod_text (json_text "{'a' 1}") 7) 1 [] 1
  = Throw (ParseError "Expected ':'") /\
  parse stod_text (json_text "{'a':1,}")
  = Throw (ParseError "Expected string key in object").
Proof.
  destruct object_key_and_colon_errors as (Hkey & Hcolon & Hex).
  split; [|split].
  - apply Hkey; [simpl; lia | discriminate].
  - apply (Hcolon string (json_text "{'a' 1}") _ 0 [] 1 "a" 4 5);
      [reflexivity | reflexivity | right; discriminate].
  - exact (Hex string stod_text "1" eq_refl).
Defined.

(** C8. Every object in a parsed value, at any depth, lists its pairs with
    the keys strictly ascending in byte-wise lexicographic order, whatever
    the order of the pairs in the input: {"b":1,"a":2} parses to the
    object that lists a before b. *)
Theorem parsed_objects_ordered :
  (forall (double : Type) (stod : string -> option double) (input : string)
          (v : JsonValue double),
      parse stod input = Ok v -> objects_ordered v) /\
  (forall (double : Type) (stod : string -> option double) (input : string)
          (object : JsonObject double),
      parse stod input = Ok (JObject object) ->
      StronglySorted lex_lt (map fst object)) /\
  (forall (double : Type) (stod : string -> option double) (d1 d2 : double),
      stod "1" = Some d1 -> stod "2" = Some d2 ->
      parse stod (json_text "{'b':1,'a':2}")
      = Ok (JObject [("a", JNumber d2); ("b", JNumber d1)])).
Proof.
  assert (forall (double : Type) (stod : string -> option double)
                 (input : string) (v : JsonValue double),
             parse stod input = Ok v -> objects_ordered v) as Hord.
  { intros double stod input v. unfold parse, parse_with, Parser_parse.
    destruct (bind _ _ 0) as [[v' p]|e|] eqn:E; try discriminate.
    intros H; injection H as ->.
    apply bind_ok_inv in E as ([] & p1 & _ & E).
    apply bind_ok_inv in E as (v' & p2 & V & E).
    apply ordered_parse_value in V.
    apply bind_ok_inv in E as ([] & p3 & _ & E).
    rewrite bind_eof in E. destruct (size input <=? p3); [|discriminate].
    now inversion E; subst. }
  split; [exact Hord|split].
  - intros double stod input object H. apply Hord in H.
    now apply objects_ordered_object in H as [H _].
  - intros double stod d1 d2 H1 H2.
    apply (parse_extends_stod
             (fun s => if String.eqb s "1" then Some d1
                       else if String.eqb s "2" then Some d2 else None));
      [|reflexivity|discriminate].
    intros s d. destruct (String.eqb_spec s "1") as [->|_]; [congruence|].
    destruct (String.eqb_spec s "2") as [->|_]; congruence.
Qed.

(** C8 on the text {"b":1,"a":2}. *)
Lemma parsed_objects_ordered_witness :
  parse stod_text (json_text "{'b':1,'a':2}")
  = Ok (JObject [("a", JNumber "2"); ("b", JNumber "1")]) /\
  StronglySorted lex_lt
    (map fst [("a", @JNumber string "2"); ("b", JNumber "1")]).
Proof.
  destruct parsed_objects_ordered as (_ & Hsorted & Hex).
  pose proof (Hex string stod_text "1" "2" eq_refl eq_refl) as E.
  split; [exact E|]. exact (Hsorted string stod_text _ _ E).
Defined.

(** ** The entry point *)

Lemma lands_Parser_parse (double : Type) (stod : string -> option double)
  (input : string) (fuel : nat) :
  size input < fuel ->
  lands input (size input) (Parser_parse stod input fuel 0).
Proof.
  intros Hf. unfold Parser_parse.
  eapply lands_bind; [apply lands_skip_whitespace; lia|].
  intros _ p1 _ L1 L2.
  eapply lands_bind; [apply lands_parse_value; lia|].
  intros v p2 _ L3 L4.
  eapply lands_bind; [apply lands_skip_whitespace; lia|].
  intros _ p3 _ L5 L6. rewrite bind_eof.
  destruct (size input <=? p3) eqn:E; simpl; auto.
  apply Nat.leb_le in E. lia.
Qed.

Lemma parse_not_out_of_fuel (double : Type) (stod : string -> option double)
  (input : string) :
  parse stod input <> OutOfFuel.
Proof.
  unfold parse, parse_with.
  pose proof (lands_Parser_parse double stod input (S (String.length input))
                (Nat.lt_succ_diag_r _)) as L.
  now destruct (Parser_parse stod input (S (String.length input)) 0)
    as [[v p]|e|].
Qed.

(** C3. [parse] returns a value only when the cursor, after one value and
    the whitespace behind it, is at the end of the input; when characters
    remain there it throws the "unexpected characters" error. In
    particular on 01 the number is the 0 alone (the cursor stops at 1) and
    [parse] throws that error. *)
Theorem trailing_content_rejected :
  (forall (double : Type) (stod : string -> option double) (input : string)
          (v : JsonValue double) (p1 p2 p3 : nat),
      skip_whitespace input 0 = Ok (tt, p1) ->
      parse_value stod input (S (String.length input)) p1 = Ok (v, p2) ->
      skip_whitespace input p2 = Ok (tt, p3) ->
      (p3 < String.length input ->
       parse stod input
       = Throw (ParseError "Unexpected characters after JSON value")) /\
      (p3 = String.length input -> parse stod input = Ok v)) /\
  (forall (double : Type) (stod : string -> option double) (input : string)
          (v : JsonValue double),
      parse stod input = Ok v ->
      exists p1 p2,
        skip_whitespace input 0 = Ok (tt, p1) /\
        parse_value stod input (S (String.length input)) p1 = Ok (v, p2) /\
        skip_whitespace input p2 = Ok (tt, String.length input)) /\
  (forall (double : Type) (stod : string -> option double) (d : double),
      stod "0" = Some d ->
      parse_number stod "01" 0 = Ok (JNumber d, 1) /\
      parse stod "01"
      = Throw (ParseError "Unexpected characters after JSON value")).
Proof.
  split; [|split].
  - intros double stod input v p1 p2 p3 H1 H2 H3.
    unfold parse, parse_with, Parser_parse.
    rewrite (bind_ok _ _ _ _ _ H1), (bind_ok _ _ _ _ _ H2),
      (bind_ok _ _ _ _ _ H3), bind_eof.
    unfold size. split; intros H.
    + now apply Nat.leb_gt in H as ->.
    + subst p3. now rewrite Nat.leb_refl.
  - intros double stod input v. unfold parse, parse_with.
    pose proof (lands_Parser_parse double stod input
                  (S (String.length input)) (Nat.lt_succ_diag_r _)) as L.
    unfold Parser_parse in *.
    destruct (bind _ _ 0) as [[v' p]|e|] eqn:E; try discriminate.
    intros H; injection H as ->.
    apply bind_ok_inv in E as ([] & p1 & H1 & E).
    apply bind_ok_inv in E as (v' & p2 & H2 & E).
    apply bind_ok_inv in E as ([] & p3 & H3 & E).
    rewrite bind_eof in E.
    destruct (size input <=? p3) eqn:E3; [|discriminate].
    inversion E; subst. simpl in L. apply Nat.leb_le in E3.
    exists p1, p2; repeat split; auto.
    replace (String.length input) with p by (unfold size in *; lia).
    exact H3.
  - intros double stod d H; split.
    + unfold parse_number. vm_compute. now rewrite H.
    + apply (parse_extends_stod
               (fun s => if String.eqb s "0" then Some d else None));
        [|reflexivity|discriminate].
      intros s d'. destruct (String.eqb_spec s "0") as [->|_]; congruence.
Qed.

(** C3 on the text 01: the value ends at 1, one character short of the
    end. *)
Lemma trailing_content_rejected_witness :
  parse_number stod_text "01" 0 = Ok (JNumber "0", 1) /\
  parse stod_text "01"
  = Throw (ParseError "Unexpected characters after JSON value").
Proof.
  split.
  - exact (proj1 (proj2 (proj2 trailing_content_rejected) string stod_text
                    "0" eq_refl)).
  - apply (proj1 trailing_content_rejected string stod_text "01"
             (JNumber "0") 0 1 1); [reflexivity..|simpl; lia].
Defined.

(** ** Matching, escapes and number literals *)

Lemma match_eq (input text : string) (pos : nat) :
  pos <= size input ->
  match_ input text pos =
  if String.eqb (substring pos (String.length text) input) text
  then Ok (true, pos + String.length text)
  else Ok (false, pos).
Proof.
  intros H. unfold match_, substr, lift. rewrite bind_get_pos.
  replace (size input <? pos) with false
    by (symmetry; apply Nat.ltb_ge; lia).
  unfold bind. now destruct (String.eqb _ text).
Qed.

(** After a backslash, each of the eight one-letter escapes appends the one
    character it stands for and the loop goes on two characters further;
    any other character except u is the "invalid escape" error. *)
Lemma parse_string_loop_escape (double : Type) (input : string) (n : nat)
  (result : string) (pos : nat) (escaped : ascii) :
  String.get pos input = Some backslash ->
  String.get (pos + 1) input = Some escaped ->
  match simple_escape escaped with
  | Some ch =>
      @parse_string_loop double input (S n) result pos =
      parse_string_loop input n (push_back result ch) (pos + 2)
  | None =>
      escaped <> "u"%char ->
      @parse_string_loop double input (S n) result pos =
      Throw (ParseError "Invalid escape sequence")
  end.
Proof.
  intros G1 G2. rewrite !Nat.add_succ_r, ?Nat.add_0_r in *.
  apply get_char_at in G1 as [C1 E1]. apply get_char_at in G2 as [C2 E2].
  cbn [parse_string_loop].
  rewrite bind_eof, E1, bind_advance, E1, C1.
  change (Ascii.eqb backslash dquote) with false.
  change (Ascii.eqb backslash backslash) with true. cbv iota.
  rewrite bind_eof, E2, bind_advance, E2, C2. unfold simple_escape.
  repeat match goal with
         | |- context [Ascii.eqb escaped ?c] =>
             destruct (Ascii.eqb escaped c) eqn:?; try reflexivity
         end.
  intros N. apply Ascii.eqb_neq in N. congruence.
Qed.

Lemma substring_zero (s : string) (pos : nat) : substring pos 0 s = "".
Proof. revert pos; induction s as [|c s IH]; intros [|pos]; simpl; auto. Qed.

Lemma substring_split (s : string) (pos p1 p2 : nat) :
  pos <= p1 -> p1 <= p2 -> p2 <= String.length s ->
  substring pos (p2 - pos) s
  = substring pos (p1 - pos) s ++ substring p1 (p2 - p1) s.
Proof.
  revert pos p1 p2; induction s as [|c s IH]; intros pos p1 p2 H1 H2 H3.
  - simpl in H3. assert (p2 = 0) as -> by lia. assert (p1 = 0) as -> by lia.
    assert (pos = 0) as -> by lia. reflexivity.
  - simpl in H3. destruct pos as [|pos].
    + destruct p1 as [|p1].
      * rewrite Nat.sub_0_r. simpl. now destruct p2.
      * destruct p2 as [|p2]; [lia|]. simpl.
        specialize (IH 0 p1 p2). rewrite !Nat.sub_0_r in IH.
        rewrite IH by lia. reflexivity.
    + destruct p1 as [|p1]; [lia|]. destruct p2 as [|p2]; [lia|].
      simpl. apply IH; lia.
Qed.

Lemma substring_one (s : string) (pos : nat) (c : ascii) :
  String.get pos s = Some c -> substring pos 1 s = String c "".
Proof.
  revert pos; induction s as [|c0 s IH]; intros [|pos] H; simpl in *;
    try discriminate; auto.
  injection H as ->. now destruct s.
Qed.

Lemma char_at_get (s : string) (pos : nat) :
  pos < String.length s -> String.get pos s = Some (char_at s pos).
Proof.
  unfold char_at. revert pos; induction s as [|c s IH]; intros [|pos] H;
    simpl in *; try lia; auto.
  apply IH; lia.
Qed.

Lemma substring_all_bytes (P : ascii -> Prop) (s : string) (p p' : nat) :
  (forall i, p <= i -> i < p' -> P (char_at s i)) ->
  p' <= String.length s ->
  all_bytes P (substring p (p' - p) s).
Proof.
  intros H Hlen. remember (p' - p) as n eqn:Hn.
  revert p Hn H; induction n as [|n IH]; intros p Hn H.
  - now rewrite substring_zero.
  - assert (p < String.length s) as Hp by lia.
    assert (S n = S p - p + (p' - S p)) as -> by lia.
    replace (S p - p + (p' - S p)) with (p' - p) by lia.
    rewrite (substring_split s p (S p) p') by lia.
    replace (S p - p) with 1 by lia.
    rewrite (substring_one _ _ _ (char_at_get _ _ Hp)). simpl. split.
    + apply H; lia.
    + replace (p' - S p) with n by lia.
      apply IH; [lia|]. intros i Hi Hi'. apply H; lia.
Qed.

Lemma substring_nonempty (s : string) (p p' : nat) :
  p < p' -> p' <= String.length s -> substring p (p' - p) s <> "".
Proof.
  intros H1 H2 E.
  rewrite (substring_split s p (S p) p') in E by lia.
  replace (S p - p) with 1 in E by lia.
  rewrite (substring_one _ _ _ (char_at_get s p ltac:(lia))) in E.
  discriminate.
Qed.

(** The digit loop from a digit: it stops further on, over digits only. *)
Lemma digit_run (input : string) (p : nat) :
  p < size input -> isdigit (char_at input p) = true ->
  exists p',
    while_advance input isdigit (size input) p = Ok (tt, p') /\
    p < p' /\ p' <= size input /\
    digits (substring p (p' - p) input).
Proof.
  intros Hp D.
  destruct (while_advance_spec input isdigit (size input) p)
    as (p' & E & L1 & L2 & A & Z); try lia.
  assert (p < p') as Hlt.
  { destruct (Nat.eq_dec p' p) as [->|]; [|lia].
    rewrite (Z Hp) in D. discriminate. }
  exists p'; repeat split; auto.
  - now apply substring_nonempty.
  - now apply substring_all_bytes.
Qed.

(** The text [parse_number] returns a number for: the part of the input
    it has moved over, which follows the number grammar and is what
    [std::stod] is called on. *)
Lemma parse_number_lexeme (double : Type)
  (stod : string -> option double) (input : string) (pos : nat)
  (v : JsonValue double) (pos' : nat) :
  parse_number stod input pos = Ok (v, pos') ->
  pos < pos' /\ pos' <= String.length input /\
  json_number (substring pos (pos' - pos) input) /\
  exists d, stod (substring pos (pos' - pos) input) = Some d /\
            v = JNumber d.
Proof.
  assert (size input = String.length input) as Hsz by reflexivity.
  unfold parse_number. rewrite bind_get_pos, bind_peek.
  destruct (size input <=? pos) eqn:E0; [discriminate|].
  apply Nat.leb_gt in E0. intros H.
  (* the sign *)
  apply bind_ok_inv in H as ([] & p1 & H1 & H).
  assert (exists sign, (sign = "" \/ sign = "-") /\ pos <= p1 /\
                       p1 <= size input /\
                       substring pos (p1 - pos) input = sign)
    as (sign & Hsign & L1 & L1' & S1).
  { destruct (Ascii.eqb_spec (char_at input pos) "-") as [C|C].
    - rewrite bind_advance in H1.
      replace (size input <=? pos) with false in H1
        by (symmetry; apply Nat.leb_gt; lia).
      inversion H1; subst. exists "-"; repeat split; auto; try lia.
      replace (S pos - pos) with 1 by lia.
      rewrite <- C. apply substring_one, char_at_get. exact E0.
    - inversion H1; subst. exists ""; repeat split; auto; try lia.
      rewrite Nat.sub_diag. apply substring_zero. }
  clear H1. rewrite bind_eof in H.
  destruct (size input <=? p1) eqn:E1; [discriminate|].
  rewrite bind_peek, E1 in H. apply Nat.leb_gt in E1.
  (* the integer part *)
  apply bind_ok_inv in H as ([] & p2 & H2 & H).
  assert (exists int,
             (int = "0" \/ digits int /\ String.get 0 int <> Some "0"%char)
             /\ p1 < p2 /\ p2 <= size input /\
             substring p1 (p2 - p1) input = int)
    as (int & Hint & L2 & L2' & S2).
  { destruct (Ascii.eqb_spec (char_at input p1) "0") as [C|C].
    - rewrite bind_advance in H2.
      replace (size input <=? p1) with false in H2
        by (symmetry; apply Nat.leb_gt; lia).
      inversion H2; subst. exists "0"; repeat split; auto; try lia.
      replace (S p1 - p1) with 1 by lia.
      rewrite <- C. apply substring_one, char_at_get. exact E1.
    - destruct (isdigit (char_at input p1)) eqn:D; [|discriminate].
      destruct (digit_run input p1 E1 D) as (q & W & Q1 & Q2 & Dg).
      rewrite W in H2. inversion H2; subst.
      exists (substring p1 (p2 - p1) input); repeat split; auto;
        try apply Dg.
      right; split; auto.
      rewrite (substring_split input p1 (S p1) p2) by lia.
      replace (S p1 - p1) with 1 by lia.
      rewrite (substring_one _ _ _ (char_at_get input p1 E1)). simpl.
      intros F; injection F as F; auto. }
  clear H2. rewrite bind_not_eof_and in H.
  (* the fraction *)
  apply bind_ok_inv in H as ([] & p3 & H3 & H).
  assert (exists frac,
             (frac = "" \/ exists d, digits d /\ frac = "." ++ d) /\
             p2 <= p3 /\ p3 <= size input /\
             substring p2 (p3 - p2) input = frac)
    as (frac & Hfrac & L3 & L3' & S3).
  { destruct (size input <=? p2) eqn:E2; simpl in H3.
    { inversion H3; subst. exists ""; repeat split; auto.
      rewrite Nat.sub_diag. apply substring_zero. }
    apply Nat.leb_gt in E2.
    destruct (Ascii.eqb_spec (char_at input p2) ".") as [C|C];
      simpl in H3.
    2:{ inversion H3; subst. exists ""; repeat split; auto; try lia.
        rewrite Nat.sub_diag. apply substring_zero. }
    rewrite bind_advance in H3.
    replace (size input <=? p2) with false in H3
      by (symmetry; apply Nat.leb_gt; lia).
    rewrite bind_not_eof_and in H3.
    destruct (size input <=? S p2) eqn:E2'; simpl in H3; [discriminate|].
    apply Nat.leb_gt in E2'.
    destruct (isdigit (char_at input (S p2))) eqn:D; simpl in H3;
      [|discriminate].
    destruct (digit_run input (S p2) E2' D) as (q & W & Q1 & Q2 & Dg).
    rewrite W in H3. inversion H3; subst.
    exists ("." ++ substring (S p2) (p3 - S p2) input).
    repeat split; auto; try lia.
    - right. eexists; split; [exact Dg|reflexivity].
    - rewrite (substring_split input p2 (S p2) p3) by lia.
      replace (S p2 - p2) with 1 by lia.
      rewrite (substring_one _ _ _ (char_at_get input p2 E2)).
      now rewrite C. }
  clear H3. rewrite bind_not_eof_and in H.
  (* the exponent *)
  apply bind_ok_inv in H as ([] & p4 & H4 & H).
  assert (exists exp,
             (exp = "" \/
              exists e sg d,
                (e = "e" \/ e = "E") /\ (sg = "" \/ sg = "+" \/ sg = "-") /\
                digits d /\ exp = e ++ sg ++ d) /\
             p3 <= p4 /\ p4 <= size input /\
             substring p3 (p4 - p3) input = exp)
    as (exp & Hexp & L4 & L4' & S4).
  { destruct (size input <=? p3) eqn:E3; simpl in H4.
    { inversion H4; subst. exists ""; repeat split; auto.
      rewrite Nat.sub_diag. apply substring_zero. }
    apply Nat.leb_gt in E3.
    destruct (Ascii.eqb (char_at input p3) "e"
              || Ascii.eqb (char_at input p3) "E") eqn:C; simpl in H4.
    2:{ inversion H4; subst. exists ""; repeat split; auto; try lia.
        rewrite Nat.sub_diag. apply substring_zero. }
    rewrite bind_advance in H4.
    replace (size input <=? p3) with false in H4
      by (symmetry; apply Nat.leb_gt; lia).
    rewrite bind_not_eof_and in H4.
    apply bind_ok_inv in H4 as ([] & q0 & Hs & H4).
    assert (exists sg, (sg = "" \/ sg = "+" \/ sg = "-") /\ S p3 <= q0 /\
                       q0 <= size input /\
                       substring (S p3) (q0 - S p3) input = sg)
      as (sg & Hsg & Ls & Ls' & Ss).
    { destruct (size input <=? S p3) eqn:E3'; simpl in Hs.
      { inversion Hs; subst. exists ""; repeat split; auto; try lia.
        rewrite Nat.sub_diag. apply substring_zero. }
      apply Nat.leb_gt in E3'.
      destruct (Ascii.eqb (char_at input (S p3)) "+"
                || Ascii.eqb (char_at input (S p3)) "-") eqn:Cs;
        simpl in Hs.
      2:{ inversion Hs; subst. exists ""; repeat split; auto; try lia.
          rewrite Nat.sub_diag. apply substring_zero. }
      rewrite bind_advance in Hs.
      replace (size input <=? S p3) with false in Hs
        by (symmetry; apply Nat.leb_gt; lia).
      inversion Hs; subst.
      exists (String (char_at input (S p3)) ""); repeat split; auto;
        try lia.
      - apply orb_true_iff in Cs as [Cs|Cs]; apply Ascii.eqb_eq in Cs;
          rewrite Cs; auto.
      - replace (S (S p3) - S p3) with 1 by lia.
        apply substring_one, char_at_get. exact E3'. }
    clear Hs. rewrite bind_not_eof_and in H4.
    destruct (size input <=? q0) eqn:Eq; simpl in H4; [discriminate|].
    apply Nat.leb_gt in Eq.
    destruct (isdigit (char_at input q0)) eqn:D; simpl in H4;
      [|discriminate].
    destruct (digit_run input q0 Eq D) as (q & W & Q1 & Q2 & Dg).
    rewrite W in H4. inversion H4; subst.
    exists (String (char_at input p3) ""
            ++ substring (S p3) (q0 - S p3) input
            ++ substring q0 (p4 - q0) input).
    repeat split; auto; try lia.
    - right. exists (String (char_at input p3) ""),
        (substring (S p3) (q0 - S p3) input), (substring q0 (p4 - q0) input).
      repeat split; auto; try apply Dg.
      apply orb_true_iff in C as [C|C]; apply Ascii.eqb_eq in C;
        rewrite C; auto.
    - rewrite (substring_split input p3 (S p3) p4) by lia.
      replace (S p3 - p3) with 1 by lia.
      rewrite (substring_one _ _ _ (char_at_get input p3 E3)).
      now rewrite (substring_split input (S p3) q0 p4) by lia. }
  clear H4. rewrite bind_get_pos in H.
  unfold substr, lift, bind at 1 in H.
  replace (size input <? pos) with false in H
    by (symmetry; apply Nat.ltb_ge; lia).
  assert (substring pos (p4 - pos) input = sign ++ int ++ frac ++ exp) as S.
  { rewrite (substring_split input pos p1 p4) by lia.
    rewrite (substring_split input p1 p2 p4) by lia.
    rewrite (substring_split input p2 p3 p4) by lia.
    now rewrite S1, S2, S3, S4. }
  destruct (stod (substring pos (p4 - pos) input)) as [d|] eqn:Ed;
    [|discriminate].
  inversion H; subst pos' v. repeat split; try lia.
  - exists sign, int, frac, exp. auto.
  - exists d; auto.
Qed.

(** ** The parser accepts the JSON grammar *)

Lemma reads_le (input text : string) :
  forall pos, reads input pos text ->
              pos + String.length text <= String.length input.
Proof.
  induction text as [|ch text IH]; intros pos H; simpl in *; [lia|].
  destruct H as [_ H]. apply IH in H. lia.
Qed.

Lemma reads_app (input a b : string) :
  forall pos,
    reads input pos (a ++ b) <->
    reads input pos a /\ reads input (pos + String.length a) b.
Proof.
  induction a as [|ch a IH]; intros pos; simpl.
  - rewrite Nat.add_0_r. split; [|tauto].
    intros H; split; auto. apply reads_le in H. lia.
  - rewrite IH. replace (S pos + String.length a)
      with (pos + S (String.length a)) by lia. tauto.
Qed.

Lemma reads_suffix (text : string) :
  forall pre, reads (pre ++ text) (String.length pre) text.
Proof.
  induction text as [|ch text IH]; intros pre; simpl.
  - rewrite length_append. simpl. lia.
  - split; [apply get_append_at|].
    specialize (IH (pre ++ String ch "")).
    rewrite append_assoc, length_append in IH. simpl in IH.
    now rewrite Nat.add_1_r in IH.
Qed.

Lemma reads_all (input : string) : reads input 0 input.
Proof. exact (reads_suffix input ""). Qed.

Lemma reads_tail (ch : ascii) (input text : string) :
  forall pos, reads (String ch input) (S pos) text -> reads input pos text.
Proof.
  induction text as [|c text IH]; intros pos; simpl; [lia|].
  intros [G H]; split; auto.
Qed.

Lemma reads_substring (input : string) :
  forall text pos,
    reads input pos text -> substring pos (String.length text) input = text.
Proof.
  induction input as [|ch input IH]; intros text pos H.
  - pose proof (reads_le _ _ _ H) as L. simpl in L.
    destruct text; simpl in L; [|lia]. now destruct pos.
  - destruct pos as [|pos].
    + destruct text as [|c text]; [reflexivity|].
      simpl in H. destruct H as [G H]. injection G as ->.
      simpl. f_equal. apply IH. now apply reads_tail in H.
    + simpl. apply IH. now apply reads_tail in H.
Qed.

Lemma reads_head (input : string) (pos : nat) (ch : ascii) (text : string) :
  reads input pos (String ch text) ->
  char_at input pos = ch /\ (size input <=? pos) = false.
Proof. intros [G _]. now apply get_char_at. Qed.

Lemma stops_end (p : ascii -> bool) (input : string) (pos : nat) :
  String.length input <= pos -> stops p input pos.
Proof. intros H ch G. apply get_some_lt in G. lia. Qed.

Lemma stops_head (p : ascii -> bool) (input : string) (pos : nat)
  (ch : ascii) (text : string) :
  reads input pos (String ch text) -> p ch = false -> stops p input pos.
Proof. intros [G _] H c G'. congruence. Qed.

Lemma stops_cond (p : ascii -> bool) (input : string) (pos : nat) :
  stops p input pos ->
  negb (size input <=? pos) && p (char_at input pos) = false.
Proof.
  intros H. destruct (size input <=? pos) eqn:E; [reflexivity|].
  apply Nat.leb_gt in E. simpl. apply H. now apply char_at_get.
Qed.

Lemma while_advance_run (input : string) (p : ascii -> bool) (s : string) :
  all_bytes (fun ch => p ch = true) s ->
  forall n pos,
    reads input pos s -> stops p input (pos + String.length s) ->
    String.length s <= n ->
    while_advance input p n pos = Ok (tt, pos + String.length s).
Proof.
  induction s as [|ch s IH]; intros A n pos R St L; rewrite while_advance_eq.
  - simpl in *. rewrite Nat.add_0_r in *. now rewrite (stops_cond _ _ _ St).
  - destruct A as [Pc A]. pose proof (reads_head _ _ _ _ R) as [C E].
    rewrite E, C, Pc. simpl in L |- *. destruct n as [|n]; [lia|].
    destruct R as [_ R].
    rewrite (IH A n (S pos)); auto; try lia.
    + do 2 f_equal. lia.
    + now replace (S pos + String.length s)
        with (pos + S (String.length s)) by lia.
Qed.

Lemma all_bytes_impl (P Q : ascii -> Prop) (s : string) :
  (forall ch, P ch -> Q ch) -> all_bytes P s -> all_bytes Q s.
Proof. intros H; induction s as [|c s IH]; simpl; intuition. Qed.

Lemma c_locale_space_isspace (ch : ascii) :
  c_locale_space ch -> isspace ch = true.
Proof. apply isspace_c_locale. Qed.

Lemma skip_blank (input w : string) (pos : nat) :
  blank c_locale_space w -> reads input pos w ->
  stops isspace input (pos + String.length w) ->
  skip_whitespace input pos = Ok (tt, pos + String.length w).
Proof.
  intros B R St. apply while_advance_run; auto.
  - revert B. apply all_bytes_impl, c_locale_space_isspace.
  - apply reads_le in R. unfold size. lia.
Qed.

Lemma delimiter_facts (ch : ascii) :
  delimiter ch = true ->
  isdigit ch = false /\ Ascii.eqb ch "." = false /\
  (Ascii.eqb ch "e" || Ascii.eqb ch "E") = false.
Proof.
  destruct ch as [[] [] [] [] [] [] [] []]; vm_compute; auto; discriminate.
Qed.

Lemma follows_stops (p : ascii -> bool) (input : string) (pos : nat) :
  (forall ch, delimiter ch = true -> p ch = false) ->
  follows input pos -> stops p input pos.
Proof.
  intros H F ch G. apply H. apply F in G. now apply negb_false_iff in G.
Qed.

Lemma follows_head (input : string) (pos : nat) (ch : ascii)
  (text : string) :
  reads input pos (String ch text) -> delimiter ch = true ->
  follows input pos.
Proof. intros R D. apply (stops_head _ _ _ _ _ R). now rewrite D. Qed.

Lemma follows_blank (input w : string) (pos : nat) :
  blank c_locale_space w -> reads input pos w -> follows input (pos + String.length w) ->
  follows input pos.
Proof.
  destruct w as [|ch w]; simpl; intros B R F.
  - now rewrite Nat.add_0_r in F.
  - apply (follows_head _ _ ch w); [exact R|].
    destruct B as [B _]. apply c_locale_space_isspace in B.
    unfold delimiter. now rewrite B.
Qed.

Lemma match_reads (input text : string) (pos : nat) :
  reads input pos text ->
  match_ input text pos = Ok (true, pos + String.length text).
Proof.
  intros R. rewrite match_eq by (apply reads_le in R; unfold size; lia).
  now rewrite (reads_substring _ _ _ R), String.eqb_refl.
Qed.

Lemma parse_unicode_escape_hex (input : string) (pos : nat)
  (h1 h2 h3 h4 : ascii) (rest : string) :
  hex_digit h1 -> hex_digit h2 -> hex_digit h3 -> hex_digit h4 ->
  reads input pos (String h1 (String h2 (String h3 (String h4 rest)))) ->
  exists u, parse_unicode_escape input pos = Ok (u, pos + 4).
Proof.
  unfold hex_digit. intros H1 H2 H3 H4 (G1 & G2 & G3 & G4 & _).
  destruct (hex_digit_value h1) as [d1|] eqn:E1; [|congruence].
  destruct (hex_digit_value h2) as [d2|] eqn:E2; [|congruence].
  destruct (hex_digit_value h3) as [d3|] eqn:E3; [|congruence].
  destruct (hex_digit_value h4) as [d4|] eqn:E4; [|congruence].
  pose proof (hex_digit_value_cases _ _ E1) as [R1 _].
  pose proof (hex_digit_value_cases _ _ E2) as [R2 _].
  pose proof (hex_digit_value_cases _ _ E3) as [R3 _].
  pose proof (hex_digit_value_cases _ _ E4) as [R4 _].
  unfold parse_unicode_escape, bind.
  rewrite (unicode_digits_step _ _ _ _ _ _ G1 E1) by lia.
  rewrite (unicode_digits_step _ _ _ _ _ _ G2 E2) by lia.
  rewrite (unicode_digits_step _ _ _ _ _ _ G3 E3) by lia.
  rewrite (unicode_digits_step _ _ _ _ _ _ G4 E4) by lia.
  cbn [unicode_digits]. unfold ret.
  replace (pos + 4) with (S (S (S (S pos)))) by lia.
  destruct (_ <=? 127)%Z; eauto.
Qed.

Lemma parse_string_loop_unicode (double : Type) (input : string) (n : nat)
  (result : string) (pos : nat) (u : ascii) (pos' : nat) (rest : string) :
  reads input pos (String backslash (String "u" rest)) ->
  parse_unicode_escape input (S (S pos)) = Ok (u, pos') ->
  @parse_string_loop double input (S n) result pos =
  parse_string_loop input n (push_back result u) pos'.
Proof.
  intros (G1 & G2 & _) Hu.
  apply get_char_at in G1 as [C1 E1]. apply get_char_at in G2 as [C2 E2].
  simpl. rewrite bind_eof, E1, bind_advance, E1, C1. simpl.
  rewrite bind_eof, E2, bind_advance, E2, C2. simpl.
  rewrite bind_bind. now rewrite (bind_ok _ _ _ _ _ Hu).
Qed.

Lemma parse_string_loop_accepts (double : Type) (input body : string) :
  json_chars body ->
  forall pos n result,
    reads input pos (body ++ String dquote "") -> String.length body < n ->
    exists s,
      @parse_string_loop double input n result pos
      = Ok (JString s, pos + String.length body + 1).
Proof.
  induction 1 as [|ch rest Hraw _ IH|escaped rest He _ IH
                 |h1 h2 h3 h4 rest H1 H2 H3 H4 _ IH];
    intros pos n result R L; (destruct n as [|n]; [lia|]).
  - destruct R as [G _]. apply get_char_at in G as [C E].
    exists result. cbn [parse_string_loop].
    rewrite bind_eof, E, bind_advance, E, C.
    change (Ascii.eqb dquote dquote) with true. cbv iota. unfold ret.
    simpl. do 2 f_equal. lia.
  - destruct R as [G R]. simpl in L.
    rewrite (parse_string_loop_raw _ _ _ _ _ ch G Hraw).
    destruct (IH (S pos) n (push_back result ch) R ltac:(lia)) as (s & ->).
    exists s. simpl. do 2 f_equal. lia.
  - destruct R as (G1 & G2 & R). simpl in L.
    replace (S pos) with (pos + 1) in G2 by lia.
    pose proof (parse_string_loop_escape double input n result pos escaped
                  G1 G2) as Hs.
    destruct (simple_escape escaped) as [ch|]; [|congruence].
    rewrite Hs.
    replace (S (S pos)) with (pos + 2) in R by lia.
    destruct (IH (pos + 2) n (push_back result ch) R ltac:(lia))
      as (s & ->).
    exists s. simpl. do 2 f_equal. lia.
  - simpl in L.
    assert (reads input (S (S pos))
              (String h1 (String h2 (String h3 (String h4
                 (rest ++ String dquote "")))))) as Rh
        by (destruct R as (_ & _ & R); exact R).
    destruct (parse_unicode_escape_hex _ _ _ _ _ _ _ H1 H2 H3 H4 Rh)
      as (u & Hu).
    rewrite (parse_string_loop_unicode _ _ _ _ _ _ _ _ R Hu).
    destruct Rh as (_ & _ & _ & _ & Rr).
    replace (S (S (S (S (S (S pos)))))) with (S (S pos) + 4) in Rr by lia.
    destruct (IH (S (S pos) + 4) n (push_back result u) Rr ltac:(lia))
      as (s & ->).
    exists s. simpl. do 2 f_equal. lia.
Qed.

Lemma parse_string_accepts (double : Type) (input s : string) (pos : nat) :
  json_string s -> reads input pos s ->
  exists text,
    @parse_string double input pos
    = Ok (JString text, pos + String.length s).
Proof.
  intros (body & Hb & ->) R.
  pose proof (reads_le _ _ _ R) as L. simpl in L.
  rewrite length_append in L. simpl in L.
  pose proof (reads_head _ _ _ _ R) as [C E]. destruct R as [_ R].
  unfold parse_string, bind at 1. rewrite expect_char_eq, E, C.
  change (negb (Ascii.eqb dquote dquote)) with false. cbv iota. simpl orb.
  destruct (parse_string_loop_accepts double input body Hb (S pos)
              (size input) "" R) as (text & ->);
    [unfold size; lia|].
  exists text. simpl. rewrite length_append. simpl. do 2 f_equal. lia.
Qed.

Lemma digits_head (d : string) :
  digits d -> exists c r, d = String c r /\ isdigit c = true.
Proof.
  intros [N A]. destruct d as [|c r]; [congruence|].
  destruct A as [A _]. eauto.
Qed.

Lemma digits_run (input d : string) (pos : nat) :
  digits d -> reads input pos d ->
  stops isdigit input (pos + String.length d) ->
  while_advance input isdigit (size input) pos
  = Ok (tt, pos + String.length d).
Proof.
  intros [_ A] R St. apply while_advance_run; auto.
  apply reads_le in R. unfold size. lia.
Qed.

Lemma stops_text (p : ascii -> bool) (input : string) (pos : nat)
  (text : string) :
  reads input pos text -> follows input (pos + String.length text) ->
  (forall ch, delimiter ch = true -> p ch = false) ->
  (forall c r, text = String c r -> p c = false) ->
  stops p input pos.
Proof.
  intros R F Hd Hh. destruct text as [|c r].
  - simpl in F. rewrite Nat.add_0_r in F. now apply follows_stops.
  - apply (stops_head _ _ _ _ _ R). now apply (Hh c r).
Qed.

Lemma digit_cond (input : string) (pos : nat) (d : string) :
  digits d -> reads input pos d ->
  negb (size input <=? pos) && isdigit (char_at input pos) = true.
Proof.
  intros D R. destruct (digits_head d D) as (c & r & -> & Hc).
  apply reads_head in R as [C E]. now rewrite E, C, Hc.
Qed.

Lemma fraction_accepts (input : string) (pos : nat) (d : string) :
  digits d -> reads input pos (String "." d) ->
  stops isdigit input (pos + 1 + String.length d) ->
  (advance input ;;;
   dd <- not_eof_and input isdigit ;;
   if negb dd then throw (ParseError "Invalid number fraction")
   else while_advance input isdigit (size input)) pos
  = Ok (tt, pos + 1 + String.length d).
Proof.
  intros D R St. pose proof (reads_head _ _ _ _ R) as [C E].
  destruct R as [_ R]. rewrite bind_advance, E, bind_not_eof_and.
  rewrite (digit_cond input (S pos) d) by assumption.
  cbn [negb]. replace (pos + 1) with (S pos) in * by lia.
  now apply digits_run.
Qed.

Lemma exponent_accepts (input : string) (pos : nat) (e sg d : string) :
  e = "e" \/ e = "E" -> sg = "" \/ sg = "+" \/ sg = "-" -> digits d ->
  reads input pos (e ++ sg ++ d) ->
  stops isdigit input (pos + String.length (e ++ sg ++ d)) ->
  (advance input ;;;
   sign <- not_eof_and input
             (fun ch => Ascii.eqb ch "+" || Ascii.eqb ch "-") ;;
   (if sign then advance input ;;; ret tt else ret tt) ;;;
   dd <- not_eof_and input isdigit ;;
   if negb dd then throw (ParseError "Invalid number exponent")
   else while_advance input isdigit (size input)) pos
  = Ok (tt, pos + String.length (e ++ sg ++ d)).
Proof.
  intros He Hs D R St.
  assert (exists c, e = String c "") as (c & ->)
      by (destruct He as [-> | ->]; eauto).
  cbn [append String.length] in *.
  pose proof (reads_head _ _ _ _ R) as [C E]. destruct R as [_ R].
  rewrite bind_advance, E, bind_not_eof_and.
  destruct Hs as [->|Hs].
  - cbn [append String.length] in *.
    destruct (digits_head d D) as (c1 & r & -> & Hc).
    pose proof (reads_head _ _ _ _ R) as [C1 E1]. rewrite E1, C1.
    assert (Ascii.eqb c1 "+" || Ascii.eqb c1 "-" = false) as ->.
    { revert Hc. clear. destruct c1 as [[] [] [] [] [] [] [] []];
        vm_compute; auto; discriminate. }
    cbn [negb andb]. rewrite bind_ret, bind_not_eof_and, E1, C1, Hc.
    cbn [negb andb].
    replace (pos + S (String.length (String c1 r)))
      with (S pos + String.length (String c1 r)) in * by lia.
    now apply digits_run.
  - assert (exists s, sg = String s "" /\
                      Ascii.eqb s "+" || Ascii.eqb s "-" = true)
      as (s & -> & Hsg) by (destruct Hs as [-> | ->]; eauto).
    cbn [append String.length] in *.
    pose proof (reads_head _ _ _ _ R) as [C1 E1]. destruct R as [_ R].
    rewrite E1, C1, Hsg. cbn [negb andb].
    rewrite bind_bind, bind_advance, E1, bind_ret, bind_not_eof_and.
    rewrite (digit_cond input (S (S pos)) d) by assumption.
    cbn [negb].
    replace (pos + S (S (String.length d)))
      with (S (S pos) + String.length d) in * by lia.
    now apply digits_run.
Qed.

Lemma sign_accepts {B : Type} (input sign int : string) (pos : nat)
  (K : unit -> M B) :
  sign = "" \/ sign = "-" ->
  (exists c r, int = String c r /\ isdigit c = true) ->
  reads input pos (sign ++ int) ->
  bind (peek input)
    (fun ch =>
       bind (if Ascii.eqb ch "-" then advance input ;;; ret tt else ret tt)
         K) pos
  = K tt (pos + String.length sign).
Proof.
  intros [-> | ->] (c & r & -> & Hc) R; cbn [append String.length] in *;
    pose proof (reads_head _ _ _ _ R) as [C E]; rewrite bind_peek, E, C.
  - assert (Ascii.eqb c "-" = false) as ->.
    { revert Hc. clear. destruct c as [[] [] [] [] [] [] [] []];
        vm_compute; auto; discriminate. }
    now rewrite bind_ret, Nat.add_0_r.
  - change (Ascii.eqb "-" "-") with true. cbv iota.
    rewrite bind_bind, bind_advance, E, bind_ret.
    now replace (pos + 1) with (S pos) by lia.
Qed.

Lemma integer_head (int : string) :
  int = "0" \/ digits int /\ String.get 0 int <> Some "0"%char ->
  exists c r, int = String c r /\ isdigit c = true.
Proof.
  intros [->|[D _]]; [now exists "0"%char, ""|]. now apply digits_head.
Qed.

Lemma integer_accepts {B : Type} (input int : string) (pos : nat)
  (K : unit -> M B) :
  int = "0" \/ digits int /\ String.get 0 int <> Some "0"%char ->
  reads input pos int ->
  stops isdigit input (pos + String.length int) ->
  bind (peek input)
    (fun ch =>
       bind (if Ascii.eqb ch "0" then advance input ;;; ret tt
             else if isdigit ch
             then while_advance input isdigit (size input)
             else throw (ParseError "Invalid number"))
         K) pos
  = K tt (pos + String.length int).
Proof.
  intros [->|[D Z]] R St.
  - pose proof (reads_head _ _ _ _ R) as [C E]. rewrite bind_peek, E, C.
    change (Ascii.eqb "0" "0") with true. cbv iota.
    rewrite bind_bind, bind_advance, E, bind_ret.
    now replace (pos + String.length "0") with (S pos) by (simpl; lia).
  - destruct (digits_head int D) as (c & r & -> & Hc).
    pose proof (reads_head _ _ _ _ R) as [C E]. rewrite bind_peek, E, C.
    destruct (Ascii.eqb_spec c "0") as [->|_];
      [now contradiction Z|].
    rewrite Hc. now rewrite (bind_ok _ _ _ _ _ (digits_run _ _ _ D R St)).
Qed.

Lemma fraction_stage {B : Type} (input frac : string) (pos : nat)
  (K : unit -> M B) :
  frac = "" \/ (exists d, digits d /\ frac = "." ++ d) ->
  reads input pos frac ->
  stops isdigit input (pos + String.length frac) ->
  stops (fun ch => Ascii.eqb ch ".") input (pos + String.length frac) ->
  bind (not_eof_and input (fun ch => Ascii.eqb ch "."))
    (fun dot =>
       bind (if dot then
               advance input ;;;
               d <- not_eof_and input isdigit ;;
               if negb d then throw (ParseError "Invalid number fraction")
               else while_advance input isdigit (size input)
             else ret tt)
         K) pos
  = K tt (pos + String.length frac).
Proof.
  intros [->|(d & D & ->)] R Sd Sp; rewrite bind_not_eof_and.
  - simpl in Sp. rewrite Nat.add_0_r in *.
    now rewrite (stops_cond _ _ _ Sp), bind_ret.
  - cbn [append String.length] in *.
    pose proof (reads_head _ _ _ _ R) as [C E]. rewrite E, C.
    change (negb false && Ascii.eqb "." ".") with true. cbv iota.
    replace (pos + S (String.length d)) with (pos + 1 + String.length d)
      in * by lia.
    now rewrite (bind_ok _ _ _ _ _ (fraction_accepts _ _ _ D R Sd)).
Qed.

Lemma exponent_stage {B : Type} (input exp : string) (pos : nat)
  (K : unit -> M B) :
  exp = "" \/
  (exists e sg d,
      (e = "e" \/ e = "E") /\ (sg = "" \/ sg = "+" \/ sg = "-") /\
      digits d /\ exp = e ++ sg ++ d) ->
  reads input pos exp ->
  stops isdigit input (pos + String.length exp) ->
  stops (fun ch => Ascii.eqb ch "e" || Ascii.eqb ch "E") input
    (pos + String.length exp) ->
  bind (not_eof_and input (fun ch => Ascii.eqb ch "e" || Ascii.eqb ch "E"))
    (fun ex =>
       bind (if ex then
               advance input ;;;
               sign <- not_eof_and input
                         (fun ch => Ascii.eqb ch "+" || Ascii.eqb ch "-") ;;
               (if sign then advance input ;;; ret tt else ret tt) ;;;
               d <- not_eof_and input isdigit ;;
               if negb d then throw (ParseError "Invalid number exponent")
               else while_advance input isdigit (size input)
             else ret tt)
         K) pos
  = K tt (pos + String.length exp).
Proof.
  intros [->|(e & sg & d & He & Hs & D & ->)] R Sd Se;
    rewrite bind_not_eof_and.
  - simpl in Se. rewrite Nat.add_0_r in *.
    now rewrite (stops_cond _ _ _ Se), bind_ret.
  - assert (negb (size input <=? pos) &&
            (Ascii.eqb (char_at input pos) "e" ||
             Ascii.eqb (char_at input pos) "E") = true) as ->.
    { destruct He as [-> | ->]; cbn [append] in R;
        apply reads_head in R as [C E]; now rewrite E, C. }
    now rewrite (bind_ok _ _ _ _ _ (exponent_accepts _ _ _ _ _ He Hs D R Sd)).
Qed.

Lemma number_tail_head (frac exp : string) (c : ascii) (r : string) :
  frac = "" \/ (exists d, digits d /\ frac = "." ++ d) ->
  exp = "" \/
  (exists e sg d,
      (e = "e" \/ e = "E") /\ (sg = "" \/ sg = "+" \/ sg = "-") /\
      digits d /\ exp = e ++ sg ++ d) ->
  frac ++ exp = String c r ->
  c = "."%char \/ c = "e"%char \/ c = "E"%char.
Proof.
  intros [->|(d & _ & ->)] He H; [|injection H as <- _; auto].
  destruct He as [->|(e & sg & d & [-> | ->] & _ & _ & ->)];
    [discriminate| |]; injection H as <- _; auto.
Qed.

Lemma parse_number_accepts (double : Type) (stod : string -> option double)
  (input lexeme : string) (pos : nat) (d : double) :
  json_number lexeme -> reads input pos lexeme ->
  follows input (pos + String.length lexeme) -> stod lexeme = Some d ->
  parse_number stod input pos = Ok (JNumber d, pos + String.length lexeme).
Proof.
  intros (sign & int & frac & exp & -> & Hsign & Hint & Hfrac & Hexp) R F Hd.
  pose proof (reads_substring _ _ _ R) as Hsub.
  pose proof (reads_le _ _ _ R) as Hle.
  pose proof R as R0.
  apply reads_app in R as [Rs R]. apply reads_app in R as [Ri R].
  pose proof R as Rfe. apply reads_app in R as [Rf Re].
  rewrite !length_append in *.
  set (p1 := pos + String.length sign) in *.
  set (p2 := p1 + String.length int) in *.
  set (p3 := p2 + String.length frac) in *.
  assert (pos + (String.length sign +
                 (String.length int +
                  (String.length frac + String.length exp)))
          = p3 + String.length exp) as Hp4 by (unfold p3, p2, p1; lia).
  rewrite Hp4 in *.
  assert (forall p, (forall ch, delimiter ch = true -> p ch = false) ->
                    stops p input (p3 + String.length exp)) as S4
      by (intros p Hp; now apply follows_stops).
  assert (stops isdigit input (p3 + String.length exp)) as S4d
      by (apply S4; intros ch D; now apply delimiter_facts in D).
  assert (stops (fun ch => Ascii.eqb ch "e" || Ascii.eqb ch "E") input
            (p3 + String.length exp)) as S4e
      by (apply S4; intros ch D; now apply delimiter_facts in D).
  assert (stops isdigit input p3) as S3d.
  { apply (stops_text _ _ _ exp); auto.
    - intros ch D; now apply delimiter_facts in D.
    - intros c r E.
      destruct (number_tail_head "" exp c r (or_introl eq_refl) Hexp E)
        as [->|[->| ->]]; reflexivity. }
  assert (stops (fun ch => Ascii.eqb ch ".") input p3) as S3p.
  { apply (stops_text _ _ _ exp); auto.
    - intros ch D; now apply delimiter_facts in D.
    - intros c r E.
      destruct (number_tail_head "" exp c r (or_introl eq_refl) Hexp E)
        as [->|[->| ->]]; try reflexivity.
      destruct Hexp as [->|(e & sg & d' & [-> | ->] & _ & _ & ->)];
        discriminate. }
  assert (stops isdigit input p2) as S2d.
  { apply (stops_text _ _ _ (frac ++ exp)); auto.
    - rewrite length_append. unfold p3 in F.
      now rewrite Nat.add_assoc.
    - intros ch D; now apply delimiter_facts in D.
    - intros c r E.
      destruct (number_tail_head frac exp c r Hfrac Hexp E)
        as [->|[->| ->]]; reflexivity. }
  unfold parse_number. rewrite bind_get_pos.
  rewrite (sign_accepts input sign int pos) by
    (auto using integer_head; apply reads_app; auto).
  fold p1. rewrite bind_eof.
  destruct (integer_head int Hint) as (c & r & Ec & _).
  assert ((size input <=? p1) = false) as ->
      by (rewrite Ec in Ri; now apply reads_head in Ri).
  rewrite (integer_accepts input int p1) by auto. fold p2.
  rewrite (fraction_stage input frac p2) by auto. fold p3.
  rewrite (exponent_stage input exp p3) by auto.
  rewrite bind_get_pos. unfold substr.
  replace (size input <? pos) with false
    by (symmetry; apply Nat.ltb_ge; unfold size; lia).
  rewrite bind_lift_ok.
  replace (p3 + String.length exp - pos)
    with (String.length sign +
          (String.length int + (String.length frac + String.length exp)))
    by lia.
  now rewrite Hsub, Hd.
Qed.

Lemma value_start_facts (ch : ascii) :
  value_start ch = true ->
  isspace ch = false /\ Ascii.eqb ch "]" = false /\
  Ascii.eqb ch "}" = false.
Proof.
  destruct ch as [[] [] [] [] [] [] [] []]; vm_compute; auto; discriminate.
Qed.

Lemma number_start_facts (ch : ascii) :
  Ascii.eqb ch "-" || isdigit ch = true ->
  Ascii.eqb ch "n" = false /\
  Ascii.eqb ch "t" || Ascii.eqb ch "f" = false /\
  Ascii.eqb ch dquote = false /\ Ascii.eqb ch "[" = false /\
  Ascii.eqb ch "{" = false.
Proof.
  destruct ch as [[] [] [] [] [] [] [] []]; vm_compute; auto; discriminate.
Qed.

Lemma json_number_head (lexeme : string) :
  json_number lexeme ->
  exists c r, lexeme = String c r /\ Ascii.eqb c "-" || isdigit c = true.
Proof.
  intros (sign & int & frac & exp & -> & Hsign & Hint & _).
  destruct Hsign as [-> | ->]; [|now eexists _, _].
  destruct (integer_head int Hint) as (c & r & -> & Hc).
  exists c, (r ++ frac ++ exp). split; [reflexivity|].
  rewrite Hc. apply orb_true_r.
Qed.

Lemma json_part_head (ws : ascii -> Prop) (number : string -> Prop) (kind : part)
  (text : string) :
  json_part ws number kind text ->
  exists c r,
    text = String c r /\
    match kind with
    | some_members => c = dquote
    | _ => value_start c = true
    end.
Proof.
  induction 1 as [| | |s Hs _|s Hs|w _|w es _ _ _|w _|w ms _ _ _
                 |v w _ IH _|v w1 w2 rest _ IH _ _ _ _
                 |key w1 w2 v w3 Hk _ _ _ _ _
                 |key w1 w2 v w3 w4 rest Hk _ _ _ _ _ _ _ _];
    try (eexists _, _; split; reflexivity).
  - destruct (json_number_head s Hs) as (c & r & -> & Hc).
    exists c, r; split; auto. unfold value_start.
    apply orb_true_iff in Hc as [-> | ->]; now rewrite ?orb_true_r.
  - destruct Hs as (body & _ & ->). now eexists _, _.
  - destruct IH as (c & r & -> & Hc). now exists c, (r ++ w).
  - destruct IH as (c & r & -> & Hc).
    now exists c, (r ++ w1 ++ "," ++ w2 ++ rest).
  - destruct Hk as (body & _ & ->). now eexists _, _.
  - destruct Hk as (body & _ & ->). now eexists _, _.
Qed.

Lemma stops_isspace_head (input : string) (pos : nat) (ch : ascii)
  (text : string) :
  reads input pos (String ch text) -> isspace ch = false ->
  stops isspace input pos.
Proof. apply stops_head. Qed.

(** The whitespace [w] and then the character [ch], which is no
    whitespace: the cursor after them and what [peek] sees there. *)
Lemma skip_blank_then (input w : string) (pos : nat) (ch : ascii)
  (text : string) :
  blank c_locale_space w -> reads input pos (w ++ String ch text) -> isspace ch = false ->
  skip_whitespace input pos = Ok (tt, pos + String.length w) /\
  char_at input (pos + String.length w) = ch /\
  (size input <=? pos + String.length w) = false /\
  reads input (S (pos + String.length w)) text.
Proof.
  intros B R Hc. apply reads_app in R as [Rw R].
  pose proof (reads_head _ _ _ _ R) as [C E].
  repeat split; auto; [|now destruct R].
  apply skip_blank; auto. now apply (stops_head _ _ _ ch text).
Qed.

Section Accepts.

Context {double : Type}.
Variable input : string.
Variable pv : M (JsonValue double).

Lemma empty_array_accepts (n pos : nat) (w : string) :
  blank c_locale_space w -> reads input pos ("[" ++ w ++ "]") ->
  parse_array input pv n pos
  = Ok (JArray [], pos + String.length ("[" ++ w ++ "]")).
Proof.
  intros B R. cbn [append] in R. pose proof (reads_head _ _ _ _ R) as [C E].
  destruct R as [_ R].
  destruct (skip_blank_then _ _ _ _ _ B R eq_refl) as (W & C1 & E1 & _).
  unfold parse_array. unfold bind at 1. rewrite expect_char_eq, E, C.
  change (false || negb (Ascii.eqb "[" "[")) with false. cbv iota.
  rewrite (bind_ok _ _ _ _ _ W), bind_peek, E1, C1.
  change (Ascii.eqb "]" "]") with true. cbv iota.
  rewrite bind_advance, E1. unfold ret. do 2 f_equal.
  cbn [append String.length]. rewrite length_append. simpl. lia.
Qed.

Lemma array_accepts (n pos : nat) (w : string) (c : ascii) (r : string) :
  blank c_locale_space w -> reads input pos ("[" ++ w ++ String c r) ->
  value_start c = true ->
  parse_array input pv n pos
  = parse_array_loop input pv n [] (S pos + String.length w).
Proof.
  intros B R Hc. cbn [append] in R.
  pose proof (reads_head _ _ _ _ R) as [C E]. destruct R as [_ R].
  apply value_start_facts in Hc as (Hs & Hb & _).
  destruct (skip_blank_then _ _ _ _ _ B R Hs) as (W & C1 & E1 & _).
  unfold parse_array. unfold bind at 1. rewrite expect_char_eq, E, C.
  change (false || negb (Ascii.eqb "[" "[")) with false. cbv iota.
  now rewrite (bind_ok _ _ _ _ _ W), bind_peek, E1, C1, Hb.
Qed.

Lemma last_element_accepts (n pos p1 : nat) (array : JsonArray double)
  (value : JsonValue double) (w text : string) :
  pv pos = Ok (value, p1) -> blank c_locale_space w ->
  reads input p1 (w ++ String "]" text) ->
  parse_array_loop input pv (S n) array pos
  = Ok (JArray (array ++ [value])%list, S (p1 + String.length w)).
Proof.
  intros V B R.
  destruct (skip_blank_then _ _ _ _ _ B R eq_refl) as (W & C1 & E1 & _).
  cbn [parse_array_loop]. rewrite (bind_ok _ _ _ _ _ V). cbv zeta.
  rewrite (bind_ok _ _ _ _ _ W), bind_peek, E1, C1.
  change (Ascii.eqb "]" ",") with false. cbv iota.
  rewrite bind_peek, E1, C1. change (Ascii.eqb "]" "]") with true. cbv iota.
  now rewrite bind_advance, E1.
Qed.

Lemma next_element_accepts (n pos p1 : nat) (array : JsonArray double)
  (value : JsonValue double) (w1 w2 : string) (c : ascii) (r : string) :
  pv pos = Ok (value, p1) -> blank c_locale_space w1 -> blank c_locale_space w2 ->
  reads input p1 (w1 ++ "," ++ w2 ++ String c r) -> value_start c = true ->
  parse_array_loop input pv (S n) array pos
  = parse_array_loop input pv n (array ++ [value])%list
      (S (p1 + String.length w1) + String.length w2).
Proof.
  intros V B1 B2 R Hc. cbn [append] in R.
  apply value_start_facts in Hc as (Hs & _).
  destruct (skip_blank_then _ _ _ _ _ B1 R eq_refl) as (W & C1 & E1 & R2).
  destruct (skip_blank_then _ _ _ _ _ B2 R2 Hs) as (W2 & _).
  cbn [parse_array_loop]. rewrite (bind_ok _ _ _ _ _ V). cbv zeta.
  rewrite (bind_ok _ _ _ _ _ W), bind_peek, E1, C1.
  change (Ascii.eqb "," ",") with true. cbv iota.
  now rewrite bind_advance, E1, (bind_ok _ _ _ _ _ W2).
Qed.

Lemma empty_object_accepts (n pos : nat) (w : string) :
  blank c_locale_space w -> reads input pos ("{" ++ w ++ "}") ->
  parse_object input pv n pos
  = Ok (JObject [], pos + String.length ("{" ++ w ++ "}")).
Proof.
  intros B R. cbn [append] in R. pose proof (reads_head _ _ _ _ R) as [C E].
  destruct R as [_ R].
  destruct (skip_blank_then _ _ _ _ _ B R eq_refl) as (W & C1 & E1 & _).
  unfold parse_object. unfold bind at 1. rewrite expect_char_eq, E, C.
  change (false || negb (Ascii.eqb "{" "{")) with false. cbv iota.
  rewrite (bind_ok _ _ _ _ _ W), bind_peek, E1, C1.
  change (Ascii.eqb "}" "}") with true. cbv iota.
  rewrite bind_advance, E1. unfold ret. do 2 f_equal.
  cbn [append String.length]. rewrite length_append. simpl. lia.
Qed.

Lemma object_accepts (n pos : nat) (w r : string) :
  blank c_locale_space w -> reads input pos ("{" ++ w ++ String dquote r) ->
  parse_object input pv n pos
  = parse_object_loop input pv n [] (S pos + String.length w).
Proof.
  intros B R. cbn [append] in R.
  pose proof (reads_head _ _ _ _ R) as [C E]. destruct R as [_ R].
  destruct (skip_blank_then _ _ _ _ _ B R eq_refl) as (W & C1 & E1 & _).
  unfold parse_object. unfold bind at 1. rewrite expect_char_eq, E, C.
  change (false || negb (Ascii.eqb "{" "{")) with false. cbv iota.
  rewrite (bind_ok _ _ _ _ _ W), bind_peek, E1, C1.
  change (Ascii.eqb dquote "}") with false. reflexivity.
Qed.

(** A key, a colon and the whitespace around it, up to the value. *)
Lemma key_accepts (pos : nat) (key w1 w2 : string) (c : ascii) (r : string)
  (K : string -> M (JsonValue double)) :
  json_string key -> blank c_locale_space w1 -> blank c_locale_space w2 ->
  reads input pos (key ++ w1 ++ ":" ++ w2 ++ String c r) ->
  value_start c = true ->
  exists name,
    (ch <- peek input ;;
     if negb (Ascii.eqb ch dquote)
     then throw (ParseError "Expected string key in object")
     else
       s <- @parse_string double input ;;
       key <- lift (as_string s) ;;
       skip_whitespace input ;;;
       expect_char input ":" ;;;
       skip_whitespace input ;;; K key) pos
    = K name
        (S (pos + String.length key + String.length w1) + String.length w2).
Proof.
  intros Hk B1 B2 R Hc. apply reads_app in R as [Rk R].
  apply value_start_facts in Hc as (Hs & _).
  destruct (parse_string_accepts double input key pos Hk Rk) as (name & P).
  destruct Hk as (body & _ & ->).
  pose proof (reads_head _ _ _ _ Rk) as [C E]. cbn [append] in R.
  destruct (skip_blank_then _ _ _ _ _ B1 R eq_refl) as (W & C1 & E1 & R2).
  destruct (skip_blank_then _ _ _ _ _ B2 R2 Hs) as (W2 & _).
  exists name. rewrite bind_peek, E, C.
  change (negb (Ascii.eqb dquote dquote)) with false. cbv iota.
  rewrite (bind_ok _ _ _ _ _ P). cbn [as_string]. rewrite bind_lift_ok.
  rewrite (bind_ok _ _ _ _ _ W). unfold bind at 1.
  rewrite expect_char_eq, E1, C1.
  change (false || negb (Ascii.eqb ":" ":")) with false. cbv iota.
  now rewrite (bind_ok _ _ _ _ _ W2).
Qed.

End Accepts.

Lemma follows_blank_head (input w : string) (pos : nat) (ch : ascii)
  (text : string) :
  blank c_locale_space w -> reads input pos (w ++ String ch text) -> delimiter ch = true ->
  follows input pos.
Proof.
  intros B R D. apply reads_app in R as [Rw R].
  apply (follows_blank _ w); auto. now apply (follows_head _ _ ch text).
Qed.

Section AcceptsMembers.

Context {double : Type}.
Variable input : string.
Variable pv : M (JsonValue double).

Lemma last_member_accepts (n pos p4 p5 : nat) (object : JsonObject double)
  (key w1 w2 w3 text : string) (c : ascii) (r : string)
  (value : JsonValue double) :
  json_string key -> blank c_locale_space w1 -> blank c_locale_space w2 -> blank c_locale_space w3 ->
  reads input pos (key ++ w1 ++ ":" ++ w2 ++ String c r) ->
  value_start c = true ->
  p4 = S (pos + String.length key + String.length w1) + String.length w2 ->
  pv p4 = Ok (value, p5) ->
  reads input p5 (w3 ++ String "}" text) ->
  exists result,
    parse_object_loop input pv (S n) object pos
    = Ok (result, S (p5 + String.length w3)).
Proof.
  intros Hk B1 B2 B3 R Hc -> V R3.
  destruct (skip_blank_then _ _ _ _ _ B3 R3 eq_refl) as (W & C1 & E1 & _).
  cbn [parse_object_loop].
  match goal with
  | |- context [bind (peek input) (fun ch => if _ then _ else
         bind _ (fun s => bind _ (fun key => bind _ (fun _ =>
         bind _ (fun _ => bind _ (fun _ => @?K key))))))] =>
      destruct (key_accepts input pos key w1 w2 c r K Hk B1 B2 R Hc)
        as (name & ->)
  end.
  cbv beta. rewrite (bind_ok _ _ _ _ _ V). cbv zeta.
  rewrite (bind_ok _ _ _ _ _ W), bind_peek, E1, C1.
  change (Ascii.eqb "}" ",") with false. cbv iota.
  rewrite bind_peek, E1, C1. change (Ascii.eqb "}" "}") with true. cbv iota.
  rewrite bind_advance, E1. unfold ret. eauto.
Qed.

Lemma next_member_accepts (n pos p4 p5 : nat) (object : JsonObject double)
  (key w1 w2 w3 w4 rest : string) (c : ascii) (r : string)
  (value : JsonValue double) :
  json_string key -> blank c_locale_space w1 -> blank c_locale_space w2 -> blank c_locale_space w3 -> blank c_locale_space w4 ->
  reads input pos (key ++ w1 ++ ":" ++ w2 ++ String c r) ->
  value_start c = true ->
  p4 = S (pos + String.length key + String.length w1) + String.length w2 ->
  pv p4 = Ok (value, p5) ->
  reads input p5 (w3 ++ "," ++ w4 ++ String dquote rest) ->
  exists object',
    parse_object_loop input pv (S n) object pos
    = parse_object_loop input pv n object'
        (S (p5 + String.length w3) + String.length w4).
Proof.
  intros Hk B1 B2 B3 B4 R Hc -> V R3. cbn [append] in R3.
  destruct (skip_blank_then _ _ _ _ _ B3 R3 eq_refl) as (W & C1 & E1 & R4).
  destruct (skip_blank_then _ _ _ _ _ B4 R4 eq_refl) as (W4 & _).
  cbn [parse_object_loop].
  match goal with
  | |- context [bind (peek input) (fun ch => if _ then _ else
         bind _ (fun s => bind _ (fun key => bind _ (fun _ =>
         bind _ (fun _ => bind _ (fun _ => @?K key))))))] =>
      destruct (key_accepts input pos key w1 w2 c r K Hk B1 B2 R Hc)
        as (name & ->)
  end.
  cbv beta. rewrite (bind_ok _ _ _ _ _ V). cbv zeta.
  rewrite (bind_ok _ _ _ _ _ W), bind_peek, E1, C1.
  change (Ascii.eqb "," ",") with true. cbv iota.
  rewrite bind_advance, E1, (bind_ok _ _ _ _ _ W4). eauto.
Qed.

End AcceptsMembers.

Section AcceptsGrammar.

Context {double : Type}.
Variable stod : string -> option double.
Variable input : string.

Lemma json_part_accepts (kind : part) (text : string) :
  json_part c_locale_space (fun lexeme => stod lexeme <> None) kind text ->
  match kind with
  | a_value =>
      forall pos fuel,
        reads input pos text -> follows input (pos + String.length text) ->
        String.length text < fuel ->
        exists v, parse_value stod input fuel pos
                  = Ok (v, pos + String.length text)
  | some_elements =>
      forall pos fuel n array closer,
        reads input pos (text ++ String "]" closer) ->
        String.length text < fuel -> String.length text < n ->
        exists v,
          parse_array_loop input (parse_value stod input fuel) n array pos
          = Ok (v, S (pos + String.length text))
  | some_members =>
      forall pos fuel n object closer,
        reads input pos (text ++ String "}" closer) ->
        String.length text < fuel -> String.length text < n ->
        exists v,
          parse_object_loop input (parse_value stod input fuel) n object pos
          = Ok (v, S (pos + String.length text))
  end.
Proof.
  induction 1 as [| | |s Hs Hn|s Hs|w B|w es B Hes IH|w B|w ms B Hms IH
                 |v w Hv IH B|v w1 w2 rest Hv IHv B1 B2 Hrest IH
                 |key w1 w2 v w3 Hk B1 B2 Hv IH B3
                 |key w1 w2 v w3 w4 rest Hk B1 B2 Hv IHv B3 B4 Hrest IH].
  - (* null *)
    intros pos [|fuel] R F L; [lia|].
    pose proof (reads_head _ _ _ _ R) as [C E].
    rewrite parse_value_eq, E, C. cbv zeta.
    change (Ascii.eqb "n" "n") with true. cbv iota.
    unfold parse_null, expect. rewrite bind_bind.
    rewrite (bind_ok _ _ _ _ _ (match_reads _ _ _ R)). now exists JNull.
  - (* true *)
    intros pos [|fuel] R F L; [lia|].
    pose proof (reads_head _ _ _ _ R) as [C E].
    rewrite parse_value_eq, E, C. cbv zeta.
    change (Ascii.eqb "t" "n") with false.
    change (Ascii.eqb "t" "t" || Ascii.eqb "t" "f") with true. cbv iota.
    unfold parse_bool.
    rewrite (bind_ok _ _ _ _ _ (match_reads _ _ _ R)). now exists (JBool true).
  - (* false *)
    intros pos [|fuel] R F L; [lia|].
    pose proof (reads_head _ _ _ _ R) as [C E].
    rewrite parse_value_eq, E, C. cbv zeta.
    change (Ascii.eqb "f" "n") with false.
    change (Ascii.eqb "f" "t" || Ascii.eqb "f" "f") with true. cbv iota.
    unfold parse_bool. unfold bind at 1.
    rewrite match_eq by (apply reads_le in R; unfold size; lia).
    assert (reads input pos "fals") as R4
        by (apply (reads_app input "fals" "e") in R; tauto).
    change (String.length "true") with (String.length "fals").
    rewrite (reads_substring _ _ _ R4).
    change ("fals" =? "true")%string with false. cbv iota.
    rewrite (bind_ok _ _ _ _ _ (match_reads _ _ _ R)).
    now exists (JBool false).
  - (* a number *)
    intros pos [|fuel] R F L; [lia|].
    destruct (json_number_head s Hs) as (c & r & Es & Hc).
    pose proof R as R'. rewrite Es in R'.
    pose proof (reads_head _ _ _ _ R') as [C E].
    destruct (number_start_facts c Hc) as (H1 & H2 & H3 & H4 & H5).
    rewrite parse_value_eq, E, C. cbv zeta. rewrite H1, H2, H3, H4, H5, Hc.
    destruct (stod s) as [d|] eqn:D; [|congruence].
    exists (JNumber d). now apply parse_number_accepts.
  - (* a string *)
    intros pos [|fuel] R F L; [lia|].
    destruct (parse_string_accepts double input s pos Hs R) as (text & P).
    destruct Hs as (body & _ & ->).
    pose proof (reads_head _ _ _ _ R) as [C E].
    rewrite parse_value_eq, E, C. cbv zeta.
    change (Ascii.eqb dquote "n") with false.
    change (Ascii.eqb dquote "t" || Ascii.eqb dquote "f") with false.
    change (Ascii.eqb dquote dquote) with true. cbv iota. eauto.
  - (* the empty array *)
    intros pos [|fuel] R F L; [lia|].
    pose proof R as R'. cbn [append] in R'.
    pose proof (reads_head _ _ _ _ R') as [C E].
    rewrite parse_value_eq, E, C. cbv zeta.
    change (Ascii.eqb "[" "n") with false.
    change (Ascii.eqb "[" "t" || Ascii.eqb "[" "f") with false.
    change (Ascii.eqb "[" dquote) with false.
    change (Ascii.eqb "[" "[") with true. cbv iota.
    rewrite (empty_array_accepts input _ _ _ _ B R). eauto.
  - (* an array *)
    intros pos [|fuel] R F L; [lia|].
    destruct (json_part_head _ _ _ _ Hes) as (c & r & Ees & Hc).
    pose proof R as R'. rewrite Ees in R'. cbn [append] in R'.
    pose proof (reads_head _ _ _ _ R') as [C E].
    rewrite parse_value_eq, E, C. cbv zeta.
    change (Ascii.eqb "[" "n") with false.
    change (Ascii.eqb "[" "t" || Ascii.eqb "[" "f") with false.
    change (Ascii.eqb "[" dquote) with false.
    change (Ascii.eqb "[" "[") with true. cbv iota.
    rewrite (array_accepts input _ fuel pos w c (r ++ "]") B R' Hc).
    cbn [append String.length] in R, L |- *.
    rewrite !length_append in L |- *. cbn [String.length] in L |- *.
    destruct R as [_ R]. apply reads_app in R as [_ R].
    destruct (IH (S pos + String.length w) fuel fuel [] "" R) as (v & ->);
      try lia.
    exists v. do 2 f_equal. lia.
  - (* the empty object *)
    intros pos [|fuel] R F L; [lia|].
    pose proof R as R'. cbn [append] in R'.
    pose proof (reads_head _ _ _ _ R') as [C E].
    rewrite parse_value_eq, E, C. cbv zeta.
    change (Ascii.eqb "{" "n") with false.
    change (Ascii.eqb "{" "t" || Ascii.eqb "{" "f") with false.
    change (Ascii.eqb "{" dquote) with false.
    change (Ascii.eqb "{" "[") with false.
    change (Ascii.eqb "{" "{") with true. cbv iota.
    rewrite (empty_object_accepts input _ _ _ _ B R). eauto.
  - (* an object *)
    intros pos [|fuel] R F L; [lia|].
    destruct (json_part_head _ _ _ _ Hms) as (c & r & Ems & ->).
    pose proof R as R'. rewrite Ems in R'. cbn [append] in R'.
    pose proof (reads_head _ _ _ _ R') as [C E].
    rewrite parse_value_eq, E, C. cbv zeta.
    change (Ascii.eqb "{" "n") with false.
    change (Ascii.eqb "{" "t" || Ascii.eqb "{" "f") with false.
    change (Ascii.eqb "{" dquote) with false.
    change (Ascii.eqb "{" "[") with false.
    change (Ascii.eqb "{" "{") with true. cbv iota.
    rewrite (object_accepts input _ fuel pos w (r ++ "}") B R').
    cbn [append String.length] in R, L |- *.
    rewrite !length_append in L |- *. cbn [String.length] in L |- *.
    destruct R as [_ R]. apply reads_app in R as [_ R].
    destruct (IH (S pos + String.length w) fuel fuel [] "" R) as (v & ->);
      try lia.
    exists v. do 2 f_equal. lia.
  - (* the last element *)
    intros pos fuel [|n] array closer R Lf Ln; [lia|].
    rewrite length_append in *. rewrite append_assoc in R.
    apply reads_app in R as [Rv Rw].
    destruct (IH pos fuel Rv) as (value & V); try lia.
    { now apply (follows_blank_head _ w _ "]"%char closer). }
    rewrite (last_element_accepts input _ n pos _ array value w closer V B Rw).
    eexists. do 2 f_equal. lia.
  - (* an element and more *)
    intros pos fuel [|n] array closer R Lf Ln; [lia|].
    rewrite !length_append in *. cbn [String.length] in *.
    rewrite !append_assoc in R. apply reads_app in R as [Rv Rw].
    destruct (IHv pos fuel Rv) as (value & V); try lia.
    { apply (follows_blank_head _ w1 _ ","%char
               (w2 ++ rest ++ String "]" closer)); auto. }
    destruct (json_part_head _ _ _ _ Hrest) as (c & r & Er & Hc).
    pose proof Rw as Rw'. rewrite Er in Rw'. cbn [append] in Rw'.
    rewrite (next_element_accepts input _ n pos _ array value w1 w2 c
               (r ++ String "]" closer) V B1 B2 Rw' Hc).
    apply reads_app in Rw as [_ Rw]. cbn [append] in Rw.
    destruct Rw as [_ Rw]. apply reads_app in Rw as [_ Rw].
    destruct (IH (S (pos + String.length v + String.length w1)
                  + String.length w2) fuel n (array ++ [value])%list
                closer Rw) as (res & ->); try lia.
    exists res. do 2 f_equal. lia.
  - (* the last member *)
    intros pos fuel [|n] object closer R Lf Ln; [lia|].
    rewrite !length_append in *. cbn [String.length] in *.
    destruct (json_part_head _ _ _ _ Hv) as (c & r & Ev & Hc).
    rewrite !append_assoc in R. cbn [append] in R.
    pose proof R as R'.
    apply reads_app in R' as [_ R']. apply reads_app in R' as [_ R'].
    cbn [append] in R'. destruct R' as [_ R'].
    apply reads_app in R' as [_ R']. apply reads_app in R' as [Rv R3].
    set (p4 := S (pos + String.length key + String.length w1)
               + String.length w2) in *.
    destruct (IH p4 fuel Rv) as (value & V); try lia.
    { now apply (follows_blank_head _ w3 _ "}"%char closer). }
    assert (reads input pos
              (key ++ w1 ++ ":" ++ w2 ++
               String c (r ++ w3 ++ String "}" closer))) as Rk.
    { rewrite Ev in R. exact R. }
    destruct (last_member_accepts input _ n pos p4 _ object key w1 w2 w3
                closer c _ value Hk B1 B2 B3 Rk Hc eq_refl V R3)
      as (res & ->).
    exists res. do 2 f_equal. unfold p4. lia.
  - (* a member and more *)
    intros pos fuel [|n] object closer R Lf Ln; [lia|].
    rewrite !length_append in *. cbn [String.length] in *.
    destruct (json_part_head _ _ _ _ Hv) as (c & r & Ev & Hc).
    destruct (json_part_head _ _ _ _ Hrest) as (c' & r' & Er & ->).
    rewrite !append_assoc in R. cbn [append] in R.
    pose proof R as R'.
    apply reads_app in R' as [_ R']. apply reads_app in R' as [_ R'].
    cbn [append] in R'. destruct R' as [_ R'].
    apply reads_app in R' as [_ R']. apply reads_app in R' as [Rv R3].
    set (p4 := S (pos + String.length key + String.length w1)
               + String.length w2) in *.
    destruct (IHv p4 fuel Rv) as (value & V); try lia.
    { apply (follows_blank_head _ w3 _ ","%char
               (w4 ++ rest ++ String "}" closer)); auto. }
    assert (reads input pos
              (key ++ w1 ++ ":" ++ w2 ++
               String c (r ++ w3 ++
                         String "," (w4 ++ rest ++ String "}" closer))))
      as Rk.
    { rewrite Ev in R. exact R. }
    pose proof R3 as R3'. rewrite Er in R3'. cbn [append] in R3'.
    destruct (next_member_accepts input _ n pos p4 _ object key w1 w2 w3 w4
                (r' ++ String "}" closer) c _ value Hk B1 B2 B3 B4 Rk Hc
                eq_refl V R3')
      as (object' & ->).
    apply reads_app in R3 as [_ R3]. destruct R3 as [_ R3].
    apply reads_app in R3 as [_ R3].
    destruct (IH (S (p4 + String.length v + String.length w3)
                  + String.length w4) fuel n object' closer R3)
      as (res & ->); try lia.
    exists res. do 2 f_equal. unfold p4. lia.
Qed.

(** [parse] returns a value for every JSON text whose number literals
    [stod] accepts. *)
Lemma parse_accepts :
  well_formed c_locale_space (fun lexeme => stod lexeme <> None) input ->
  exists v, parse stod input = Ok v.
Proof.
  intros (w1 & v & w2 & B1 & Hv & B2 & E).
  assert (reads input 0 (w1 ++ v ++ w2)) as R
      by (rewrite <- E; apply reads_all).
  pose proof (f_equal String.length E) as El. rewrite !length_append in El.
  destruct (json_part_head _ _ _ _ Hv) as (c & r & Ev & Hc).
  pose proof R as R'. rewrite Ev in R'. cbn [append] in R'.
  destruct (value_start_facts c Hc) as (Hs & _).
  destruct (skip_blank_then _ _ _ _ _ B1 R' Hs) as (W1 & _).
  apply reads_app in R as [_ R]. apply reads_app in R as [Rv R2].
  pose proof (reads_le _ _ _ R2) as L2.
  pose proof (reads_le _ _ _ Rv) as Lv.
  assert (0 + String.length w1 + String.length v + String.length w2
          = size input) as Hend.
  { unfold size. lia. }
  assert (stops isspace input
            (0 + String.length w1 + String.length v + String.length w2))
    as St by (apply stops_end; unfold size in Hend; lia).
  pose proof (skip_blank _ _ _ B2 R2 St) as W2.
  destruct (json_part_accepts a_value v Hv (0 + String.length w1)
              (S (String.length input)) Rv) as (value & V); try lia.
  { apply (follows_blank _ w2); auto. apply stops_end.
    unfold size in Hend; lia. }
  exists value. unfold parse, parse_with, Parser_parse.
  rewrite (bind_ok _ _ _ _ _ W1), (bind_ok _ _ _ _ _ V).
  rewrite (bind_ok _ _ _ _ _ W2), bind_eof, Hend.
  now rewrite Nat.leb_refl.
Qed.

End AcceptsGrammar.

(** ** The parser accepts nothing but the JSON grammar *)

Lemma json_part_space (ws ws' : ascii -> Prop) (number : string -> Prop)
  (kind : part) (text : string) :
  (forall ch, ws ch -> ws' ch) ->
  json_part ws number kind text -> json_part ws' number kind text.
Proof.
  intros H.
  assert (forall w, blank ws w -> blank ws' w) as B
      by (intros w; now apply all_bytes_impl).
  induction 1;
    [apply part_null|apply part_true|apply part_false|apply part_number
    |apply part_string|apply part_empty_array|apply part_array
    |apply part_empty_object|apply part_object|apply part_element
    |apply part_elements|apply part_member|apply part_members]; auto.
Qed.

Lemma reads_cons (ch : ascii) (input text : string) (pos : nat) :
  reads input pos text -> reads (String ch input) (S pos) text.
Proof.
  revert pos; induction text as [|c text IH]; intros pos; simpl; [lia|].
  intros [G H]; split; auto.
Qed.

Lemma substring_reads (input : string) :
  forall pos n,
    pos + n <= String.length input ->
    reads input pos (substring pos n input) /\
    String.length (substring pos n input) = n.
Proof.
  induction input as [|ch input IH]; intros pos n H; simpl in H.
  - assert (pos = 0) as -> by lia. assert (n = 0) as -> by lia.
    simpl. auto.
  - destruct pos as [|pos].
    + destruct n as [|n]; simpl; [split; auto; lia|].
      destruct (IH 0 n) as [R L]; [lia|]. rewrite L.
      repeat split; auto. now apply reads_cons.
    + simpl. destruct (IH pos n) as [R L]; [lia|]. split; auto.
      now apply reads_cons.
Qed.

Lemma reads_whole (input text : string) :
  reads input 0 text -> String.length input <= String.length text ->
  text = input.
Proof.
  revert text; induction input as [|ch input IH]; intros text R L.
  - apply reads_le in R. simpl in R. destruct text; [auto|simpl in R; lia].
  - destruct text as [|c text]; [simpl in L; lia|].
    destruct R as [G R]. injection G as ->. f_equal.
    apply IH; [now apply reads_tail in R|simpl in L; lia].
Qed.

Lemma reads_char (input : string) (pos : nat) :
  (size input <=? pos) = false ->
  reads input pos (String (char_at input pos) "").
Proof.
  intros E. apply Nat.leb_gt in E. split; [now apply char_at_get|].
  simpl. unfold size in E. lia.
Qed.

Lemma while_advance_reads (input : string) (p : ascii -> bool) (n : nat) :
  forall pos pos',
    while_advance input p n pos = Ok (tt, pos') -> pos <= size input ->
    exists s,
      all_bytes (fun ch => p ch = true) s /\ reads input pos s /\
      pos' = pos + String.length s.
Proof.
  induction n as [|n IH]; intros pos pos'; rewrite while_advance_eq;
    destruct (size input <=? pos) eqn:E; cbn [negb andb].
  - intros H L; inversion H; subst. exists ""; simpl; repeat split; auto.
  - destruct (p (char_at input pos)); [discriminate|].
    intros H L; inversion H; subst. exists ""; simpl; repeat split; auto.
  - intros H L; inversion H; subst. exists ""; simpl; repeat split; auto.
  - destruct (p (char_at input pos)) eqn:P.
    + intros H L. pose proof (reads_char _ _ E) as [G _].
      apply Nat.leb_gt in E.
      apply IH in H as (s & A & R & ->); [|lia].
      exists (String (char_at input pos) s); simpl; repeat split; auto;
        lia.
    + intros H L; inversion H; subst. exists ""; simpl; repeat split; auto.
Qed.

Lemma skip_whitespace_reads (input : string) (pos pos' : nat) :
  skip_whitespace input pos = Ok (tt, pos') -> pos <= size input ->
  exists w,
    blank c_locale_space w /\ reads input pos w /\
    pos' = pos + String.length w.
Proof.
  intros H L. apply while_advance_reads in H as (w & A & R & ->); auto.
  exists w; repeat split; auto. revert A. apply all_bytes_impl.
  intros ch. apply isspace_c_locale.
Qed.

Lemma match_reads_inv (input text : string) (pos pos' : nat) :
  match_ input text pos = Ok (true, pos') -> pos <= size input ->
  reads input pos text /\ pos' = pos + String.length text.
Proof.
  intros H L. pose proof (match_true input text pos pos' L H) as [-> L'].
  rewrite match_eq in H by auto.
  destruct (String.eqb_spec (substring pos (String.length text) input) text)
    as [E|]; [|discriminate].
  split; auto.
  destruct (substring_reads input pos (String.length text)) as [R _];
    [unfold size in L'; lia|].
  now rewrite E in R.
Qed.

Lemma hex_ranges (ch : ascii) :
  let c := Z.of_N (code ch) in
  ((48 <=? c) && (c <=? 57) || (97 <=? c) && (c <=? 102)
   || (65 <=? c) && (c <=? 70))%Z = true ->
  hex_digit ch.
Proof.
  destruct ch as [[] [] [] [] [] [] [] []]; vm_compute; intros H;
    discriminate.
Qed.

Lemma unicode_digits_reads (input : string) (i : nat) :
  forall value pos z pos',
    unicode_digits input i value pos = Ok (z, pos') ->
    pos <= size input ->
    exists hs,
      all_bytes hex_digit hs /\ String.length hs = i /\
      reads input pos hs /\ pos' = pos + i.
Proof.
  induction i as [|i IH]; intros value pos z pos'.
  - intros H L; inversion H; subst. exists ""; simpl; repeat split; auto.
  - rewrite unicode_digits_eq. destruct (size input <=? pos) eqn:E;
      [discriminate|].
    cbv zeta. intros H L. pose proof (reads_char _ _ E) as [G _].
    apply Nat.leb_gt in E.
    assert (hex_digit (char_at input pos) /\
            exists value', unicode_digits input i value' (S pos)
                           = Ok (z, pos')) as [Hh (value' & H')].
    { pose proof (hex_ranges (char_at input pos)) as Hr. cbv zeta in Hr.
      destruct ((48 <=? _) && _)%Z; [split; eauto|].
      destruct ((97 <=? _) && _)%Z; [split; eauto|].
      destruct ((65 <=? _) && _)%Z; [split; eauto|discriminate]. }
    apply IH in H' as (hs & A & Hl & R & ->); [|lia].
    exists (String (char_at input pos) hs); simpl; repeat split; auto; lia.
Qed.

Lemma simple_escape_cases (escaped : ascii) :
  simple_escape escaped = None ->
  Ascii.eqb escaped dquote = false /\ Ascii.eqb escaped backslash = false /\
  Ascii.eqb escaped "/" = false /\ Ascii.eqb escaped "b" = false /\
  Ascii.eqb escaped "f" = false /\ Ascii.eqb escaped "n" = false /\
  Ascii.eqb escaped "r" = false /\ Ascii.eqb escaped "t" = false.
Proof.
  unfold simple_escape.
  repeat match goal with
         | |- context [if ?b then _ else _] => destruct b; try discriminate
         end; auto 10.
Qed.

Lemma parse_string_loop_reads (double : Type) (input : string) (n : nat) :
  forall result pos (v : JsonValue double) pos',
    parse_string_loop input n result pos = Ok (v, pos') ->
    exists body,
      json_chars body /\ reads input pos (body ++ String dquote "") /\
      pos' = pos + String.length body + 1.
Proof.
  induction n as [|n IH]; intros result pos v pos'; cbn [parse_string_loop];
    rewrite bind_eof; destruct (size input <=? pos) eqn:E;
    try discriminate.
  rewrite bind_advance, E. pose proof (reads_char _ _ E) as Rc.
  destruct (Ascii.eqb_spec (char_at input pos) dquote) as [C|C].
  { intros H; inversion H; subst. exists ""; split; [|split].
    - apply chars_end.
    - cbn [append]. now rewrite <- C.
    - simpl; lia. }
  destruct (Ascii.eqb_spec (char_at input pos) backslash) as [B|B].
  - rewrite bind_eof. destruct (size input <=? S pos) eqn:E1;
      [discriminate|].
    rewrite bind_advance, E1. pose proof (reads_char _ _ E1) as Re.
    intros H. apply bind_ok_inv in H as (r & q & Hr & H).
    apply IH in H as (body & Hb & R & ->).
    destruct Rc as [Gc _]. destruct Re as [Ge _]. rewrite B in Gc.
    destruct (simple_escape (char_at input (S pos))) as [ch|] eqn:Se.
    + assert (q = S (S pos)) as ->.
      { revert Hr Se. unfold simple_escape.
        repeat match goal with
               | |- context [Ascii.eqb ?a ?c] =>
                   destruct (Ascii.eqb a c)
               end; try discriminate; intros Hr _; now inversion Hr. }
      exists (String backslash (String (char_at input (S pos)) body)).
      split; [|split].
      * apply chars_escape; auto. congruence.
      * cbn [append reads]. auto.
      * cbn [String.length]. lia.
    + destruct (simple_escape_cases _ Se)
        as (-> & -> & -> & -> & -> & -> & -> & ->) in Hr.
      destruct (Ascii.eqb_spec (char_at input (S pos)) "u") as [U|U];
        [|discriminate].
      apply bind_ok_inv in Hr as (u & q' & Hu & Hr).
      inversion Hr; subst q'. clear Hr.
      unfold parse_unicode_escape in Hu.
      apply bind_ok_inv in Hu as (z & q'' & Hz & Hu).
      assert (q'' = q) as -> by (destruct (z <=? 127)%Z; now inversion Hu).
      apply unicode_digits_reads in Hz
        as (hs & A & Hl & Rh & ->); [|apply Nat.leb_gt in E1; lia].
      destruct hs as [|h1 [|h2 [|h3 [|h4 [|]]]]]; try discriminate.
      destruct A as (A1 & A2 & A3 & A4 & _).
      destruct Rh as (G1 & G2 & G3 & G4 & _).
      rewrite U in Ge.
      exists (String backslash (String "u"
                (String h1 (String h2 (String h3 (String h4 body)))))).
      split; [|split].
      * now apply chars_unicode.
      * cbn [append reads].
        replace (S (S (S (S (S (S pos)))))) with (S (S pos) + 4) by lia.
        auto 10.
      * cbn [String.length]. lia.
  - destruct (code (char_at input pos) <? 32)%N eqn:Lt; [discriminate|].
    intros H. apply IH in H as (body & Hb & R & ->).
    exists (String (char_at input pos) body). split; [|split].
    + apply chars_raw; auto. repeat split; auto. now apply N.ltb_ge.
    + cbn [append reads]. split; [now destruct Rc|exact R].
    + cbn [String.length]. lia.
Qed.

Lemma parse_string_reads (double : Type) (input : string) (pos : nat)
  (v : JsonValue double) (pos' : nat) :
  parse_string input pos = Ok (v, pos') ->
  exists s, json_string s /\ reads input pos s /\
            pos' = pos + String.length s.
Proof.
  unfold parse_string. intros H.
  apply bind_ok_inv in H as ([] & p & He & H).
  rewrite expect_char_eq in He.
  destruct (size input <=? pos) eqn:E; [discriminate|].
  destruct (Ascii.eqb_spec (char_at input pos) dquote) as [C|];
    [|discriminate].
  inversion He; subst p.
  apply parse_string_loop_reads in H as (body & Hb & R & ->).
  pose proof (reads_char _ _ E) as [G _]. rewrite C in G.
  exists (String dquote (body ++ String dquote "")). split; [|split].
  - now exists body.
  - split; auto.
  - cbn [String.length]. rewrite length_append. simpl. lia.
Qed.

Lemma parse_number_reads (double : Type) (stod : string -> option double)
  (input : string) (pos : nat) (v : JsonValue double) (pos' : nat) :
  parse_number stod input pos = Ok (v, pos') ->
  exists lexeme,
    json_number lexeme /\ stod lexeme <> None /\ reads input pos lexeme /\
    pos' = pos + String.length lexeme.
Proof.
  intros H.
  apply parse_number_lexeme in H as (L1 & L2 & Hn & d & Hd & _).
  destruct (substring_reads input pos (pos' - pos)) as [R L]; [lia|].
  exists (substring pos (pos' - pos) input).
  split; [|split; [|split]]; auto.
  - congruence.
  - rewrite L. lia.
Qed.

Lemma reads_join (input a b : string) (pos : nat) :
  reads input pos a -> reads input (pos + String.length a) b ->
  reads input pos (a ++ b).
Proof. intros Ra Rb. apply reads_app. auto. Qed.

Lemma reads_push (input : string) (pos : nat) (ch : ascii) (text : string) :
  (size input <=? pos) = false -> char_at input pos = ch ->
  reads input (S pos) text -> reads input pos (String ch text).
Proof.
  intros E C R. split; auto. rewrite <- C. now destruct (reads_char _ _ E).
Qed.

Lemma expect_char_reads (input : string) (pos : nat) (ch : ascii)
  (p : nat) :
  expect_char input ch pos = Ok (tt, p) ->
  (size input <=? pos) = false /\ char_at input pos = ch /\ p = S pos.
Proof.
  rewrite expect_char_eq. destruct (size input <=? pos); [discriminate|].
  destruct (Ascii.eqb_spec (char_at input pos) ch); [|discriminate].
  intros H; inversion H; auto.
Qed.

Section Sound.

Context {double : Type}.
Variable stod : string -> option double.
Variable input : string.

#[local] Abbreviation grammar :=
  (json_part c_locale_space (fun lexeme => stod lexeme <> None)).

Variable pv : M (JsonValue double).
Hypothesis pv_reads :
  forall pos v pos',
    pv pos = Ok (v, pos') ->
    exists t, grammar a_value t /\ reads input pos t /\
              pos' = pos + String.length t.

Lemma parse_array_loop_reads (n : nat) :
  forall array pos v pos',
    parse_array_loop input pv n array pos = Ok (v, pos') ->
    exists es,
      grammar some_elements es /\ reads input pos (es ++ "]") /\
      pos' = S (pos + String.length es).
Proof.
  induction n as [|n IH]; intros array pos v pos' H; [discriminate|].
  cbn [parse_array_loop] in H.
  apply bind_ok_inv in H as (value & p1 & H1 & H). cbv zeta in H.
  apply pv_reads in H1 as (t & Gt & Rt & ->).
  pose proof (reads_le _ _ _ Rt) as Lt.
  apply bind_ok_inv in H as ([] & p & H2 & H).
  apply skip_whitespace_reads in H2 as (w & Bw & Rw & ->); [|exact Lt].
  rewrite bind_peek in H.
  destruct (size input <=? _) eqn:E in H; [discriminate|].
  destruct (Ascii.eqb_spec
              (char_at input (pos + String.length t + String.length w)) ",")
    as [C|C].
  - rewrite bind_advance, E in H.
    apply bind_ok_inv in H as ([] & p' & H3 & H).
    apply skip_whitespace_reads in H3 as (w2 & Bw2 & Rw2 & ->);
      [|apply Nat.leb_gt in E; lia].
    apply IH in H as (rest & Gr & Rr & ->).
    exists (t ++ w ++ "," ++ w2 ++ rest). split; [|split].
    + now apply part_elements.
    + rewrite !append_assoc. apply reads_join; auto.
      apply reads_join; auto. cbn [append].
      apply reads_push; auto. now apply reads_join.
    + rewrite !length_append. cbn [String.length]. lia.
  - rewrite bind_peek, E in H.
    destruct (Ascii.eqb_spec
                (char_at input (pos + String.length t + String.length w))
                "]") as [C'|]; [|discriminate].
    rewrite bind_advance, E in H. inversion H; subst.
    exists (t ++ w). split; [|split].
    + now apply part_element.
    + rewrite !append_assoc. apply reads_join; auto.
      apply reads_join; auto. apply reads_push; auto.
      simpl. apply Nat.leb_gt in E. unfold size in E. lia.
    + rewrite !length_append. lia.
Qed.

Lemma parse_array_reads (n pos : nat) (v : JsonValue double) (pos' : nat) :
  parse_array input pv n pos = Ok (v, pos') ->
  exists t, grammar a_value t /\ reads input pos t /\
            pos' = pos + String.length t.
Proof.
  unfold parse_array. intros H.
  apply bind_ok_inv in H as ([] & p0 & H0 & H).
  apply expect_char_reads in H0 as (E0 & C0 & ->).
  apply bind_ok_inv in H as ([] & p & H1 & H).
  apply skip_whitespace_reads in H1 as (w & Bw & Rw & ->);
    [|apply Nat.leb_gt in E0; lia].
  rewrite bind_peek in H.
  destruct (size input <=? _) eqn:E in H; [discriminate|].
  destruct (Ascii.eqb_spec (char_at input (S pos + String.length w)) "]")
    as [C|C].
  - rewrite bind_advance, E in H. inversion H; subst.
    exists ("[" ++ w ++ "]"). split; [|split].
    + now apply part_empty_array.
    + cbn [append]. apply reads_push; auto. apply reads_join; auto.
      apply reads_push; auto.
      simpl. apply Nat.leb_gt in E. unfold size in E. lia.
    + cbn [append String.length]. rewrite length_append. simpl. lia.
  - apply parse_array_loop_reads in H as (es & Ge & Re & ->).
    exists ("[" ++ w ++ es ++ "]"). split; [|split].
    + now apply part_array.
    + cbn [append]. apply reads_push; auto. now apply reads_join.
    + cbn [append String.length]. rewrite !length_append. simpl. lia.
Qed.

Lemma parse_object_loop_reads (n : nat) :
  forall object pos v pos',
    parse_object_loop input pv n object pos = Ok (v, pos') ->
    exists ms,
      grammar some_members ms /\ reads input pos (ms ++ "}") /\
      pos' = S (pos + String.length ms).
Proof.
  induction n as [|n IH]; intros object pos v pos' H; [discriminate|].
  cbn [parse_object_loop] in H. rewrite bind_peek in H.
  destruct (size input <=? pos) eqn:E0; [discriminate|].
  destruct (negb _); [discriminate|].
  apply bind_ok_inv in H as (s & p1 & H1 & H).
  apply parse_string_reads in H1 as (key & Hk & Rk & ->).
  pose proof (reads_le _ _ _ Rk) as Lk.
  apply bind_ok_inv in H as (name & p1' & Hn & H).
  assert (p1' = pos + String.length key) as ->
      by (destruct s; simpl in Hn; inversion Hn; auto).
  clear Hn.
  apply bind_ok_inv in H as ([] & p2 & H2 & H).
  apply skip_whitespace_reads in H2 as (w1 & B1 & R1 & ->); [|exact Lk].
  apply bind_ok_inv in H as ([] & p3 & H3 & H).
  apply expect_char_reads in H3 as (E3 & C3 & ->).
  apply bind_ok_inv in H as ([] & p4 & H4 & H).
  apply skip_whitespace_reads in H4 as (w2 & B2 & R2 & ->);
    [|apply Nat.leb_gt in E3; lia].
  apply bind_ok_inv in H as (value & p5 & H5 & H). cbv zeta in H.
  apply pv_reads in H5 as (t & Gt & Rt & ->).
  pose proof (reads_le _ _ _ Rt) as Lt.
  apply bind_ok_inv in H as ([] & p6 & H6 & H).
  apply skip_whitespace_reads in H6 as (w3 & B3 & R3 & ->); [|exact Lt].
  rewrite bind_peek in H.
  destruct (size input <=? _) eqn:E in H; [discriminate|].
  match type of E with
  | (_ <=? ?q) = _ => set (p := q) in *
  end.
  destruct (Ascii.eqb_spec (char_at input p) ",") as [C|C].
  - rewrite bind_advance, E in H.
    apply bind_ok_inv in H as ([] & p' & H7 & H).
    apply skip_whitespace_reads in H7 as (w4 & B4 & R4 & ->);
      [|apply Nat.leb_gt in E; lia].
    apply IH in H as (rest & Gr & Rr & ->).
    exists (key ++ w1 ++ ":" ++ w2 ++ t ++ w3 ++ "," ++ w4 ++ rest).
    split; [|split].
    + now apply part_members.
    + rewrite !append_assoc. apply reads_join; auto.
      apply reads_join; auto. cbn [append]. apply reads_push; auto.
      apply reads_join; auto. apply reads_join; auto.
      apply reads_join; auto. apply reads_push; auto.
      now apply reads_join.
    + rewrite !length_append. cbn [String.length]. unfold p. lia.
  - rewrite bind_peek, E in H.
    destruct (Ascii.eqb_spec (char_at input p) "}") as [C'|];
      [|discriminate].
    rewrite bind_advance, E in H. inversion H; subst pos'.
    exists (key ++ w1 ++ ":" ++ w2 ++ t ++ w3). split; [|split].
    + now apply part_member.
    + rewrite !append_assoc. apply reads_join; auto.
      apply reads_join; auto. cbn [append]. apply reads_push; auto.
      apply reads_join; auto. apply reads_join; auto.
      apply reads_join; auto. apply reads_push; auto.
      simpl. apply Nat.leb_gt in E. unfold size in E. lia.
    + rewrite !length_append. cbn [String.length]. unfold p. lia.
Qed.

Lemma parse_object_reads (n pos : nat) (v : JsonValue double) (pos' : nat) :
  parse_object input pv n pos = Ok (v, pos') ->
  exists t, grammar a_value t /\ reads input pos t /\
            pos' = pos + String.length t.
Proof.
  unfold parse_object. intros H.
  apply bind_ok_inv in H as ([] & p0 & H0 & H).
  apply expect_char_reads in H0 as (E0 & C0 & ->).
  apply bind_ok_inv in H as ([] & p & H1 & H).
  apply skip_whitespace_reads in H1 as (w & Bw & Rw & ->);
    [|apply Nat.leb_gt in E0; lia].
  rewrite bind_peek in H.
  destruct (size input <=? _) eqn:E in H; [discriminate|].
  destruct (Ascii.eqb_spec (char_at input (S pos + String.length w)) "}")
    as [C|C].
  - rewrite bind_advance, E in H. inversion H; subst.
    exists ("{" ++ w ++ "}"). split; [|split].
    + now apply part_empty_object.
    + cbn [append]. apply reads_push; auto. apply reads_join; auto.
      apply reads_push; auto.
      simpl. apply Nat.leb_gt in E. unfold size in E. lia.
    + cbn [append String.length]. rewrite length_append. simpl. lia.
  - apply parse_object_loop_reads in H as (ms & Gm & Rm & ->).
    exists ("{" ++ w ++ ms ++ "}"). split; [|split].
    + now apply part_object.
    + cbn [append]. apply reads_push; auto. now apply reads_join.
    + cbn [append String.length]. rewrite !length_append. simpl. lia.
Qed.

End Sound.

Lemma parse_value_reads (double : Type) (stod : string -> option double)
  (input : string) (fuel : nat) :
  forall pos v pos',
    parse_value stod input fuel pos = Ok (v, pos') ->
    exists t,
      json_part c_locale_space (fun lexeme => stod lexeme <> None)
        a_value t /\
      reads input pos t /\ pos' = pos + String.length t.
Proof.
  induction fuel as [|fuel IH]; intros pos v pos' H; [discriminate|].
  rewrite parse_value_eq in H.
  destruct (size input <=? pos) eqn:E; [discriminate|]. cbv zeta in H.
  assert (pos <= size input) as L by (apply Nat.leb_gt in E; lia).
  destruct (Ascii.eqb (char_at input pos) "n").
  { unfold parse_null, expect in H. rewrite bind_bind in H.
    apply bind_ok_inv in H as ([|] & p & Hm & H); [|discriminate].
    inversion H; subst.
    apply match_reads_inv in Hm as [R ->]; auto.
    exists "null". split; [apply part_null|auto]. }
  destruct (_ || _).
  { unfold parse_bool in H.
    apply bind_ok_inv in H as ([|] & p & Hm & H).
    - inversion H; subst. apply match_reads_inv in Hm as [R ->]; auto.
      exists "true". split; [apply part_true|auto].
    - apply match_false in Hm as ->.
      apply bind_ok_inv in H as ([|] & p & Hm & H); [|discriminate].
      inversion H; subst. apply match_reads_inv in Hm as [R ->]; auto.
      exists "false". split; [apply part_false|auto]. }
  destruct (Ascii.eqb (char_at input pos) dquote).
  { apply parse_string_reads in H as (s & Hs & R & ->).
    exists s. split; [now apply part_string|auto]. }
  destruct (Ascii.eqb (char_at input pos) "[").
  { now apply (parse_array_reads stod input _ IH) in H. }
  destruct (Ascii.eqb (char_at input pos) "{").
  { now apply (parse_object_reads stod input _ IH) in H. }
  destruct (_ || _); [|discriminate].
  apply parse_number_reads in H as (lexeme & Hn & Hs & R & ->).
  exists lexeme. split; [now apply part_number|auto].
Qed.

(** Every text [parse] returns a value for is a JSON text, with the
    whitespace of [std::isspace]. *)
Lemma parse_sound (double : Type) (stod : string -> option double)
  (input : string) (v : JsonValue double) :
  parse stod input = Ok v ->
  well_formed c_locale_space (fun lexeme => stod lexeme <> None) input.
Proof.
  unfold parse, parse_with, Parser_parse.
  destruct (bind _ _ 0) as [[v' p]|e|] eqn:H; try discriminate. intros _.
  apply bind_ok_inv in H as ([] & p1 & H1 & H).
  apply skip_whitespace_reads in H1 as (w1 & B1 & R1 & ->); [|lia].
  apply bind_ok_inv in H as (value & p2 & H2 & H).
  apply parse_value_reads in H2 as (t & Gt & Rt & ->).
  pose proof (reads_le _ _ _ Rt) as Lt.
  apply bind_ok_inv in H as ([] & p3 & H3 & H).
  apply skip_whitespace_reads in H3 as (w2 & B2 & R2 & ->); [|exact Lt].
  rewrite bind_eof in H.
  destruct (size input <=? _) eqn:E in H; [|discriminate].
  apply Nat.leb_le in E.
  exists w1, t, w2. repeat split; auto.
  symmetry. apply reads_whole.
  - apply reads_join; auto. now apply reads_join.
  - rewrite !length_append. unfold size in E. lia.
Qed.

Lemma well_formed_space (ws ws' : ascii -> Prop) (number : string -> Prop)
  (input : string) :
  (forall ch, ws ch -> ws' ch) ->
  well_formed ws number input -> well_formed ws' number input.
Proof.
  intros H (w1 & v & w2 & B1 & Hv & B2 & E).
  exists w1, v, w2. repeat split; auto.
  - revert B1. now apply all_bytes_impl.
  - now apply (json_part_space ws).
  - revert B2. now apply all_bytes_impl.
Qed.

Lemma json_whitespace_c_locale (ch : ascii) :
  json_whitespace ch -> c_locale_space ch.
Proof.
  unfold json_whitespace, c_locale_space. simpl. tauto.
Qed.



(** * Further properties of the parser *)

(** ** Blank input and the keywords *)

Lemma all_bytes_char_at (P : ascii -> Prop) (s : string) (i : nat) :
  all_bytes P s -> i < String.length s -> P (char_at s i).
Proof.
  unfold char_at. revert i; induction s as [|c s IH]; intros i H Hi;
    simpl in *; [lia|].
  destruct H as [Hc H]. destruct i as [|i]; auto. apply IH; auto; lia.
Qed.

(** An input of whitespace only, the empty input among them, has no value:
    [parse] throws the end-of-input error. *)
Theorem blank_input_unexpected_end (double : Type)
  (stod : string -> option double) (input : string) :
  all_bytes (fun ch => isspace ch = true) input ->
  parse stod input = Throw end_of_input.
Proof.
  intros H. unfold parse, parse_with, Parser_parse.
  destruct (while_advance_spec input isspace (size input) 0)
    as (p & E & _ & L & _ & Z); try lia.
  assert (p = size input) as ->.
  { destruct (Nat.eq_dec p (size input)) as [|N]; auto.
    assert (p < size input) as Hp by lia.
    pose proof (all_bytes_char_at _ _ _ H Hp) as S. simpl in S.
    rewrite (Z Hp) in S. discriminate. }
  fold (skip_whitespace input) in E. rewrite (bind_ok _ _ _ _ _ E).
  unfold bind at 1. rewrite parse_value_eq. unfold size.
  now rewrite Nat.leb_refl.
Qed.

Lemma blank_input_unexpected_end_witness :
  parse stod_text "" = Throw end_of_input /\
  parse stod_text (String space (String newline (String vtab "")))
  = Throw end_of_input.
Proof.
  split; apply blank_input_unexpected_end; simpl; auto.
Defined.

Lemma substring_head (s : string) (pos n : nat) (c : ascii) (t : string) :
  substring pos (S n) s = String c t ->
  char_at s pos = c /\ pos < String.length s.
Proof.
  unfold char_at. revert pos; induction s as [|c0 s IH]; intros pos H.
  - destruct pos; discriminate.
  - destruct pos as [|pos]; simpl in *.
    + injection H as -> _. split; auto; lia.
    + apply IH in H as [H1 H2]. split; auto; lia.
Qed.

(** The three keywords are matched as a prefix at the cursor, whatever
    follows them: [parse_value] returns the literal and moves the cursor by
    the length of the keyword. A text that starts with n, t or f and is not
    the keyword is an error, and the errors differ: "Expected 'null'" for
    n, "Invalid boolean value" for t and f. *)
Theorem keyword_literals (double : Type) (stod : string -> option double)
  (input : string) (fuel pos : nat) :
  pos <= String.length input ->
  (substring pos 4 input = "null" ->
   parse_value stod input (S fuel) pos = Ok (JNull, pos + 4)) /\
  (substring pos 4 input = "true" ->
   parse_value stod input (S fuel) pos = Ok (JBool true, pos + 4)) /\
  (substring pos 5 input = "false" ->
   parse_value stod input (S fuel) pos = Ok (JBool false, pos + 5)) /\
  (pos < String.length input -> char_at input pos = "n"%char ->
   substring pos 4 input <> "null" ->
   parse_value stod input (S fuel) pos
   = Throw (ParseError "Expected 'null'")) /\
  (pos < String.length input ->
   char_at input pos = "t"%char \/ char_at input pos = "f"%char ->
   substring pos 4 input <> "true" -> substring pos 5 input <> "false" ->
   parse_value stod input (S fuel) pos
   = Throw (ParseError "Invalid boolean value")).
Proof.
  intros Hpos. fold (size input) in Hpos.
  refine (conj _ (conj _ (conj _ (conj _ _)))).
  - intros E. destruct (substring_head _ _ _ _ _ E) as [C L].
    rewrite parse_value_eq, C.
    replace (size input <=? pos) with false
      by (symmetry; apply Nat.leb_gt; exact L).
    cbv zeta. change (Ascii.eqb "n" "n") with true. cbv iota.
    unfold parse_null, expect. rewrite bind_bind.
    unfold bind at 1. rewrite match_eq by auto.
    change (String.length "null") with 4. now rewrite E.
  - intros E. destruct (substring_head _ _ _ _ _ E) as [C L].
    rewrite parse_value_eq, C.
    replace (size input <=? pos) with false
      by (symmetry; apply Nat.leb_gt; exact L).
    cbv zeta. change (Ascii.eqb "t" "n") with false.
    change (Ascii.eqb "t" "t" || Ascii.eqb "t" "f") with true. cbv iota.
    unfold parse_bool. unfold bind at 1. rewrite match_eq by auto.
    change (String.length "true") with 4. now rewrite E.
  - intros E. destruct (substring_head _ _ _ _ _ E) as [C L].
    rewrite parse_value_eq, C.
    replace (size input <=? pos) with false
      by (symmetry; apply Nat.leb_gt; exact L).
    cbv zeta. change (Ascii.eqb "f" "n") with false.
    change (Ascii.eqb "f" "t" || Ascii.eqb "f" "f") with true. cbv iota.
    unfold parse_bool. unfold bind at 1. rewrite match_eq by auto.
    change (String.length "true") with 4.
    destruct (String.eqb_spec (substring pos 4 input) "true") as [T|_].
    { apply substring_head in T as [T _]. congruence. }
    unfold bind at 1. rewrite match_eq by auto.
    change (String.length "false") with 5. now rewrite E.
  - intros L C N. rewrite parse_value_eq, C.
    replace (size input <=? pos) with false
      by (symmetry; apply Nat.leb_gt; exact L).
    cbv zeta. change (Ascii.eqb "n" "n") with true. cbv iota.
    unfold parse_null, expect. rewrite bind_bind.
    unfold bind at 1. rewrite match_eq by auto.
    change (String.length "null") with 4.
    apply String.eqb_neq in N. now rewrite N.
  - intros L C N1 N2. rewrite parse_value_eq.
    replace (size input <=? pos) with false
      by (symmetry; apply Nat.leb_gt; exact L).
    cbv zeta.
    assert (Ascii.eqb (char_at input pos) "n" = false) as ->
        by (destruct C as [-> | ->]; reflexivity).
    assert (Ascii.eqb (char_at input pos) "t"
            || Ascii.eqb (char_at input pos) "f" = true) as ->
        by (destruct C as [-> | ->]; reflexivity).
    unfold parse_bool. unfold bind at 1. rewrite match_eq by auto.
    change (String.length "true") with 4.
    apply String.eqb_neq in N1, N2. rewrite N1.
    unfold bind at 1. rewrite match_eq by auto.
    change (String.length "false") with 5. now rewrite N2.
Qed.

Lemma keyword_literals_witness :
  parse_value stod_text "[nullx" 1 1 = Ok (JNull, 5) /\
  parse_value stod_text "nul" 1 0 = Throw (ParseError "Expected 'null'") /\
  parse_value stod_text "tru" 1 0
  = Throw (ParseError "Invalid boolean value").
Proof.
  split; [|split].
  - apply (proj1 (keyword_literals string stod_text "[nullx" 0 1
                    ltac:(simpl; lia))).
    reflexivity.
  - apply (proj1 (proj2 (proj2 (proj2
             (keyword_literals string stod_text "nul" 0 0
                ltac:(simpl; lia)))))); [simpl; lia|reflexivity|discriminate].
  - apply (proj2 (proj2 (proj2 (proj2
             (keyword_literals string stod_text "tru" 0 0
                ltac:(simpl; lia)))))); [simpl; lia|now left| |];
      discriminate.
Defined.

(** ** Escapes and unterminated strings *)

Lemma parse_string_loop_skip (double : Type) (body : string) :
  forall (pre rest result : string) (n : nat),
    all_bytes raw_byte body ->
    @parse_string_loop double (pre ++ body ++ rest)
      (String.length body + n) result (String.length pre) =
    parse_string_loop (pre ++ body ++ rest) n (result ++ body)
      (String.length pre + String.length body).
Proof.
  induction body as [|ch body IH]; intros pre rest result n Hraw.
  - simpl. now rewrite append_nil_r, Nat.add_0_r.
  - destruct Hraw as [Hch Hraw].
    cbn [String.length Nat.add].
    rewrite (parse_string_loop_raw _ _ _ _ _ ch); auto;
      [|apply get_append_at].
    specialize (IH (pre ++ String ch EmptyString) rest (push_back result ch)
                  n Hraw).
    rewrite append_assoc, length_append in IH. simpl in IH.
    replace (String.length pre + 1) with (S (String.length pre)) in IH
      by lia.
    cbn [append]. rewrite IH. unfold push_back. rewrite append_assoc.
    cbn [append]. f_equal. lia.
Qed.

Lemma parse_throw_at_value (double : Type) (stod : string -> option double)
  (input : string) (p : nat) (e : exception) :
  skip_whitespace input 0 = Ok (tt, p) ->
  parse_value stod input (S (String.length input)) p = Throw e ->
  parse stod input = Throw e.
Proof.
  intros W V. unfold parse, parse_with, Parser_parse.
  rewrite (bind_ok _ _ _ _ _ W). unfold bind at 1. now rewrite V.
Qed.

Lemma parse_value_at_quote (double : Type) (stod : string -> option double)
  (text : string) (fuel : nat) :
  let input := String dquote text in
  skip_whitespace input 0 = Ok (tt, 0) /\
  parse_value stod input (S fuel) 0 =
  parse_string_loop input (size input) "" 1.
Proof.
  intros input. split.
  - unfold skip_whitespace. now rewrite while_advance_eq.
  - rewrite parse_value_eq. cbn [size String.length Nat.leb]. cbv zeta.
    change (char_at input 0) with dquote.
    change (Ascii.eqb dquote "n") with false.
    change (Ascii.eqb dquote "t" || Ascii.eqb dquote "f") with false.
    change (Ascii.eqb dquote dquote) with true. cbv iota.
    unfold parse_string, bind at 1. rewrite expect_char_eq.
    cbn [size String.length Nat.leb orb].
    change (char_at input 0) with dquote.
    change (negb (Ascii.eqb dquote dquote)) with false. reflexivity.
Qed.

Lemma parse_ok_at_value (double : Type) (stod : string -> option double)
  (input : string) (p : nat) (v : JsonValue double) :
  skip_whitespace input 0 = Ok (tt, p) ->
  parse_value stod input (S (String.length input)) p = Ok (v, size input) ->
  parse stod input = Ok v.
Proof.
  intros W V. unfold parse, parse_with, Parser_parse.
  rewrite (bind_ok _ _ _ _ _ W), (bind_ok _ _ _ _ _ V).
  assert (skip_whitespace input (size input) = Ok (tt, size input)) as W1.
  { unfold skip_whitespace. rewrite while_advance_eq.
    now rewrite Nat.leb_refl. }
  rewrite (bind_ok _ _ _ _ _ W1), bind_eof. now rewrite Nat.leb_refl.
Qed.

(** A string literal with one escape among unescaped bytes: each of the
    eight one-letter escapes stands for one character, which takes the
    place of the two in the parsed string; a backslash before any other
    character except u makes the whole input the "invalid escape" error. *)
Theorem escape_sequences (double : Type) (stod : string -> option double)
  (before after : string) (escaped : ascii) :
  all_bytes raw_byte before -> all_bytes raw_byte after ->
  match simple_escape escaped with
  | Some ch =>
      parse stod
        (String dquote
           (before ++
            String backslash (String escaped (after ++ String dquote ""))))
      = Ok (JString (before ++ String ch after))
  | None =>
      escaped <> "u"%char ->
      parse stod
        (String dquote
           (before ++
            String backslash (String escaped (after ++ String dquote ""))))
      = Throw (ParseError "Invalid escape sequence")
  end.
Proof.
  intros Hb Ha.
  set (rest := String backslash (String escaped (after ++ String dquote ""))).
  set (input := String dquote (before ++ rest)).
  assert (size input = String.length before + S (String.length after + 3))
    as Hsize.
  { unfold size, input, rest. cbn [String.length].
    rewrite length_append. cbn [String.length].
    rewrite length_append. cbn [String.length]. lia. }
  destruct (parse_value_at_quote double stod (before ++ rest)
              (String.length input)) as [W V].
  fold input in W, V.
  pose proof (parse_string_loop_skip double before (String dquote "") rest
                "" (S (String.length after + 3)) Hb) as L.
  change (String dquote "" ++ before ++ rest) with input in L.
  cbn [String.length append] in L. rewrite <- Hsize in L.
  rewrite L in V. clear L.
  assert (String.get (1 + String.length before) input = Some backslash)
    as G1.
  { exact (get_append_at (String dquote before) backslash
             (String escaped (after ++ String dquote ""))). }
  assert (String.get (1 + String.length before + 1) input = Some escaped)
    as G2.
  { pose proof (get_append_at (String dquote (before ++ String backslash ""))
                  escaped (after ++ String dquote "")) as G.
    cbn [String.length append] in G.
    rewrite length_append, append_assoc in G. cbn [String.length append] in G.
    replace (1 + String.length before + 1)
      with (S (String.length before + 1)) by lia.
    exact G. }
  pose proof (parse_string_loop_escape double input
                (String.length after + 3) before
                (1 + String.length before) escaped G1 G2) as E.
  destruct (simple_escape escaped) as [ch|].
  - apply (parse_ok_at_value _ _ _ _ _ W). rewrite V, E. clear V E.
    assert (String.length after < String.length after + 3) as Hlt by lia.
    pose proof (parse_string_loop_body double after
                  (String dquote
                     (before ++ String backslash (String escaped "")))
                  "" (push_back before ch) (String.length after + 3) Ha
                  Hlt) as B.
    assert (String dquote
              (before ++ String backslash (String escaped "")) ++
            after ++ String dquote "" = input) as I.
    { unfold input, rest. cbn [append]. now rewrite append_assoc. }
    rewrite I in B. cbn [String.length] in B.
    rewrite length_append in B. cbn [String.length] in B.
    replace (1 + String.length before + 2)
      with (S (String.length before + 2)) by lia.
    rewrite B. unfold push_back. rewrite append_assoc. cbn [append].
    do 2 f_equal. rewrite Hsize. lia.
  - intros N. apply (parse_throw_at_value _ _ _ _ _ W).
    rewrite V. now apply E.
Qed.

Lemma escape_sequences_witness :
  parse stod_text (json_text "'a\nb'")
  = Ok (JString (String "a" (String newline "b"))) /\
  parse stod_text (json_text "'a\xb'")
  = Throw (ParseError "Invalid escape sequence").
Proof.
  split.
  - apply (escape_sequences string stod_text "a" "b" "n"%char);
      simpl; repeat split; try discriminate; vm_compute; discriminate.
  - apply (escape_sequences string stod_text "a" "b" "x"%char);
      simpl; repeat split; try discriminate; vm_compute; discriminate.
Defined.

(** A string literal that the input ends before closing is an error: the
    "unterminated string" error when the input ends after unescaped bytes,
    the "unterminated escape" error when it ends just after a backslash. *)
Theorem unterminated_string (double : Type) (stod : string -> option double)
  (body : string) :
  all_bytes raw_byte body ->
  parse stod (String dquote body)
  = Throw (ParseError "Unterminated string") /\
  parse stod (String dquote (body ++ String backslash ""))
  = Throw (ParseError "Unterminated escape sequence").
Proof.
  intros Hraw. split.
  - destruct (parse_value_at_quote double stod body
                (String.length (String dquote body))) as [W V].
    apply (parse_throw_at_value _ _ _ _ _ W). rewrite V. clear W V.
    pose proof (parse_string_loop_skip double body (String dquote "") ""
                  "" 1 Hraw) as L.
    rewrite append_nil_r in L. cbn [append String.length] in L.
    unfold size. cbn [String.length].
    replace (S (String.length body)) with (String.length body + 1) by lia.
    rewrite L. cbn [parse_string_loop]. rewrite bind_eof.
    unfold size. cbn [String.length].
    replace (S (String.length body) <=? 1 + String.length body) with true
      by (symmetry; apply Nat.leb_le; lia).
    reflexivity.
  - destruct (parse_value_at_quote double stod (body ++ String backslash "")
                (String.length
                   (String dquote (body ++ String backslash ""))))
      as [W V].
    apply (parse_throw_at_value _ _ _ _ _ W). rewrite V. clear W V.
    pose proof (parse_string_loop_skip double body (String dquote "")
                  (String backslash "") "" 2 Hraw) as L.
    cbn [append String.length] in L.
    unfold size. cbn [String.length]. rewrite length_append.
    cbn [String.length].
    replace (S (String.length body + 1)) with (String.length body + 2)
      by lia.
    rewrite L.
    pose proof (get_append_at (String dquote body) backslash "") as G.
    cbn [append String.length] in G.
    replace (1 + String.length body) with (S (String.length body)) by lia.
    apply get_char_at in G as [C E].
    cbn [parse_string_loop]. rewrite bind_eof, E, bind_advance, E, C.
    change (Ascii.eqb backslash dquote) with false.
    change (Ascii.eqb backslash backslash) with true. cbv iota.
    rewrite bind_eof. unfold size. cbn [String.length].
    rewrite length_append. cbn [String.length].
    replace (S (String.length body + 1) <=? S (S (String.length body)))
      with true by (symmetry; apply Nat.leb_le; lia).
    reflexivity.
Qed.

Lemma unterminated_string_witness :
  parse stod_text (String dquote "abc")
  = Throw (ParseError "Unterminated string") /\
  parse stod_text (String dquote ("abc" ++ String backslash ""))
  = Throw (ParseError "Unterminated escape sequence").
Proof.
  apply unterminated_string. simpl.
  repeat split; try discriminate; vm_compute; discriminate.
Defined.

(** ** Arrays *)

Lemma parse_array_loop_elements (double : Type) (input : string)
  (pv : M (JsonValue double)) (n : nat) :
  forall (array : JsonArray double) (pos : nat) (v : JsonValue double)
         (pos' : nat),
    parse_array_loop input pv n array pos = Ok (v, pos') ->
    exists elements,
      array_elements input pv pos elements pos' /\
      v = JArray (array ++ elements)%list.
Proof.
  induction n as [|n IH]; intros array pos v pos' H; [discriminate|].
  simpl in H.
  apply bind_ok_inv in H as (value & p1 & H1 & H).
  apply bind_ok_inv in H as ([] & p & H2 & H).
  rewrite bind_peek in H. destruct (size input <=? p) eqn:E; [discriminate|].
  assert (peek input p = Ok (char_at input p, p)) as Hp
      by (rewrite peek_eq, E; reflexivity).
  destruct (Ascii.eqb_spec (char_at input p) ",") as [C|C].
  - rewrite bind_advance, E in H.
    apply bind_ok_inv in H as ([] & p' & H3 & H).
    apply IH in H as (elements & Hel & ->).
    exists (value :: elements); split.
    + eapply elements_more; eauto. now rewrite Hp, C.
    + now rewrite <- app_assoc.
  - rewrite bind_peek, E in H.
    destruct (Ascii.eqb_spec (char_at input p) "]") as [C'|C'];
      [|discriminate].
    rewrite bind_advance, E in H. inversion H; subst.
    exists [value]; split; auto.
    eapply elements_last; eauto. now rewrite Hp, C'.
Qed.

Lemma array_elements_parse (double : Type) (input : string)
  (pv : M (JsonValue double)) (pos : nat)
  (elements : list (JsonValue double)) (pos' : nat) :
  array_elements input pv pos elements pos' ->
  forall n array, List.length elements <= n ->
    parse_array_loop input pv n array pos =
    Ok (JArray (array ++ elements)%list, pos').
Proof.
  induction 1 as [pos value p1 p H1 H2 Hp
                 |pos value p1 p p' pos' rest H1 H2 Hp H3 Hrest IH];
    intros n array Hn; (destruct n as [|n]; [simpl in Hn; lia|]);
    apply peek_ok in Hp as (Hp1 & Hp2 & _);
    apply Nat.leb_gt in Hp1;
    simpl; rewrite (bind_ok _ _ _ _ _ H1), (bind_ok _ _ _ _ _ H2);
    rewrite bind_peek, Hp1, <- Hp2.
  - change (Ascii.eqb "]" ",") with false. cbv iota.
    rewrite bind_peek, Hp1, <- Hp2, Ascii.eqb_refl, bind_advance, Hp1.
    reflexivity.
  - rewrite Ascii.eqb_refl, bind_advance, Hp1, (bind_ok _ _ _ _ _ H3).
    rewrite IH by (simpl in Hn; lia). now rewrite <- app_assoc.
Qed.

(** An array literal parses to the array of its values in the order of the
    input, duplicates kept; conversely the parser returns this array for
    every such literal (given a counter of at least the number of
    values). *)
Theorem array_keeps_input_order (double : Type) (input : string)
  (pv : M (JsonValue double)) (n pos pos' : nat) :
  (forall v : JsonValue double,
      parse_array input pv n pos = Ok (v, pos') ->
      exists elements,
        array_literal input pv pos elements pos' /\ v = JArray elements) /\
  (forall elements : list (JsonValue double),
      array_literal input pv pos elements pos' ->
      List.length elements <= n ->
      parse_array input pv n pos = Ok (JArray elements, pos')).
Proof.
  split.
  - unfold parse_array. intros v H.
    apply bind_ok_inv in H as ([] & p0 & H0 & H).
    assert (p0 = S pos) as ->.
    { rewrite expect_char_eq in H0. destruct (_ || _); now inversion H0. }
    apply bind_ok_inv in H as ([] & p & Hw & H).
    rewrite bind_peek in H.
    destruct (size input <=? p) eqn:E; [discriminate|].
    assert (peek input p = Ok (char_at input p, p)) as Hp
        by (rewrite peek_eq, E; reflexivity).
    destruct (Ascii.eqb_spec (char_at input p) "]") as [C|C].
    + rewrite bind_advance, E in H. inversion H; subst.
      exists []; split; auto. exists p; repeat split; auto.
      left; repeat split; auto. now rewrite Hp, C.
    + apply parse_array_loop_elements in H as (elements & Hel & ->).
      exists elements; split; auto.
      exists p; repeat split; auto. right; split; auto.
      exists (char_at input p); split; auto.
  - intros elements (p & H0 & Hw & Hcase) Hn. unfold parse_array.
    rewrite (bind_ok _ _ _ _ _ H0), (bind_ok _ _ _ _ _ Hw), bind_peek.
    destruct Hcase as [(Hp & -> & ->)|((ch & Hp & C) & Hel)];
      apply peek_ok in Hp as (Hp1 & -> & _); apply Nat.leb_gt in Hp1;
      rewrite Hp1.
    + now rewrite Ascii.eqb_refl, bind_advance, Hp1.
    + apply Ascii.eqb_neq in C. rewrite C.
      now rewrite (array_elements_parse _ _ _ _ _ _ Hel n []).
Qed.

Lemma array_keeps_input_order_witness :
  parse_array "[2,1,2]" (parse_value stod_text "[2,1,2]" 1) 3 0
  = Ok (JArray [JNumber "2"; JNumber "1"; JNumber "2"], 7) /\
  exists elements,
    array_literal "[2,1,2]" (parse_value stod_text "[2,1,2]" 1) 0 elements 7
    /\ JArray [JNumber "2"; JNumber "1"; JNumber "2"] = JArray elements.
Proof.
  assert (parse_array "[2,1,2]" (parse_value stod_text "[2,1,2]" 1) 3 0
          = Ok (JArray [JNumber "2"; JNumber "1"; JNumber "2"], 7)) as E
      by reflexivity.
  split; [exact E|].
  exact (proj1 (array_keeps_input_order string "[2,1,2]"
                  (parse_value stod_text "[2,1,2]" 1) 3 0 7) _ E).
Defined.

Lemma parse_array_loop_commas (double : Type) (input : string)
  (pv : M (JsonValue double)) (pos : nat)
  (values : list (JsonValue double)) (pos' : nat) :
  array_commas input pv pos values pos' ->
  forall n array,
    parse_array_loop input pv (List.length values + n) array pos =
    parse_array_loop input pv n (array ++ values)%list pos'.
Proof.
  induction 1 as [pos|pos value p1 p p' pos' rest H1 H2 Hp H3 Hrest IH];
    intros n array.
  - now rewrite app_nil_r.
  - assert ((size input <=? p) = false) as Hp1
        by (rewrite peek_eq in Hp; destruct (size input <=? p);
            [discriminate|reflexivity]).
    assert (char_at input p = ","%char) as Hp2
        by (rewrite peek_eq, Hp1 in Hp; now inversion Hp).
    cbn [List.length Nat.add parse_array_loop].
    rewrite (bind_ok _ _ _ _ _ H1), (bind_ok _ _ _ _ _ H2).
    rewrite bind_peek, Hp1, Hp2, Ascii.eqb_refl, bind_advance, Hp1.
    rewrite (bind_ok _ _ _ _ _ H3), IH. now rewrite <- app_assoc.
Qed.

(** A comma in an array must be followed by a value: where, after any
    number of values each followed by a comma, the input has the closing
    bracket (a trailing comma) or one more comma, the array is not
    accepted, and the error is the "invalid value" error of the value
    parser. *)
Theorem array_trailing_comma_rejected (double : Type)
  (stod : string -> option double) (input : string) (fuel n : nat)
  (array values : JsonArray double) (pos pos' : nat) (ch : ascii) :
  array_commas input (parse_value stod input (S fuel)) pos values pos' ->
  String.get pos' input = Some ch -> ch = "]"%char \/ ch = ","%char ->
  List.length values < n ->
  parse_array_loop input (parse_value stod input (S fuel)) n array pos
  = Throw (ParseError "Invalid JSON value").
Proof.
  intros Hc G Hch Hn.
  replace n with (List.length values + S (n - List.length values - 1))
    by lia.
  rewrite (parse_array_loop_commas _ _ _ _ _ _ Hc).
  apply get_char_at in G as [C E].
  cbn [parse_array_loop]. unfold bind at 1.
  rewrite parse_value_eq, E, C. now destruct Hch as [-> | ->].
Qed.

Lemma array_trailing_comma_rejected_witness :
  parse_array_loop "[1,]" (parse_value stod_text "[1,]" 1) 2 [] 1
  = Throw (ParseError "Invalid JSON value") /\
  parse stod_text "[1,]" = Throw (ParseError "Invalid JSON value").
Proof.
  split; [|reflexivity].
  apply (array_trailing_comma_rejected string stod_text "[1,]" 0 2 []
           [JNumber "1"] 1 3 "]"%char).
  - apply (commas_more "[1,]" _ 1 (JNumber "1") 2 2 3 3 []);
      try reflexivity.
    apply commas_none.
  - reflexivity.
  - now left.
  - simpl; lia.
Defined.


(** ** Numbers *)

(** The text [parse_number] hands to [std::stod] is the part of the input
    it has moved over, and that text follows the JSON number production;
    the number it returns is what [std::stod] makes of it. *)
Theorem number_lexeme_is_json_number (double : Type)
  (stod : string -> option double) (input : string) (pos : nat)
  (v : JsonValue double) (pos' : nat) :
  parse_number stod input pos = Ok (v, pos') ->
  pos < pos' /\ pos' <= String.length input /\
  json_number (substring pos (pos' - pos) input) /\
  exists d, stod (substring pos (pos' - pos) input) = Some d /\
            v = JNumber d.
Proof.
  intros H.
  destruct (parse_number_lexeme double stod input pos v pos' H)
    as (L1 & L2 & Hn & d & Hd & Hv).
  refine (conj L1 (conj L2 (conj Hn _))). now exists d.
Qed.

Lemma number_lexeme_is_json_number_witness :
  json_number (substring 1 (8 - 1) "[-0.5e+2]") /\
  stod_text (substring 1 (8 - 1) "[-0.5e+2]") = Some "-0.5e+2".
Proof.
  destruct (number_lexeme_is_json_number string stod_text "[-0.5e+2]" 1
              (JNumber "-0.5e+2") 8 eq_refl) as (_ & _ & G & _).
  split; [exact G|reflexivity].
Defined.

(** ** The exceptions that leave the parser *)

Section Exceptions.

Context {double : Type}.
Variable stod : string -> option double.
Variable input : string.

#[local] Abbreviation P := (parser_exception stod).

Lemma raises_bind {A B : Type} (m : M A) (f : A -> M B) (pos : nat) :
  raises P (m pos) ->
  (forall a pos', m pos = Ok (a, pos') -> raises P (f a pos')) ->
  raises P (bind m f pos).
Proof.
  unfold bind. destruct (m pos) as [[a p]|e|]; simpl; auto.
Qed.

Lemma raises_parse_error {A : Type} (message : string) :
  raises P (@Throw A (ParseError message)).
Proof. left; eauto. Qed.

Lemma raises_peek (pos : nat) : raises P (peek input pos).
Proof.
  rewrite peek_eq. destruct (_ <=? _); [apply raises_parse_error|exact I].
Qed.

Lemma raises_advance (pos : nat) : raises P (advance input pos).
Proof.
  rewrite advance_eq. destruct (_ <=? _); [apply raises_parse_error|exact I].
Qed.

Lemma raises_expect_char (expected : ascii) (pos : nat) :
  raises P (expect_char input expected pos).
Proof.
  rewrite expect_char_eq. destruct (_ || _);
    [apply raises_parse_error|exact I].
Qed.

Lemma raises_while_advance (p : ascii -> bool) (n : nat) :
  forall pos, raises P (while_advance input p n pos).
Proof.
  induction n as [|n IH]; intros pos; rewrite while_advance_eq;
    destruct (_ && _); simpl; auto.
Qed.

Lemma raises_skip_whitespace (pos : nat) :
  raises P (skip_whitespace input pos).
Proof. apply raises_while_advance. Qed.

Lemma raises_match (text : string) (pos : nat) :
  pos <= size input -> raises P (match_ input text pos).
Proof. intros H. rewrite match_eq by auto. now destruct (String.eqb _ _). Qed.

Ltac raises_step :=
  first
    [ exact I
    | apply raises_parse_error
    | apply raises_peek
    | apply raises_advance
    | apply raises_expect_char
    | apply raises_while_advance
    | apply raises_skip_whitespace
    | match goal with
      | |- raises _ (bind _ _ _) => apply raises_bind; [|intros ? ? ?]
      | |- raises _ ((if ?b then _ else _) _) => destruct b
      end ].

Lemma raises_unicode_digits (i : nat) :
  forall value pos, raises P (unicode_digits input i value pos).
Proof.
  induction i as [|i IH]; intros value pos; [exact I|].
  rewrite unicode_digits_eq. cbv zeta.
  repeat match goal with
         | |- context [if ?b then _ else _] => destruct b
         end; try apply raises_parse_error; apply IH.
Qed.

Lemma raises_parse_unicode_escape (pos : nat) :
  raises P (parse_unicode_escape input pos).
Proof.
  unfold parse_unicode_escape. apply raises_bind.
  - apply raises_unicode_digits.
  - intros v p _. now destruct (v <=? 127)%Z.
Qed.

Lemma raises_parse_string_loop (n : nat) :
  forall result pos,
    raises P (@parse_string_loop double input n result pos).
Proof.
  induction n as [|n IH]; intros result pos; cbn [parse_string_loop].
  - unfold eof, bind. destruct (_ <=? _); [apply raises_parse_error|exact I].
  - unfold eof at 1. unfold bind at 1.
    destruct (_ <=? _); [apply raises_parse_error|].
    apply raises_bind; [apply raises_advance|]. intros ch p _.
    destruct (Ascii.eqb ch dquote); [exact I|].
    destruct (Ascii.eqb ch backslash).
    + unfold eof at 1. unfold bind at 1.
      destruct (_ <=? _); [apply raises_parse_error|].
      apply raises_bind; [apply raises_advance|]. intros escaped q _.
      apply raises_bind; [|intros; apply IH].
      repeat match goal with
             | |- raises _ ((if ?b then _ else _) _) => destruct b
             end; try exact I; try apply raises_parse_error.
      apply raises_bind; [apply raises_parse_unicode_escape|].
      intros; exact I.
    + destruct (_ <? _)%N; [apply raises_parse_error|apply IH].
Qed.

Lemma raises_parse_string (pos : nat) :
  raises P (@parse_string double input pos).
Proof.
  unfold parse_string. apply raises_bind; [apply raises_expect_char|].
  intros; apply raises_parse_string_loop.
Qed.

Lemma parse_string_is_string (pos : nat) (v : JsonValue double)
  (pos' : nat) :
  parse_string input pos = Ok (v, pos') -> exists s, v = JString s.
Proof.
  unfold parse_string. intros H.
  apply bind_ok_inv in H as (_ & p & _ & H).
  now apply parse_string_returns_string in H.
Qed.

Lemma raises_parse_number (pos : nat) :
  raises P (parse_number stod input pos).
Proof.
  unfold parse_number. rewrite bind_get_pos, bind_peek.
  destruct (size input <=? pos) eqn:E; [apply raises_parse_error|].
  apply Nat.leb_gt in E.
  apply raises_bind; [repeat raises_step|]. intros _ p1 _.
  unfold eof at 1. unfold bind at 1.
  destruct (_ <=? _); [apply raises_parse_error|].
  apply raises_bind; [apply raises_peek|]. intros ch p2 _.
  apply raises_bind; [repeat raises_step|]. intros _ p3 _.
  rewrite bind_not_eof_and.
  apply raises_bind.
  { destruct (_ && _); [|exact I].
    apply raises_bind; [apply raises_advance|]. intros _ q _.
    rewrite bind_not_eof_and. repeat raises_step. }
  intros _ p4 _. rewrite bind_not_eof_and.
  apply raises_bind.
  { destruct (_ && _); [|exact I].
    apply raises_bind; [apply raises_advance|]. intros _ q _.
    rewrite bind_not_eof_and.
    apply raises_bind; [repeat raises_step|]. intros _ q' _.
    rewrite bind_not_eof_and. repeat raises_step. }
  intros _ p5 _. rewrite bind_get_pos.
  unfold substr, lift, bind at 1.
  replace (size input <? pos) with false
    by (symmetry; apply Nat.ltb_ge; lia).
  destruct (stod _) as [d|] eqn:Ed; [exact I|].
  right; split; eauto.
Qed.

Lemma raises_separator {A : Type} (close : ascii) (again : M A) (done : A)
  (message : string) (pos : nat) :
  (forall p, raises P (again p)) ->
  raises P
    ((skip_whitespace input ;;;
      ch <- peek input ;;
      if Ascii.eqb ch ","
      then advance input ;;; skip_whitespace input ;;; again
      else ch <- peek input ;;
           if Ascii.eqb ch close then advance input ;;; ret done
           else throw (ParseError message)) pos).
Proof.
  intros H. repeat raises_step; apply H.
Qed.

Lemma raises_parse_array_loop (pv : M (JsonValue double)) (n : nat) :
  (forall p, raises P (pv p)) ->
  forall array pos, raises P (parse_array_loop input pv n array pos).
Proof.
  intros Hpv; induction n as [|n IH]; intros array pos; [exact I|].
  cbn [parse_array_loop]. apply raises_bind; [apply Hpv|].
  intros v p _. apply raises_separator. intros; apply IH.
Qed.

Lemma raises_parse_object_loop (pv : M (JsonValue double)) (n : nat) :
  (forall p, raises P (pv p)) ->
  forall object pos, raises P (parse_object_loop input pv n object pos).
Proof.
  intros Hpv; induction n as [|n IH]; intros object pos; [exact I|].
  cbn [parse_object_loop]. apply raises_bind; [apply raises_peek|].
  intros ch p _. destruct (negb _); [apply raises_parse_error|].
  apply raises_bind; [apply raises_parse_string|]. intros s p1 Hs.
  apply parse_string_is_string in Hs as [key ->].
  cbn [as_string]. rewrite bind_lift_ok.
  apply raises_bind; [apply raises_skip_whitespace|]. intros _ p2 _.
  apply raises_bind; [apply raises_expect_char|]. intros _ p3 _.
  apply raises_bind; [apply raises_skip_whitespace|]. intros _ p4 _.
  apply raises_bind; [apply Hpv|]. intros v p5 _.
  apply raises_separator. intros; apply IH.
Qed.

Lemma raises_parse_value (fuel : nat) :
  forall pos, raises P (parse_value stod input fuel pos).
Proof.
  induction fuel as [|fuel IH]; intros pos; [exact I|].
  rewrite parse_value_eq.
  destruct (size input <=? pos) eqn:E; [apply raises_parse_error|].
  apply Nat.leb_gt in E. cbv zeta.
  destruct (Ascii.eqb _ "n").
  { unfold parse_null, expect. rewrite bind_bind.
    apply raises_bind; [apply raises_match; lia|].
    intros [|] p _; [exact I|apply raises_parse_error]. }
  destruct (_ || _).
  { unfold parse_bool. apply raises_bind; [apply raises_match; lia|].
    intros [|] p Hm; [exact I|]. apply match_false in Hm; subst p.
    apply raises_bind; [apply raises_match; lia|].
    intros [|] p _; [exact I|apply raises_parse_error]. }
  destruct (Ascii.eqb _ dquote); [apply raises_parse_string|].
  destruct (Ascii.eqb _ "[").
  { unfold parse_array. repeat raises_step.
    now apply raises_parse_array_loop. }
  destruct (Ascii.eqb _ "{").
  { unfold parse_object. repeat raises_step.
    now apply raises_parse_object_loop. }
  destruct (_ || _); [apply raises_parse_number|apply raises_parse_error].
Qed.

End Exceptions.

Lemma raises_parse (double : Type) (stod : string -> option double)
  (input : string) :
  raises (parser_exception stod) (parse stod input).
Proof.
  unfold parse, parse_with.
  assert (raises (parser_exception stod)
            (Parser_parse stod input (S (String.length input)) 0)) as R.
  { unfold Parser_parse.
    apply raises_bind; [apply raises_skip_whitespace|]. intros _ p1 _.
    apply raises_bind; [apply raises_parse_value|]. intros v p2 _.
    apply raises_bind; [apply raises_skip_whitespace|]. intros _ p3 _.
    rewrite bind_eof. destruct (_ <=? _);
      [exact I|apply raises_parse_error]. }
  now destruct (Parser_parse stod input (S (String.length input)) 0)
    as [[v p]|e|].
Qed.

(** Every exception that leaves [parse] is a [ParseError], or the
    [std::out_of_range] of a [std::stod] that rejects some text: never a
    [std::bad_variant_access], and with a conversion that accepts every
    text never anything but a [ParseError]. *)
Theorem parse_throws_parser_exceptions (double : Type)
  (stod : string -> option double) (input : string) (e : exception) :
  parse stod input = Throw e ->
  parser_exception stod e /\ e <> bad_variant_access /\
  ((forall lexeme, stod lexeme <> None) -> exists message,
      e = ParseError message).
Proof.
  intros H.
  assert (parser_exception stod e) as Pe.
  { pose proof (raises_parse double stod input) as R. now rewrite H in R. }
  split; [exact Pe|split].
  - destruct Pe as [[m ->]|[-> _]]; discriminate.
  - intros Htotal. destruct Pe as [Hm|[_ [lexeme Hl]]]; auto.
    now apply Htotal in Hl.
Qed.

Lemma parse_throws_parser_exceptions_witness :
  parser_exception stod_text (ParseError "Invalid JSON value") /\
  ParseError "Invalid JSON value" <> bad_variant_access.
Proof.
  destruct (parse_throws_parser_exceptions string stod_text "?"
              (ParseError "Invalid JSON value") eq_refl) as (H1 & H2 & _).
  split; assumption.
Defined.

(** ** The size of the value against the input consumed *)

Section Cost.

Context {double : Type}.
Variable stod : string -> option double.
Variable input : string.

Lemma list_sum_cons (a : nat) (l : list nat) :
  list_sum (a :: l) = a + list_sum l.
Proof. reflexivity. Qed.

Lemma weight_array (array : JsonArray double) :
  weight (JArray array) = S (list_sum (map weight array)).
Proof.
  simpl. f_equal. induction array as [|x array IH]; simpl; auto.
Qed.

Lemma weight_object (object : JsonObject double) :
  weight (JObject object) =
  S (list_sum (map (fun kv => String.length (fst kv) + weight (snd kv))
                 object)).
Proof.
  simpl. f_equal. induction object as [|[k x] object IH]; simpl; auto.
Qed.

Lemma weight_map_emplace (key : string) (value : JsonValue double)
  (object : JsonObject double) :
  weight (JObject (map_emplace key value object)) <=
  weight (JObject object) + String.length key + weight value.
Proof.
  rewrite !weight_object.
  induction object as [|[k x] object IH]; simpl; [lia|].
  destruct (String.compare k key); simpl; lia.
Qed.

Lemma weight_emplace_all (members : list (string * JsonValue double)) :
  forall object,
    weight (JObject (emplace_all members object)) <=
    weight (JObject object)
    + list_sum (map (fun kv => String.length (fst kv) + weight (snd kv))
                  members).
Proof.
  induction members as [|[k x] members IH]; intros object.
  - unfold emplace_all. cbn [fold_left map list_sum]. lia.
  - change (emplace_all ((k, x) :: members) object)
      with (emplace_all members (map_emplace k x object)).
    cbn [map fst snd]. rewrite list_sum_cons.
    specialize (IH (map_emplace k x object)).
    pose proof (weight_map_emplace k x object). lia.
Qed.

Lemma while_advance_mono (p : ascii -> bool) (n : nat) :
  forall pos pos', while_advance input p n pos = Ok (tt, pos') -> pos <= pos'.
Proof.
  induction n as [|n IH]; intros pos pos'; rewrite while_advance_eq;
    destruct (_ && _); try discriminate;
    intros H; try (inversion H; lia).
  apply IH in H. lia.
Qed.

Lemma skip_whitespace_mono (pos pos' : nat) :
  skip_whitespace input pos = Ok (tt, pos') -> pos <= pos'.
Proof. apply while_advance_mono. Qed.

Lemma unicode_digits_mono (i : nat) :
  forall value pos v pos',
    unicode_digits input i value pos = Ok (v, pos') -> pos <= pos'.
Proof.
  induction i as [|i IH]; intros value pos v pos'.
  - intros H; inversion H; lia.
  - rewrite unicode_digits_eq. cbv zeta.
    repeat match goal with
           | |- context [if ?b then _ else _] => destruct b
           end; try discriminate; intros H; apply IH in H; lia.
Qed.

Lemma parse_string_loop_cost (n : nat) :
  forall result pos (v : JsonValue double) pos',
    parse_string_loop input n result pos = Ok (v, pos') ->
    exists s, v = JString s /\
              String.length s + pos + 1 <= pos' + String.length result.
Proof.
  induction n as [|n IH]; intros result pos v pos'; cbn [parse_string_loop];
    rewrite bind_eof; destruct (size input <=? pos) eqn:E;
    try discriminate.
  rewrite bind_advance, E.
  destruct (Ascii.eqb (char_at input pos) dquote).
  { intros H; inversion H; subst. exists result; split; auto; lia. }
  assert (forall ch, String.length (push_back result ch)
                     = S (String.length result)) as Hpush.
  { intros ch. unfold push_back. rewrite length_append. simpl; lia. }
  destruct (Ascii.eqb (char_at input pos) backslash).
  - rewrite bind_eof. destruct (size input <=? S pos) eqn:E1;
      [discriminate|].
    rewrite bind_advance, E1. intros H.
    apply bind_ok_inv in H as (r & q & Hr & H).
    assert (S (S pos) <= q /\ String.length r = S (String.length result))
      as [Hq Hlen].
    { repeat match type of Hr with
             | (if ?b then _ else _) _ = _ => destruct b
             end;
        try (inversion Hr; subst; split; [lia|apply Hpush]);
        try discriminate.
      apply bind_ok_inv in Hr as (u & q' & Hu & Hr).
      unfold parse_unicode_escape in Hu.
      apply bind_ok_inv in Hu as (z & q'' & Hz & Hu).
      apply unicode_digits_mono in Hz.
      unfold ret in Hu, Hr.
      destruct (z <=? 127)%Z; injection Hu as <- <-; injection Hr as <- <-;
        (split; [lia|apply Hpush]). }
    apply IH in H as (s & -> & H). exists s; split; auto. lia.
  - destruct (_ <? _)%N; [discriminate|]. intros H.
    apply IH in H as (s & -> & H). exists s; split; auto.
    rewrite Hpush in H. lia.
Qed.

Lemma parse_string_cost (pos : nat) (v : JsonValue double) (pos' : nat) :
  parse_string input pos = Ok (v, pos') ->
  exists s, v = JString s /\ pos + String.length s + 2 <= pos'.
Proof.
  unfold parse_string. intros H.
  apply bind_ok_inv in H as ([] & p & He & H).
  rewrite expect_char_eq in He. destruct (_ || _); [discriminate|].
  inversion He; subst.
  apply parse_string_loop_cost in H as (s & -> & H).
  exists s; split; auto. simpl in H. lia.
Qed.

Variable pv : M (JsonValue double).
Hypothesis pv_cost :
  forall pos v pos', pv pos = Ok (v, pos') -> pos + weight v <= pos'.

Lemma array_elements_cost (pos : nat) (elements : list (JsonValue double))
  (pos' : nat) :
  array_elements input pv pos elements pos' ->
  pos + list_sum (map weight elements) + 1 <= pos'.
Proof.
  induction 1 as [pos value p1 p H1 H2 Hp
                 |pos value p1 p p' pos' rest H1 H2 Hp H3 Hrest IH];
    apply pv_cost in H1; apply skip_whitespace_mono in H2; simpl.
  - lia.
  - apply skip_whitespace_mono in H3. lia.
Qed.

Lemma object_members_cost (pos : nat)
  (members : list (string * JsonValue double)) (pos' : nat) :
  object_members input pv pos members pos' ->
  pos + list_sum (map (fun kv => String.length (fst kv) + weight (snd kv))
                    members) + 1 <= pos'.
Proof.
  assert (forall pos key value p,
             member_at input pv pos key value p ->
             pos + String.length key + weight value + 3 <= p) as Hm.
  { intros q key value p (p1 & p2 & p3 & p4 & p5 & H1 & H2 & H3 & H4 & H5
                          & H6).
    apply parse_string_cost in H1 as (s & E & H1). injection E as <-.
    apply skip_whitespace_mono in H2, H4, H6. apply pv_cost in H5.
    rewrite expect_char_eq in H3. destruct (_ || _); [discriminate|].
    inversion H3; subst. lia. }
  induction 1 as [pos key value p Hmem Hp
                 |pos key value p p' pos' rest Hmem Hp Hw Hrest IH];
    apply Hm in Hmem; simpl.
  - lia.
  - apply skip_whitespace_mono in Hw. lia.
Qed.

End Cost.

Lemma parse_value_cost (double : Type) (stod : string -> option double)
  (input : string) (fuel : nat) :
  forall pos v pos',
    parse_value stod input fuel pos = Ok (v, pos') ->
    pos + weight v <= pos'.
Proof.
  induction fuel as [|fuel IH]; intros pos v pos'; [discriminate|].
  rewrite parse_value_eq.
  destruct (size input <=? pos) eqn:E; [discriminate|].
  apply Nat.leb_gt in E. cbv zeta.
  destruct (Ascii.eqb _ "n").
  { unfold parse_null, expect. rewrite bind_bind. intros H.
    apply bind_ok_inv in H as ([|] & p & Hm & H); [|discriminate].
    apply match_true in Hm as [-> _]; [|lia].
    inversion H; subst. simpl; lia. }
  destruct (_ || _).
  { unfold parse_bool. intros H.
    apply bind_ok_inv in H as ([|] & p & Hm & H).
    - apply match_true in Hm as [-> _]; [|lia].
      inversion H; subst. simpl; lia.
    - apply match_false in Hm; subst p.
      apply bind_ok_inv in H as ([|] & p & Hm & H); [|discriminate].
      apply match_true in Hm as [-> _]; [|lia].
      inversion H; subst. simpl; lia. }
  destruct (Ascii.eqb _ dquote).
  { intros H. apply parse_string_cost in H as (s & -> & H). simpl; lia. }
  destruct (Ascii.eqb _ "[").
  { unfold parse_array. intros H.
    apply bind_ok_inv in H as ([] & p0 & H0 & H).
    rewrite expect_char_eq in H0. destruct (_ || _); [discriminate|].
    inversion H0; subst p0. clear H0.
    apply bind_ok_inv in H as ([] & p & Hw & H).
    apply skip_whitespace_mono in Hw.
    rewrite bind_peek in H.
    destruct (size input <=? p) eqn:Ep; [discriminate|].
    destruct (Ascii.eqb _ "]").
    - rewrite bind_advance, Ep in H. inversion H; subst. simpl; lia.
    - apply parse_array_loop_elements in H as (elements & Hel & ->).
      apply (array_elements_cost input _ IH) in Hel.
      rewrite weight_array. simpl. lia. }
  destruct (Ascii.eqb _ "{").
  { unfold parse_object. intros H.
    apply bind_ok_inv in H as ([] & p0 & H0 & H).
    rewrite expect_char_eq in H0. destruct (_ || _); [discriminate|].
    inversion H0; subst p0. clear H0.
    apply bind_ok_inv in H as ([] & p & Hw & H).
    apply skip_whitespace_mono in Hw.
    rewrite bind_peek in H.
    destruct (size input <=? p) eqn:Ep; [discriminate|].
    destruct (Ascii.eqb _ "}").
    - rewrite bind_advance, Ep in H. inversion H; subst. simpl; lia.
    - apply parse_object_loop_members in H as (members & Hms & ->).
      apply (object_members_cost input _ IH) in Hms.
      pose proof (weight_emplace_all members []) as W.
      simpl in W |- *. simpl in Hms. lia. }
  destruct (_ || _); [|discriminate].
  intros H.
  pose proof (lands_parse_number input stod pos ltac:(lia)) as L.
  rewrite H in L. simpl in L.
  assert (exists d, v = JNumber d) as [d ->].
  { unfold parse_number in H.
    repeat match type of H with
           | bind _ _ _ = Ok _ =>
               apply bind_ok_inv in H as (? & ? & _ & H)
           | (if ?b then _ else _) _ = Ok _ => destruct b; try discriminate
           end.
    destruct (stod _); inversion H; eauto. }
  simpl; lia.
Qed.

(** The size of a parsed value (its nodes plus the bytes of its strings
    and keys) is at most the number of characters the parser moved over
    for it: a call of [parse_value] that returns [v] leaves the cursor at
    least [weight v] further, and the value [parse] returns is no larger
    than the input. *)
Theorem value_no_larger_than_input (double : Type)
  (stod : string -> option double) (input : string) :
  (forall fuel pos v pos',
      parse_value stod input fuel pos = Ok (v, pos') ->
      pos + weight v <= pos') /\
  (forall v, parse stod input = Ok v -> weight v <= String.length input).
Proof.
  split; [apply parse_value_cost|].
  intros v. unfold parse, parse_with.
  pose proof (lands_Parser_parse double stod input
                (S (String.length input)) (Nat.lt_succ_diag_r _)) as L.
  unfold Parser_parse in *.
  destruct (bind _ _ 0) as [[v' p]|e|] eqn:E; try discriminate.
  intros H; injection H as ->.
  apply bind_ok_inv in E as ([] & p1 & H1 & E).
  apply bind_ok_inv in E as (v' & p2 & H2 & E).
  apply bind_ok_inv in E as ([] & p3 & H3 & E).
  rewrite bind_eof in E. destruct (_ <=? _); [|discriminate].
  inversion E; subst. simpl in L.
  apply parse_value_cost in H2. apply skip_whitespace_mono in H3.
  unfold size in L. lia.
Qed.

Lemma value_no_larger_than_input_witness :
  weight (JArray [JString "ab"; JObject [("k", @JNull string)]]) <= 17.
Proof.
  exact (proj2 (value_no_larger_than_input string stod_text
                  (json_text "['ab',{'k':null}]")) _ eq_refl).
Defined.

(** * Properties of the pipeline *)

Import pipeline.

(** ** escape_csv and the CSV reader *)

Lemma escape_csv_loop_app (value : string) :
  forall escaped,
    escape_csv_loop value escaped = escaped ++ escape_csv_loop value "".
Proof.
  induction value as [|ch value IH]; intros escaped; cbn [escape_csv_loop].
  - now rewrite append_nil_r.
  - cbv zeta. rewrite IH. symmetry. rewrite IH. unfold push_back.
    destruct (Ascii.eqb ch dquote); cbn [append];
      now rewrite ?append_assoc.
Qed.

Lemma plain_cons (ch : ascii) (field : string) :
  plain (String ch field) ->
  Ascii.eqb ch "," = false /\ Ascii.eqb ch dquote = false /\
  Ascii.eqb ch newline = false /\ plain field.
Proof.
  unfold plain. cbn [find_first_of one_of].
  destruct (Ascii.eqb ch ","), (Ascii.eqb ch dquote), (Ascii.eqb ch newline);
    cbn [orb]; try discriminate.
  destruct (find_first_of field _); [discriminate|auto].
Qed.

Lemma read_csv_plain (field : string) :
  plain field ->
  forall text mode acc row,
    mode = at_start \/ mode = in_plain ->
    exists mode',
      (mode' = at_start \/ mode' = in_plain) /\
      read_csv_from (field ++ text) mode acc row
      = read_csv_from text mode' (acc ++ field) row.
Proof.
  induction field as [|ch field IH]; intros P text mode acc row Hm.
  - exists mode. now rewrite append_nil_r.
  - apply plain_cons in P as (C & Q & N & P).
    destruct (IH P text in_plain (push_back acc ch) row) as (mode' & Hm' & E);
      auto.
    exists mode'; split; auto.
    unfold push_back in E. rewrite append_assoc in E. cbn [append] in E |- *.
    rewrite <- E. unfold push_back.
    destruct Hm as [-> | ->]; cbn [read_csv_from]; now rewrite C, N, Q.
Qed.

Lemma read_csv_plain_comma (field text : string) (row : list string) :
  plain field ->
  read_csv_from (field ++ String "," text) at_start "" row
  = read_csv_from text at_start "" (field :: row).
Proof.
  intros P.
  destruct (read_csv_plain field P (String "," text) at_start "" row)
    as (mode' & [-> | ->] & ->); auto.
Qed.

Lemma read_csv_plain_newline (field text : string) (row : list string) :
  plain field ->
  read_csv_from (field ++ String newline text) at_start "" row
  = rev (field :: row) :: read_csv_from text at_start "" [].
Proof.
  intros P.
  destruct (read_csv_plain field P (String newline text) at_start "" row)
    as (mode' & [-> | ->] & ->); auto.
Qed.

Lemma read_csv_quoted (value : string) :
  forall text acc row,
    read_csv_from (escape_csv_loop value "" ++ String dquote text)
      in_quoted acc row
    = read_csv_from text after_quote (acc ++ value) row.
Proof.
  induction value as [|ch value IH]; intros text acc row.
  - cbn [escape_csv_loop append read_csv_from].
    change (Ascii.eqb dquote dquote) with true. cbv iota.
    now rewrite append_nil_r.
  - cbn [escape_csv_loop]. cbv zeta. rewrite escape_csv_loop_app.
    unfold push_back. destruct (Ascii.eqb_spec ch dquote) as [->|N].
    + rewrite append_assoc. cbn [append read_csv_from].
      change (Ascii.eqb dquote dquote) with true.
      change (Ascii.eqb dquote ",") with false.
      change (Ascii.eqb dquote newline) with false. cbv iota.
      rewrite IH. unfold push_back. now rewrite append_assoc.
    + rewrite append_assoc. cbn [append read_csv_from].
      apply Ascii.eqb_neq in N. rewrite N.
      rewrite IH. unfold push_back. now rewrite append_assoc.
Qed.

Lemma read_csv_escaped (value text : string) (row : list string) :
  read_csv_from (escape_csv value ++ String "," text) at_start "" row
  = read_csv_from text at_start "" (value :: row).
Proof.
  unfold escape_csv.
  destruct (find_first_of value _) as [i|] eqn:F; cbn [negb]; cbv iota zeta.
  - rewrite escape_csv_loop_app. unfold push_back.
    rewrite append_assoc. cbn [append read_csv_from].
    change (Ascii.eqb dquote ",") with false.
    change (Ascii.eqb dquote newline) with false.
    change (Ascii.eqb dquote dquote) with true. cbv iota.
    rewrite read_csv_quoted. reflexivity.
  - now apply read_csv_plain_comma.
Qed.

Lemma escape_csv_loop_doubled (value : string) :
  escape_csv_loop value "" = doubled value.
Proof.
  induction value as [|ch value IH]; [reflexivity|].
  cbn [escape_csv_loop doubled]. cbv zeta. rewrite escape_csv_loop_app.
  unfold push_back. rewrite IH.
  destruct (Ascii.eqb_spec ch dquote) as [->|_]; reflexivity.
Qed.

(** [escape_csv] returns a value without comma, quote and newline as it
    is, and any other value as a quote, the value with every quote in it
    written twice, and a quote. Either way a CSV reader reads the field,
    when a newline ends it, back as one row with the value as its only
    field. *)
Theorem escape_csv_reads_back (value : string) :
  (plain value -> escape_csv value = value) /\
  (~ plain value ->
   escape_csv value = String dquote (doubled value ++ String dquote "")) /\
  read_csv (escape_csv value ++ String newline "") = [[value]].
Proof.
  unfold escape_csv, plain, read_csv.
  destruct (find_first_of value _) as [i|] eqn:F; cbn [negb]; cbv iota zeta.
  - rewrite escape_csv_loop_app, escape_csv_loop_doubled. unfold push_back.
    cbn [append]. refine (conj _ (conj _ _)).
    + discriminate.
    + reflexivity.
    + rewrite <- escape_csv_loop_doubled, append_assoc.
      cbn [append read_csv_from].
      change (Ascii.eqb dquote ",") with false.
      change (Ascii.eqb dquote newline) with false.
      change (Ascii.eqb dquote dquote) with true. cbv iota.
      rewrite read_csv_quoted. reflexivity.
  - refine (conj _ (conj _ _)).
    + reflexivity.
    + intros N. now contradiction N.
    + now apply (read_csv_plain_newline value "" []).
Qed.

(** ** append_records_to_csv *)

Section CsvFacts.

Context {double : Type}.
Variable show : double -> string.
Hypothesis show_plain : forall d, plain (show d).

Lemma put_optional_eq (out : string) (field : option double) :
  put_optional show out field
  = out ++ match field with Some d => show d | None => "" end.
Proof. destruct field; cbn [put_optional]; now rewrite ?append_nil_r. Qed.

Lemma shown_plain (field : option double) :
  plain match field with Some d => show d | None => "" end.
Proof. destruct field; [apply show_plain|reflexivity]. Qed.

Lemma read_csv_put_record (out : string) (record : Record_ double) :
  plain (time_iso record) ->
  exists row_text,
    put_record show out record = out ++ row_text /\
    forall text,
      read_csv_from (row_text ++ text) at_start "" []
      = record_fields show record :: read_csv_from text at_start "" [].
Proof.
  intros Pt. unfold put_record. cbv zeta. rewrite !put_optional_eq.
  rewrite !append_assoc. eexists; split; [reflexivity|]. intros text.
  rewrite !append_assoc. cbn [append].
  rewrite (read_csv_plain_comma _ _ _ Pt).
  rewrite (read_csv_plain_comma _ _ _ (shown_plain _)).
  rewrite read_csv_escaped.
  rewrite (read_csv_plain_comma _ _ _ (shown_plain _)).
  rewrite (read_csv_plain_comma _ _ _ (shown_plain _)).
  rewrite (read_csv_plain_newline _ _ _ (shown_plain _)).
  reflexivity.
Qed.

Lemma read_csv_records (records : list (Record_ double)) :
  Forall (fun record => plain (time_iso record)) records ->
  forall out,
    exists rows_text,
      fold_left (put_record show) records out = out ++ rows_text /\
      read_csv_from rows_text at_start "" []
      = map (record_fields show) records.
Proof.
  induction 1 as [|record records Pt _ IH]; intros out.
  - exists "". now rewrite append_nil_r.
  - cbn [fold_left map].
    destruct (read_csv_put_record out record Pt) as (row_text & -> & R).
    destruct (IH (out ++ row_text)) as (rows_text & -> & E).
    exists (row_text ++ rows_text). rewrite append_assoc. split; auto.
    now rewrite R, E.
Qed.

End CsvFacts.

(** What [append_records_to_csv] writes, a CSV reader reads back: one row
    of six fields per record, in the order of the records, after the row
    of the column names when the file is new; the place comes back as it
    was, commas, quotes and newlines included, and an absent number as
    an empty field. This holds when the texts of the timestamps and of
    the numbers have no comma, quote or newline. *)
Theorem csv_rows_read_back (double : Type) (show : double -> string)
  (records : list (Record_ double)) (file_exists : bool) :
  (forall d, plain (show d)) ->
  Forall (fun record => plain (time_iso record)) records ->
  exists text,
    append_records_to_csv show records file_exists true = Return text /\
    read_csv text =
    ((if file_exists then []
      else [["time_iso"; "magnitude"; "place"; "longitude"; "latitude";
             "depth_km"]])
     ++ map (record_fields show) records)%list.
Proof.
  intros Hs Ht. unfold append_records_to_csv. cbn [negb]. cbv zeta.
  eexists; split; [reflexivity|].
  destruct file_exists; cbn [negb append app].
  - destruct (read_csv_records show Hs records Ht "")
      as (rows_text & -> & E).
    exact E.
  - destruct (read_csv_records show Hs records Ht csv_header)
      as (rows_text & -> & E).
    unfold read_csv. rewrite <- E. reflexivity.
Qed.

Lemma csv_rows_read_back_witness :
  exists text,
    append_records_to_csv (fun _ : unit => "4.5")
      [{| time_iso := "t"; magnitude := Some tt;
          place := String "a" (String "," (String dquote "b"));
          longitude := None; latitude := None; depth_km := None |}]
      false true
    = Return text /\
    read_csv text =
    [["time_iso"; "magnitude"; "place"; "longitude"; "latitude";
      "depth_km"];
     ["t"; "4.5"; String "a" (String "," (String dquote "b")); ""; "";
      ""]].
Proof.
  apply (csv_rows_read_back unit (fun _ => "4.5")
           [{| time_iso := "t"; magnitude := Some tt;
               place := String "a" (String "," (String dquote "b"));
               longitude := None; latitude := None; depth_km := None |}]
           false).
  - intros d. reflexivity.
  - repeat constructor.
Defined.

(** ** Field extraction *)

Section Extraction.

Context {double : Type}.

(** [to_number] and [to_string] never throw, although they call the
    throwing accessors: on the result of a lookup they give the number
    (the string) exactly when the key or index holds a number (a string),
    and nothing for a missing key, an index out of range, a null or a
    value of another kind. *)
Theorem field_extraction_tolerant (object : JsonObject double)
  (key : string) (array : JsonArray double) (index : nat) :
  keys_ascending object ->
  (exists r, to_number (get_object object key) = Return r /\
             forall d, r = Some d <-> In (key, JNumber d) object) /\
  (exists r, to_string (get_object object key) = Return r /\
             forall s, r = Some s <-> In (key, JString s) object) /\
  (exists r, to_number (get_array array index) = Return r /\
             forall d, r = Some d <->
                       nth_error array index = Some (JNumber d)).
Proof.
  intros S. unfold get_object. split; [|split].
  - destruct (map_find object key) as [v|] eqn:E.
    + apply (map_find_in _ _ _ S) in E.
      destruct v; simpl; eexists; (split; [reflexivity|]); intros d';
        split; try discriminate; intros H;
        try (apply (map_find_in _ _ _ S) in H;
             apply (map_find_in _ _ _ S) in E; congruence).
      * injection H as <-. exact E.
    + exists None; split; [reflexivity|]. intros d; split; [discriminate|].
      intros H. apply (map_find_in _ _ _ S) in H. congruence.
  - destruct (map_find object key) as [v|] eqn:E.
    + apply (map_find_in _ _ _ S) in E.
      destruct v; simpl; eexists; (split; [reflexivity|]); intros d';
        split; try discriminate; intros H;
        try (apply (map_find_in _ _ _ S) in H;
             apply (map_find_in _ _ _ S) in E; congruence).
      * injection H as <-. exact E.
    + exists None; split; [reflexivity|]. intros d; split; [discriminate|].
      intros H. apply (map_find_in _ _ _ S) in H. congruence.
  - unfold get_array. destruct (List.length array <=? index) eqn:L.
    + exists None; split; [reflexivity|]. intros d; split; [discriminate|].
      apply Nat.leb_le, nth_error_None in L. congruence.
    + destruct (nth_error array index) as [v|] eqn:E.
      * destruct v; simpl; eexists; (split; [reflexivity|]); intros d';
          split; try discriminate; congruence.
      * exists None; split; [reflexivity|]. intros d; split; discriminate.
Qed.

End Extraction.

Lemma field_extraction_tolerant_witness :
  exists r,
    to_number (get_object [("mag", @JNumber string "4.5")] "mag") = Return r
    /\ forall d, r = Some d <-> In ("mag", JNumber d) [("mag", JNumber "4.5")].
Proof.
  apply (field_extraction_tolerant [("mag", @JNumber string "4.5")] "mag" []
           0).
  repeat constructor.
Defined.

(** ** parse_records *)

Section RecordsFacts.

Context {double : Type}.
Variable stod : string -> option double.
Variable to_int64 : double -> Z.
Variable utc_text : Z -> option string.

#[local] Abbreviation to_number := (@to_number double).
#[local] Abbreviation to_string := (@to_string double).
#[local] Abbreviation parse_records_loop :=
  (parse_records_loop to_int64 utc_text).
#[local] Abbreviation parse_records := (parse_records stod to_int64 utc_text).

Lemma to_number_returns (value : option (JsonValue double)) :
  exists r, to_number value = Return r.
Proof. destruct value as [[]|]; simpl; eauto. Qed.

Lemma to_string_returns (value : option (JsonValue double)) :
  exists r, to_string value = Return r.
Proof. destruct value as [[]|]; simpl; eauto. Qed.

(** What the loop does with one feature: a feature that is not usable is
    passed over; a usable one adds one record, or ends the loop with the
    timestamp error. *)
Lemma parse_records_loop_step (feature : JsonValue double)
  (rest : list (JsonValue double)) (records : list (Record_ double)) :
  (usable_feature feature = false /\
   parse_records_loop (feature :: rest) records
   = parse_records_loop rest records) \/
  (usable_feature feature = true /\
   ((exists record,
        parse_records_loop (feature :: rest) records
        = parse_records_loop rest (records ++ [record])) \/
    parse_records_loop (feature :: rest) records
    = Raise (runtime_error "Failed to convert timestamp to UTC") /\
    exists millis, utc_text millis = None)).
Proof.
  destruct feature as [| | | | |feature_obj]; try (left; split; reflexivity).
  cbn [pipeline.parse_records_loop usable_feature is_object negb as_object
         from_json rbind].
  destruct (get_object feature_obj "properties") as [[| | | | |properties]|];
    try (left; split; reflexivity);
    try (left; split; [now destruct (get_object feature_obj "geometry")
                                   as [[]|]|reflexivity]).
  cbn [is_object negb].
  destruct (get_object feature_obj "geometry") as [[| | | | |geometry]|];
    try (left; split; reflexivity).
  cbn [is_object negb as_object from_json rbind].
  destruct (get_object properties "time") as [[| |t| | |]|];
    try (left; split; reflexivity).
  right; split; [reflexivity|].
  cbn [is_number negb as_number from_json rbind].
  unfold iso8601_from_millis.
  destruct (utc_text (to_int64 t)) as [text|] eqn:U; cbn [rbind].
  2:{ right; split; eauto. }
  left.
  destruct (to_number_returns (get_object properties "mag")) as [mag ->].
  destruct (to_string_returns (get_object properties "place")) as [pl ->].
  cbn [rbind].
  destruct (get_object geometry "coordinates") as [cv|].
  - destruct cv as [| | | |coordinates|]; cbn [is_array rbind];
      try (eexists; reflexivity).
    cbn [as_array from_json rbind].
    destruct (to_number_returns (get_array coordinates 0)) as [lon ->].
    destruct (to_number_returns (get_array coordinates 1)) as [lat ->].
    destruct (to_number_returns (get_array coordinates 2)) as [dep ->].
    cbn [rbind]. eexists; reflexivity.
  - cbn [rbind]. eexists; reflexivity.
Qed.

Lemma parse_records_loop_outcome (features : list (JsonValue double)) :
  forall records,
    (exists new,
        parse_records_loop features records = Return (records ++ new)%list /\
        List.length new = List.length (filter usable_feature features)) \/
    (parse_records_loop features records
     = Raise (runtime_error "Failed to convert timestamp to UTC") /\
     exists millis, utc_text millis = None).
Proof.
  induction features as [|feature rest IH]; intros records.
  - left. exists []; split; [|reflexivity]. now rewrite app_nil_r.
  - destruct (parse_records_loop_step feature rest records)
      as [[U ->]|[U [[record ->]|[-> N]]]]; cbn [filter]; rewrite U.
    + apply IH.
    + destruct (IH (records ++ [record])%list) as [(new & -> & L)|R];
        [left|now right].
      exists (record :: new); split.
      * now rewrite <- app_assoc.
      * simpl; lia.
    + now right.
Qed.

End RecordsFacts.

(** [parse_records] ends in one of five ways: with the records; with the
    exception [parse] threw on the payload (a [ParseError], or the
    [std::out_of_range] of [std::stod]); or with one of its three
    [std::runtime_error]s: a root that is not an object, no array under
    "features", or a timestamp [gmtime_r] rejects. No accessor of the
    value model ever throws in it. *)
Theorem parse_records_outcomes (double : Type)
  (stod : string -> option double) (to_int64 : double -> Z)
  (utc_text : Z -> option string) (payload : string) :
  match parse_records stod to_int64 utc_text payload with
  | Return _ => exists root, parse stod payload = Ok (JObject root)
  | Raise (json e) =>
      parse stod payload = Throw e /\ parser_exception stod e
  | Raise (runtime_error message) =>
      (message = "Unexpected JSON root type" /\
       exists root, parse stod payload = Ok root /\ is_object root = false)
      \/
      (message = "Missing features array" /\
       exists root, parse stod payload = Ok (JObject root) /\
                    forall a, get_object root "features" <> Some (JArray a))
      \/
      (message = "Failed to convert timestamp to UTC" /\
       exists millis, utc_text millis = None)
  | Diverge => False
  end.
Proof.
  unfold parse_records.
  pose proof (raises_parse double stod payload) as R.
  pose proof (parse_not_out_of_fuel double stod payload) as F.
  destruct (parse stod payload) as [root|e|]; cbn [from_json rbind];
    [|now split|now apply F].
  destruct root as [| | | | |root]; cbn [is_object negb];
    try (left; split; [reflexivity|]; eexists; split; reflexivity).
  cbn [as_object from_json rbind].
  destruct (get_object root "features") as [fv|] eqn:G.
  2:{ right; left; split; [reflexivity|]. exists root; split; auto.
      intros a; rewrite G; discriminate. }
  destruct fv as [| | | |features|]; cbn [is_array negb];
    try (right; left; split; [reflexivity|]; exists root; split; auto;
         intros a; rewrite G; discriminate).
  cbn [as_array from_json rbind].
  destruct (parse_records_loop_outcome to_int64 utc_text features [])
    as [(new & -> & _)|[-> N]]; eauto.
Qed.

(** When the payload parses to an object with an array under "features"
    and [gmtime_r] accepts every timestamp, [parse_records] returns one
    record for each feature that is an object with an object under
    "properties", an object under "geometry" and a number under the
    "time" property, and passes over every other feature: a missing
    magnitude, place or coordinate never costs the record. *)
Theorem parse_records_keeps_usable_features (double : Type)
  (stod : string -> option double) (to_int64 : double -> Z)
  (utc_text : Z -> option string) (payload : string)
  (root : JsonObject double) (features : JsonArray double) :
  parse stod payload = Ok (JObject root) ->
  get_object root "features" = Some (JArray features) ->
  (forall millis, utc_text millis <> None) ->
  exists records,
    parse_records stod to_int64 utc_text payload = Return records /\
    List.length records = List.length (filter usable_feature features) /\
    List.length records <= List.length features.
Proof.
  intros Hp Hf Hu. unfold parse_records.
  rewrite Hp. cbn [from_json rbind is_object negb as_object]. rewrite Hf.
  cbn [is_array negb as_array from_json rbind].
  destruct (parse_records_loop_outcome to_int64 utc_text features [])
    as [(new & -> & L)|[_ [millis N]]].
  - exists new; repeat split; auto. rewrite L. apply filter_length_le.
  - now apply Hu in N.
Qed.

Lemma parse_records_keeps_usable_features_witness :
  exists records,
    parse_records stod_text (fun _ => 0%Z) (fun _ => Some "t")
      (json_text "{'features':[{'properties':{'time':1},'geometry':{}},5]}")
    = Return records /\
    List.length records = 1 /\ List.length records <= 2.
Proof.
  exact (parse_records_keeps_usable_features string stod_text
           (fun _ => 0%Z) (fun _ => Some "t")
           (json_text "{'features':[{'properties':{'time':1},'geometry':{}},5]}")
           _ _ eq_refl eq_refl ltac:(discriminate)).
Defined.

(** ** The magnitude buckets *)

Lemma compare_cont_spec (x y : positive) :
  CompareSpec (x = y) (x < y)%positive (y < x)%positive
    (Pos.compare_cont Eq x y).
Proof. apply Pos.compare_spec. Qed.

Ltac float_order :=
  unfold double_ge, double_lt, SFleb, SFltb, SFcompare;
  repeat match goal with
         | x : spec_float |- _ => destruct x
         | x : double64 |- _ => destruct x
         end;
  try discriminate;
  repeat match goal with
         | s : bool |- _ => destruct s
         end;
  try discriminate; try reflexivity;
  repeat match goal with
         | |- context [Z.compare ?x ?y] => destruct (Z.compare_spec x y)
         | |- context [Pos.compare_cont Eq ?x ?y] =>
             destruct (compare_cont_spec x y)
         end;
  cbn; try discriminate; try reflexivity; try lia.

Lemma SFleb_ltb_trans (a m b : spec_float) :
  SFleb a m = true -> SFltb m b = true -> SFltb a b = true.
Proof. float_order. Qed.

Lemma SFleb_trans (a b m : spec_float) :
  SFleb a b = true -> SFleb b m = true -> SFleb a m = true.
Proof. float_order. Qed.

Lemma SFltb_total (m c : spec_float) :
  SFleb c m = false -> SFleb c c = true -> SFleb m m = true ->
  SFltb m c = true.
Proof. float_order. Qed.

Lemma SFltb_not_leb (m c : spec_float) :
  SFltb m c = true -> SFleb c m = false.
Proof. float_order. Qed.

Lemma SFleb_refl_of (a m : spec_float) : SFleb a m = true -> SFleb m m = true.
Proof. float_order. Qed.

Lemma exclusive_by_bounds (b1 b2 : Bucket) :
  SFltb (min_inclusive b2) (max_exclusive b1) = false ->
  forall mag, in_bucket mag b1 = true -> in_bucket mag b2 = false.
Proof.
  intros H mag H1. unfold in_bucket, double_ge, double_lt in *.
  apply andb_prop in H1 as [_ H1].
  destruct (SFleb (min_inclusive b2) mag) eqn:E; [|reflexivity].
  rewrite (SFleb_ltb_trans _ _ _ E H1) in H. discriminate.
Qed.

Lemma make_buckets_exclusive : exclusive make_buckets.
Proof.
  unfold exclusive, make_buckets.
  repeat (constructor;
          [repeat (constructor;
                   [apply exclusive_by_bounds; vm_compute; reflexivity|]);
           constructor|]).
  constructor.
Qed.

Lemma count_magnitude_length (buckets : list Bucket) (mag : double64) :
  forall counts,
    List.length (count_magnitude buckets counts mag) = List.length counts.
Proof.
  induction buckets as [|b buckets IH]; intros [|c counts]; simpl; auto.
  destruct (in_bucket mag b); simpl; auto.
Qed.

Lemma count_magnitude_nth (buckets : list Bucket) (mag : double64) :
  exclusive buckets ->
  forall counts i b c,
    nth_error buckets i = Some b -> nth_error counts i = Some c ->
    nth_error (count_magnitude buckets counts mag) i
    = Some (if in_bucket mag b then c + 1 else c).
Proof.
  induction 1 as [|b0 buckets F _ IH]; intros counts i b c Hb Hc.
  - destruct i; discriminate.
  - destruct counts as [|c0 counts]; [destruct i; discriminate|].
    cbn [count_magnitude]. destruct i as [|i]; simpl in Hb, Hc.
    + injection Hb as <-. injection Hc as <-.
      now destruct (in_bucket mag b0).
    + destruct (in_bucket mag b0) eqn:E; simpl.
      * rewrite Forall_forall in F.
        rewrite (F b (nth_error_In _ _ Hb) mag E). exact Hc.
      * now apply IH.
Qed.

Lemma count_records_nth (buckets : list Bucket) :
  exclusive buckets ->
  forall records counts i b c,
    List.length counts = List.length buckets ->
    nth_error buckets i = Some b -> nth_error counts i = Some c ->
    nth_error (count_records buckets records counts) i
    = Some (c + List.length (filter (in_range b) records)).
Proof.
  intros X; induction records as [|r records IH];
    intros counts i b c L Hb Hc; cbn [count_records filter].
  - now rewrite Nat.add_0_r.
  - unfold in_range at 1. destruct (magnitude r) as [mag|].
    + rewrite (IH _ i b (if in_bucket mag b then c + 1 else c)); auto.
      * f_equal. destruct (in_bucket mag b); simpl; lia.
      * now rewrite count_magnitude_length.
      * now apply count_magnitude_nth.
    + now apply IH.
Qed.

Lemma report_counts_eq (records : list (Record_ double64)) :
  report_counts records =
  map (fun bucket => List.length (filter (in_range bucket) records))
    make_buckets.
Proof.
  apply nth_error_ext. intros i. unfold report_counts. cbv zeta.
  rewrite nth_error_map.
  destruct (nth_error make_buckets i) as [b|] eqn:Hb; cbn [option_map].
  - assert (i < List.length make_buckets) as Hi
      by (apply nth_error_Some; congruence).
    rewrite (count_records_nth _ make_buckets_exclusive records _ i b 0);
      auto using repeat_length.
    now apply nth_error_repeat.
  - apply nth_error_None. apply nth_error_None in Hb.
    assert (forall rs cs, List.length (count_records make_buckets rs cs)
                          = List.length cs) as L.
    { induction rs as [|r rs IHr]; intros cs; cbn [count_records]; auto.
      destruct (magnitude r); rewrite IHr; auto.
      apply count_magnitude_length. }
    rewrite L, repeat_length. exact Hb.
Qed.

Lemma exclusive_sum (P : Bucket -> bool) (buckets : list Bucket) :
  ForallOrdPairs (fun b1 b2 => P b1 = true -> P b2 = false) buckets ->
  list_sum (map (fun b => if P b then 1 else 0) buckets)
  = if existsb P buckets then 1 else 0.
Proof.
  induction 1 as [|b buckets F _ IH]; [reflexivity|].
  cbn [map existsb]. rewrite list_sum_cons, IH.
  rewrite Forall_forall in F.
  destruct (P b) eqn:E; [|reflexivity]. cbn [orb].
  replace (existsb P buckets) with false; [reflexivity|].
  symmetry. apply not_true_is_false. intros Hx.
  apply existsb_exists in Hx as (b' & Hin & Hp).
  rewrite (F b' Hin eq_refl) in Hp. discriminate.
Qed.

Lemma make_buckets_cover (mag : double64) :
  existsb (in_bucket mag) make_buckets
  = double_ge mag lowest && double_lt mag infinity.
Proof.
  unfold make_buckets, in_bucket, double_ge, double_lt.
  cbn [existsb min_inclusive max_exclusive].
  destruct (SFleb lowest mag) eqn:P0.
  2:{ assert (forall n, SFleb (double_of_pos n) mag = true ->
                        SFleb lowest (double_of_pos n) = true -> False) as N.
      { intros n H1 H2. rewrite (SFleb_trans _ _ _ H2 H1) in P0.
        discriminate. }
      repeat match goal with
             | |- context [SFleb (double_of_pos ?n) mag] =>
                 destruct (SFleb (double_of_pos n) mag) eqn:?;
                 [exfalso; eapply N; [eassumption|reflexivity]|]
             end.
      reflexivity. }
  pose proof (SFleb_refl_of _ _ P0) as Rm.
  assert (forall c, SFleb c c = true ->
                    SFltb mag c = negb (SFleb c mag)) as T.
  { intros c Rc. destruct (SFleb c mag) eqn:E; cbn [negb].
    - destruct (SFltb mag c) eqn:E'; auto.
      apply SFltb_not_leb in E'. congruence.
    - now apply SFltb_total. }
  rewrite !(T (double_of_pos _)) by reflexivity.
  assert (forall a b, SFleb a b = true -> SFleb b mag = true ->
                      SFleb a mag = true) as M
      by (intros a b; apply SFleb_trans).
  pose proof (M (double_of_pos 1) (double_of_pos 2) eq_refl) as M1.
  pose proof (M (double_of_pos 2) (double_of_pos 3) eq_refl) as M2.
  pose proof (M (double_of_pos 3) (double_of_pos 4) eq_refl) as M3.
  pose proof (M (double_of_pos 4) (double_of_pos 5) eq_refl) as M4.
  pose proof (M (double_of_pos 5) (double_of_pos 6) eq_refl) as M5.
  pose proof (M (double_of_pos 6) (double_of_pos 7) eq_refl) as M6.
  pose proof (M (double_of_pos 7) (double_of_pos 8) eq_refl) as M7.
  destruct (SFltb mag infinity) eqn:Pinf.
  - destruct (SFleb (double_of_pos 8) mag) eqn:P8;
      [rewrite M7, M6, M5, M4, M3, M2, M1 by auto 10; reflexivity|].
    destruct (SFleb (double_of_pos 7) mag) eqn:P7;
      [rewrite M6, M5, M4, M3, M2, M1 by auto 10; reflexivity|].
    destruct (SFleb (double_of_pos 6) mag) eqn:P6;
      [rewrite M5, M4, M3, M2, M1 by auto; reflexivity|].
    destruct (SFleb (double_of_pos 5) mag) eqn:P5;
      [rewrite M4, M3, M2, M1 by auto; reflexivity|].
    destruct (SFleb (double_of_pos 4) mag) eqn:P4;
      [rewrite M3, M2, M1 by auto; reflexivity|].
    destruct (SFleb (double_of_pos 3) mag) eqn:P3;
      [rewrite M2, M1 by auto; reflexivity|].
    destruct (SFleb (double_of_pos 2) mag) eqn:P2;
      [rewrite M1 by auto; reflexivity|].
    destruct (SFleb (double_of_pos 1) mag) eqn:P1; reflexivity.
  - assert (SFleb (double_of_pos 8) mag = true) as P8.
    { clear - P0 Pinf.
      destruct mag as [sm|[]| |sm mm em];
        try discriminate P0; try discriminate Pinf; reflexivity. }
    rewrite P8, M7, M6, M5, M4, M3, M2, M1 by auto 10. reflexivity.
Qed.

(** The counts of the report are the counts by range: the count of each
    bucket is the number of records whose magnitude is from the bucket's
    minimum up and below its maximum, although the loop only ever counts
    the first bucket that holds a magnitude. A record is counted in some
    bucket exactly when it has a magnitude that is neither a NaN nor an
    infinity, and then once. *)
Theorem report_counts_by_range (records : list (Record_ double64)) :
  report_rows records =
  map (fun bucket =>
         (label bucket, List.length (filter (in_range bucket) records)))
    make_buckets /\
  list_sum (report_counts records)
  = List.length (filter has_finite_magnitude records).
Proof.
  split.
  - unfold report_rows. rewrite report_counts_eq.
    generalize make_buckets. intros bs.
    induction bs as [|b bs IH]; cbn [map combine]; [reflexivity|].
    now rewrite IH.
  - rewrite report_counts_eq.
    induction records as [|r records IH].
    + reflexivity.
    + cbn [filter].
      assert (list_sum
                (map (fun bucket =>
                        List.length
                          (if in_range bucket r
                           then r :: filter (in_range bucket) records
                           else filter (in_range bucket) records))
                   make_buckets)
              = list_sum (map (fun b => if in_range b r then 1 else 0)
                            make_buckets)
                + list_sum
                    (map (fun bucket =>
                            List.length (filter (in_range bucket) records))
                       make_buckets)) as ->.
      { generalize make_buckets. intros bs.
        induction bs as [|b bs IHb]; [reflexivity|].
        cbn [map]. rewrite !list_sum_cons, IHb.
        destruct (in_range b r); simpl; lia. }
      rewrite IH, exclusive_sum.
      * unfold has_finite_magnitude, in_range.
        destruct (magnitude r) as [mag|].
        -- rewrite <- make_buckets_cover.
           destruct (existsb _ _); reflexivity.
        -- replace (existsb (fun _ : Bucket => false) make_buckets)
             with false by reflexivity.
           reflexivity.
      * pose proof make_buckets_exclusive as X. unfold exclusive in X.
        revert X. generalize make_buckets. intros bs X.
        induction X as [|b bs F _ IHX]; constructor; auto.
        rewrite Forall_forall in *. intros b' Hin. unfold in_range.
        destruct (magnitude r) as [mag|]; auto.
Qed.

End simplejson.
